(** * SFTP_Downloader: the resumable transfer engine of [FTP_IPI.py]

    A shallow embedding of [src/FTP_IPI.py] and the properties of its
    specification, stated over that embedding.

    Modelling conventions.
    - Python [bytes] values are [string]s (sequences of 8-bit characters).
      A Python [str] is held as the [string] of its UTF-8 encoding: where
      the code looks at the characters of a [str] ([str.isdigit],
      [str.strip], [len], [<]) the model looks at its code points
      ([PyStr.decode]).
    - The local file system is a finite map from paths to contents.  A
      [pathlib] path is the string [str] gives for it ([PyPath]: POSIX
      paths); two paths that differ as strings are different files.
      What is written to a local file is in it at once: the content of a
      file that is open is the content with what its buffer holds.
    - The log (lines 41-48: the console and the file [LOG_FILE]) is the
      sequence of the [EvLog] events of the trace, each a line appended to
      it.  The log file is not held in the file system of the model:
      statements that compare the local files before and after leave the
      path [log_file] out.
    - Everything the program asks of its surroundings (SFTP server, sockets,
      wall clock, fallible system calls) is answered by an [Env]: a family of
      oracles indexed by the number of such questions asked so far.
    - Code that raises runs in a state-and-exception monad [M];
      [try]/[except]/[finally] are combinators of it.
    - Every interaction and every log line is appended to a trace, which is
      what the theorems about runs talk about. *)

From Stdlib Require Import ZArith NArith QArith Ascii String List Bool Sorted Lia.
From stdpp Require Import base gmap strings.
Import ListNotations.
Local Open Scope string_scope.
Local Open Scope Z_scope.
Local Open Scope list_scope.

(** ** Strings as Python uses them *)

Module PyStr.

(** A [str] is held in its UTF-8 encoding; [decode] gives its code
    points.  A byte that does not begin a well-formed sequence stands for
    itself, and a sequence cut short by the end of the string is left out:
    neither arises for a string that is UTF-8. *)
Fixpoint decode_from (pending : nat) (acc : N) (s : string) : list N :=
  match s with
  | EmptyString => []
  | String b r =>
      let v := N_of_ascii b in
      match pending with
      | O =>
          if (v <? 192)%N then v :: decode_from 0 0 r
          else if (v <? 224)%N then decode_from 1 (v - 192) r
          else if (v <? 240)%N then decode_from 2 (v - 224) r
          else if (v <? 248)%N then decode_from 3 (v - 240) r
          else v :: decode_from 0 0 r
      | S m =>
          let acc' := (acc * 64 + v mod 64)%N in
          match m with
          | O => acc' :: decode_from 0 0 r
          | S _ => decode_from m acc' r
          end
      end
  end.

Definition decode (s : string) : list N := decode_from 0 0 s.

(** The code points between [lo] and [hi] of one of the [ranges]. *)
Definition in_ranges (ranges : list (N * N)) (c : N) : bool :=
  existsb (fun r => (fst r <=? c)%N && (c <=? snd r)%N) ranges.

(** The code points for which [str.isdigit] holds (Unicode 14, the
    database of Python 3.11): those of numeric type Digit or Decimal. *)
Definition digit_ranges : list (N * N) :=
  [(48, 57); (178, 179); (185, 185); (1632, 1641); (1776, 1785);
   (1984, 1993); (2406, 2415); (2534, 2543); (2662, 2671); (2790, 2799);
   (2918, 2927); (3046, 3055); (3174, 3183); (3302, 3311); (3430, 3439);
   (3558, 3567); (3664, 3673); (3792, 3801); (3872, 3881); (4160, 4169);
   (4240, 4249); (4969, 4977); (6112, 6121); (6160, 6169); (6470, 6479);
   (6608, 6618); (6784, 6793); (6800, 6809); (6992, 7001); (7088, 7097);
   (7232, 7241); (7248, 7257); (8304, 8304); (8308, 8313); (8320, 8329);
   (9312, 9320); (9332, 9340); (9352, 9360); (9450, 9450); (9461, 9469);
   (9471, 9471); (10102, 10110); (10112, 10120); (10122, 10130);
   (42528, 42537); (43216, 43225); (43264, 43273); (43472, 43481);
   (43504, 43513); (43600, 43609); (44016, 44025); (65296, 65305);
   (66720, 66729); (68160, 68163); (68912, 68921); (69216, 69224);
   (69714, 69722); (69734, 69743); (69872, 69881); (69942, 69951);
   (70096, 70105); (70384, 70393); (70736, 70745); (70864, 70873);
   (71248, 71257); (71360, 71369); (71472, 71481); (71904, 71913);
   (72016, 72025); (72784, 72793); (73040, 73049); (73120, 73129);
   (92768, 92777); (92864, 92873); (93008, 93017); (120782, 120831);
   (123200, 123209); (123632, 123641); (125264, 125273); (127232, 127242);
   (130032, 130041)]%N.

(** The code points for which [str.isspace] holds. *)
Definition space_ranges : list (N * N) :=
  [(9, 13); (28, 32); (133, 133); (160, 160); (5760, 5760); (8192, 8202);
   (8232, 8233); (8239, 8239); (8287, 8287); (12288, 12288)]%N.

(** [c.isdigit()] *)
Definition isdigit (c : N) : bool := in_ranges digit_ranges c.

(** [c.isspace()] *)
Definition isspace (c : N) : bool := in_ranges space_ranges c.

Fixpoint lstrip (s : list N) : list N :=
  match s with
  | [] => []
  | c :: r => if isspace c then lstrip r else s
  end.

Definition rstrip (s : list N) : list N := rev (lstrip (rev s)).

(** [s.strip()] *)
Definition strip (s : list N) : list N := rstrip (lstrip s).

(** [needle in s] *)
Fixpoint contains (needle s : string) : bool :=
  String.prefix needle s
  || match s with
     | EmptyString => false
     | String _ r => contains needle r
     end.

(** [len(s)] of a [bytes] value *)
Definition len (s : string) : Z := Z.of_nat (String.length s).

(** [s[n:]] for [0 <= n] *)
Fixpoint drop (n : Z) (s : string) : string :=
  match s with
  | EmptyString => EmptyString
  | String _ r => if n <=? 0 then s else drop (n - 1) r
  end.

(** [s[:n]] for [0 <= n] *)
Fixpoint take (n : Z) (s : string) : string :=
  match s with
  | EmptyString => EmptyString
  | String c r => if n <=? 0 then EmptyString else String c (take (n - 1) r)
  end.

(** [all(p(c) for c in s)] *)
Definition all (p : N -> bool) (s : list N) : bool := forallb p s.



(** The order of [str]: that of the first code point in which the two
    differ, a proper beginning coming first. *)
Fixpoint compare (a b : list N) : comparison :=
  match a, b with
  | [], [] => Eq
  | [], _ :: _ => Lt
  | _ :: _, [] => Gt
  | x :: a', y :: b' =>
      match (x ?= y)%N with
      | Eq => compare a' b'
      | c => c
      end
  end.

(** [a < b] and [a > b] on [str]. *)
Definition lt (a b : list N) : bool :=
  match compare a b with Lt => true | _ => false end.
Definition gt (a b : list N) : bool := lt b a.

End PyStr.

(** ** File selection (lines 183-214 of [main]) *)

(** [''.join(filter(str.isdigit, name))], as code points *)
Definition digits_of (name : string) : list N :=
  List.filter PyStr.isdigit (PyStr.decode name).

(** [extract_date], the closure defined inside [main]. *)
Definition extract_date (file_name : string) : option (list N) :=
  let digits := digits_of file_name in
  if (length digits =? 8)%nat then Some digits else None.

(** [last_date_str] as computed from the content of the record file
    ([None] when the file does not exist): the digits of the content
    stripped of the white space around it. *)
Definition last_date_of (record : option string) : option (list N) :=
  match record with
  | Some content =>
      Some (List.filter PyStr.isdigit (PyStr.strip (PyStr.decode content)))
  | None => None
  end.

(** The condition of the [if] inside the filtering loop:
    [file_date and (last_date_str is None or file_date > last_date_str)].
    An 8-character string is truthy. *)
Definition eligible (last_date_str : option (list N)) (f : string) : bool :=
  match extract_date f with
  | Some file_date =>
      match last_date_str with
      | None => true
      | Some last => PyStr.gt file_date last
      end
  | None => false
  end.

Definition filtered_files (last_date_str : option (list N))
  (files : list string)
  : list string :=
  List.filter (eligible last_date_str) files.

(** [files = [f for f in listdir() if 'IPI' in f]] *)
Definition ipi_files (names : list string) : list string :=
  List.filter (PyStr.contains "IPI") names.

(** [min(xs, key=extract_date)] for a non-empty [xs = first :: rest]: the
    first element whose key is smallest.  Keys are compared with [<]; a key
    that is [None] makes that comparison a [TypeError], reported as [None]
    here. *)
Fixpoint min_by_date (best : string) (rest : list string) : option string :=
  match rest with
  | [] => Some best
  | x :: rest' =>
      match extract_date x, extract_date best with
      | Some kx, Some kb =>
          if PyStr.lt kx kb then min_by_date x rest' else min_by_date best rest'
      | _, _ => None
      end
  end.

(** ** Paths as [pathlib] has them (lines 28-31, 216, 228) *)

Module PyPath.

(** [s.split('/')] *)
Fixpoint split (s : string) : list string :=
  match s with
  | EmptyString => [EmptyString]
  | String c r =>
      if Ascii.eqb c "/" then EmptyString :: split r
      else match split r with
           | [] => [String c EmptyString]
           | h :: t => String c h :: t
           end
  end.

(** The number of slashes [s] begins with. *)
Fixpoint leading_slashes (s : string) : nat :=
  match s with
  | String c r => if Ascii.eqb c "/" then S (leading_slashes r) else O
  | EmptyString => O
  end.

(** The root of a POSIX path: none, [/], or [//] for exactly two leading
    slashes. *)
Definition root (s : string) : string :=
  match leading_slashes s with
  | O => EmptyString
  | 2%nat => "//"
  | _ => "/"
  end.

(** The components of a path: empty ones and [.] are dropped. *)
Definition parts (s : string) : list string :=
  List.filter
    (fun x => negb (String.eqb x EmptyString) && negb (String.eqb x "."))
    (split s).

Fixpoint join (xs : list string) : string :=
  match xs with
  | [] => EmptyString
  | [x] => x
  | x :: rest => (x ++ "/" ++ join rest)%string
  end.

(** [str] of the path with the given root and components. *)
Definition format (r : string) (xs : list string) : string :=
  match r, xs with
  | EmptyString, [] => "."
  | _, _ => (r ++ join xs)%string
  end.

(** [str(Path(s))] *)
Definition str (s : string) : string := format (root s) (parts s).

(** [str(Path(dir) / name)]: an absolute [name] replaces [dir]. *)
Definition div (dir name : string) : string :=
  match root name with
  | EmptyString => format (root dir) (parts dir ++ parts name)
  | r => format r (parts name)
  end.

End PyPath.

(** ** Configuration (lines 21-38) *)

(** The values of the environment variables that the modelled code uses
    as paths. *)
Record Config := {
  SFTP_DIR : string;
  LOCAL_DIR : string;
  SERVER_DIR : string;
  LOG_FILE : string;
  LAST_FILE_RECORD : string
}.

Definition CHUNK_SIZE : Z := 2 * 1024 * 1024.
Definition MAX_RETRIES : nat := 7.
Definition RETRY_BACKOFF : list Z := [5; 10; 30; 60; 120; 300; 600].
Definition KEEPALIVE_INTERVAL : Z := 15.

(** [f"{dir}/{name}"]: the path of a remote file (line 215) *)
Definition path_join (dir name : string) : string :=
  (dir ++ "/" ++ name)%string.

(** The module-level [LAST_FILE_RECORD] and [LOG_FILE]: [Path(...)] of the
    setting (lines 30-31), as the string that [open] is given. *)
Definition record_file (cfg : Config) : string :=
  PyPath.str (LAST_FILE_RECORD cfg).
Definition log_file (cfg : Config) : string := PyPath.str (LOG_FILE cfg).

(** [LOCAL_DIR / name] (line 216) and [SERVER_DIR / name] (line 228) *)
Definition local_file (cfg : Config) (name : string) : string :=
  PyPath.div (LOCAL_DIR cfg) name.
Definition server_file (cfg : Config) (name : string) : string :=
  PyPath.div (SERVER_DIR cfg) name.

(** ** Exceptions, operations, events *)

Inductive exn :=
| SSHException (msg : string)
| EOFError
| IOError (msg : string)        (* [OSError] and its aliases *)
| ZeroDivisionError
| TypeError
| AttributeError
| IndexError.

(** The calls whose outcome is decided outside the program. *)
Inductive Op :=
| OpTransport        (* [paramiko.Transport((host, port))] *)
| OpAuth             (* [transport.connect(username, password)] *)
| OpSftpClient       (* [SFTPClient.from_transport] *)
| OpChdir            (* [sftp.chdir] *)
| OpSetsockopt       (* [sock.setsockopt] *)
| OpSftpClose        (* [sftp.close] *)
| OpTransportClose   (* [transport.close] *)
| OpSendIgnore       (* [transport.send_ignore] *)
| OpStat             (* [sftp.stat] *)
| OpRemoteOpen       (* [sftp.file(path, 'rb')] *)
| OpRead             (* [remote_file.read] *)
| OpListdir          (* [sftp.listdir] *)
| OpRecordRead       (* [open(LAST_FILE_RECORD, 'r')] and [read] *)
| OpRecordOpen       (* [open(LAST_FILE_RECORD, 'w')] *)
| OpRecordWrite      (* [f.write(remote_file)] and the closing flush *)
| OpMakedirsLocal    (* [os.makedirs(LOCAL_DIR)] *)
| OpMakedirsServer   (* [os.makedirs(SERVER_DIR)] *)
| OpCopy             (* [shutil.copy2] *)
| OpLocalOpen        (* [open(local_path, mode)] *)
| OpLocalWrite.      (* [local_file.write] *)

Inductive LogLine :=
| LogBanner
| LogKeepaliveUnix
| LogKeepaliveWindows
| LogUnknownPlatform (name : string)
| LogTargetSize (size : Z)
| LogAlreadyComplete
| LogResumePoint (offset : Z)
| LogProgress (position : Z)
| LogChunkFailed (e : exn)
| LogVerified
| LogTransferFailed (position : Z) (e : exn)
| LogAttempt (number : nat)
| LogNoMatching
| LogNoNew
| LogMission
| LogSynced (file : string)
| LogSyncFailed (e : exn)
| LogAttemptFailed (number : nat) (e : exn)
| LogRetrying (delay : Z)
| LogOperationFailed (last_error : option exn).

Inductive Event :=
| EvCall (op : Op) (raised : option exn)   (* an operation and what it raised *)
| EvClock (t : Q)                          (* [time.time()] returned [t] *)
| EvSleep (delay : Z)                      (* [time.sleep(delay)] *)
| EvLog (line : LogLine)
| EvClose.                                 (* [close()] was entered *)

(** ** The surroundings *)

Record Env := {
  (** does the [n]-th interaction, being [op], raise? *)
  env_fault : Op -> nat -> option exn;
  (** content of a remote file at the time of the [n]-th interaction *)
  env_remote : nat -> string -> string;
  (** names in the remote directory at the time of the [n]-th interaction *)
  env_listdir : nat -> list string;
  (** the wall clock read at the [n]-th interaction, in seconds *)
  env_clock : nat -> Q;
  (** [platform.system()] *)
  env_platform : string
}.

(** ** Program state *)

Record Transport := {
  window_size : Z;
  rekey_bytes : Z;
  compression : bool;
  keepalive : Z;
  active : bool
}.

Inductive Channel := ChanOpen | ChanClosed.

(** The fields of [MilitaryGradeSFTP]. *)
Record Engine := {
  transport : option Transport;
  sftp : option Channel;
  last_byte : Z;
  file_size : Z;
  retry_count : Z
}.

Record World := {
  w_eng : Engine;
  w_fs : gmap string string;   (* local files *)
  w_tick : nat;                (* interactions so far *)
  w_trace : list Event         (* oldest first *)
}.

(** [MilitaryGradeSFTP.__init__] *)
Definition new_engine : Engine :=
  {| transport := None; sftp := None; last_byte := 0; file_size := 0;
     retry_count := 0 |}.

Definition with_transport (t : option Transport) (e : Engine) : Engine :=
  {| transport := t; sftp := sftp e; last_byte := last_byte e;
     file_size := file_size e; retry_count := retry_count e |}.
Definition with_sftp (s : option Channel) (e : Engine) : Engine :=
  {| transport := transport e; sftp := s; last_byte := last_byte e;
     file_size := file_size e; retry_count := retry_count e |}.
Definition with_last_byte (n : Z) (e : Engine) : Engine :=
  {| transport := transport e; sftp := sftp e; last_byte := n;
     file_size := file_size e; retry_count := retry_count e |}.
Definition with_file_size (n : Z) (e : Engine) : Engine :=
  {| transport := transport e; sftp := sftp e; last_byte := last_byte e;
     file_size := n; retry_count := retry_count e |}.

Definition with_eng (f : Engine -> Engine) (w : World) : World :=
  {| w_eng := f (w_eng w); w_fs := w_fs w; w_tick := w_tick w;
     w_trace := w_trace w |}.
Definition with_fs (f : gmap string string -> gmap string string) (w : World)
  : World :=
  {| w_eng := w_eng w; w_fs := f (w_fs w); w_tick := w_tick w;
     w_trace := w_trace w |}.
Definition with_event (ev : Event) (w : World) : World :=
  {| w_eng := w_eng w; w_fs := w_fs w; w_tick := w_tick w;
     w_trace := w_trace w ++ [ev] |}.
Definition with_tick (w : World) : World :=
  {| w_eng := w_eng w; w_fs := w_fs w; w_tick := S (w_tick w);
     w_trace := w_trace w |}.

(** The world in which the program starts: the given local files, nothing
    asked yet, nothing observed yet. *)
Definition initial_world (files : gmap string string) : World :=
  {| w_eng := new_engine; w_fs := files; w_tick := 0%nat; w_trace := [] |}.

(** ** The monad of code that may raise *)

Inductive Res (A : Type) :=
| Ok (a : A)
| Raise (e : exn).
Arguments Ok {A} a.
Arguments Raise {A} e.

Definition M (A : Type) : Type := World -> Res A * World.

Definition ret {A} (a : A) : M A := fun w => (Ok a, w).

Definition raise {A} (e : exn) : M A := fun w => (Raise e, w).

Definition bind {A B} (m : M A) (k : A -> M B) : M B :=
  fun w =>
    match m w with
    | (Ok a, w') => k a w'
    | (Raise e, w') => (Raise e, w')
    end.

(** [try: m  except <those e with catches e>: h e] *)
Definition try_except {A} (catches : exn -> bool) (m : M A) (h : exn -> M A)
  : M A :=
  fun w =>
    match m w with
    | (Ok a, w') => (Ok a, w')
    | (Raise e, w') => if catches e then h e w' else (Raise e, w')
    end.

(** [try: m  finally: f]; an exception of [f] replaces the outcome of [m]. *)
Definition try_finally {A} (m : M A) (f : M unit) : M A :=
  fun w =>
    let (r, w1) := m w in
    match f w1 with
    | (Ok _, w2) => (r, w2)
    | (Raise e, w2) => (Raise e, w2)
    end.

(** Every exception of the model is an [Exception]: a bare [except:] and
    [except Exception] catch the same. *)
Definition any_exception (e : exn) : bool := true.

Declare Scope m_scope.
Delimit Scope m_scope with M.
Bind Scope m_scope with M.
Notation "x <- m ;; k" := (bind m (fun x => k))
  (at level 100, m at next level, k at level 200, right associativity)
  : m_scope.
Notation "m ;; k" := (bind m (fun _ => k))
  (at level 100, k at level 200, right associativity) : m_scope.
Local Open Scope m_scope.

Definition get_eng : M Engine := fun w => (Ok (w_eng w), w).
Definition get_fs : M (gmap string string) := fun w => (Ok (w_fs w), w).
Definition update_eng (f : Engine -> Engine) : M unit :=
  fun w => (Ok tt, with_eng f w).
Definition update_fs (f : gmap string string -> gmap string string) : M unit :=
  fun w => (Ok tt, with_fs f w).
Definition emit (ev : Event) : M unit := fun w => (Ok tt, with_event ev w).
(** [logger.info], [logger.warning], [logger.error]: a line appended to
    the log, that is to the console and to the file [LOG_FILE]. *)
Definition log (line : LogLine) : M unit := emit (EvLog line).
(** [time.sleep(delay)] *)
Definition sleep (delay : Z) : M unit := emit (EvSleep delay).

(** [t % m == 0] for a clock reading [t] (a float, hence a rational) and a
    positive whole number of seconds [m]: the remainder of the division is
    exact, so it is zero exactly when [t] is a whole multiple of [m]. *)
Definition time_mod_is_zero (t : Q) (m : Z) : bool :=
  (Qnum t mod (m * Zpos (Qden t)) =? 0)%Z.

Definition is_ssh_or_eof (e : exn) : bool :=
  match e with
  | SSHException _ | EOFError => true
  | _ => false
  end.

(** What one pass through the body of the [while] loop leaves behind. *)
Inductive LoopCtl :=
| Continue (pos : Z)   (* go round again; [pos] is the remote read position *)
| Break.

(** How [main] can end. *)
Inductive Exit :=
| ExitNoMatching                       (* line 197 *)
| ExitNothingNew                       (* line 211 *)
| ExitDone (file : string)             (* line 233 *)
| ExitExhausted (last_error : option exn).   (* line 246 *)

(** What one iteration of the [for] loop of [main] has done. *)
Inductive AttemptResult :=
| Returned (x : Exit)     (* a [return] inside the [try] *)
| Completed               (* the [try] body ran to its end *)
| Failed (e : exn).       (* the [except] clause ran *)

Inductive OpenMode := ModeAppend | ModeWrite.

Section Program.

Variable cfg : Config.
Variable env : Env.

(** Perform [op]: the surroundings decide whether it raises.  Returns the
    index of the interaction, at which the data it yields is looked up. *)
Definition ask (op : Op) : M nat :=
  fun w =>
    let n := w_tick w in
    let r := env_fault env op n in
    let w' := with_event (EvCall op r) (with_tick w) in
    match r with
    | Some e => (Raise e, w')
    | None => (Ok n, w')
    end.

(** [time.time()] *)
Definition clock : M Q :=
  fun w =>
    let t := env_clock env (w_tick w) in
    (Ok t, with_event (EvClock t) (with_tick w)).

(** *** [MilitaryGradeSFTP.connect] (lines 61-89) *)

Definition on_transport (f : Transport -> Transport) : M unit :=
  e <- get_eng ;;
  match transport e with
  | Some t => update_eng (with_transport (Some (f t)))
  | None => raise AttributeError
  end.

Definition connect : M unit :=
  ask OpTransport ;;
  update_eng (with_transport (Some
    {| window_size := 0; rekey_bytes := 0; compression := false;
       keepalive := 0; active := false |})) ;;
  on_transport (fun t =>
    {| window_size := 16 * 1024 * 1024;
       rekey_bytes := 512 * 1024 * 1024;
       compression := true;
       keepalive := keepalive t; active := active t |}) ;;
  ask OpAuth ;;
  on_transport (fun t =>
    {| window_size := window_size t; rekey_bytes := rekey_bytes t;
       compression := compression t;
       keepalive := KEEPALIVE_INTERVAL; active := true |}) ;;
  ask OpSftpClient ;;
  update_eng (with_sftp (Some ChanOpen)) ;;
  ask OpChdir ;;
  ask OpSetsockopt ;;
  let system_platform := env_platform env in
  if String.eqb system_platform "Linux" || String.eqb system_platform "Darwin"
  then
    ask OpSetsockopt ;;
    ask OpSetsockopt ;;
    ask OpSetsockopt ;;
    log LogKeepaliveUnix
  else if String.eqb system_platform "Windows"
  then log LogKeepaliveWindows
  else log (LogUnknownPlatform system_platform).

(** *** [MilitaryGradeSFTP.close] (lines 91-102) *)

Definition close : M unit :=
  emit EvClose ;;
  try_except any_exception
    (e <- get_eng ;;
     match sftp e with
     | Some _ => ask OpSftpClose ;; update_eng (with_sftp (Some ChanClosed))
     | None => ret tt
     end)
    (fun _ => ret tt) ;;
  try_except any_exception
    (e <- get_eng ;;
     match transport e with
     | Some t =>
         ask OpTransportClose ;;
         update_eng (with_transport (Some
           {| window_size := window_size t; rekey_bytes := rekey_bytes t;
              compression := compression t; keepalive := keepalive t;
              active := false |}))
     | None => ret tt
     end)
    (fun _ => ret tt).

(** *** [MilitaryGradeSFTP.verify_connection] (lines 104-111) *)

Definition verify_connection : M bool :=
  try_except any_exception
    (e <- get_eng ;;
     match transport e with
     | Some _ => ask OpSendIgnore ;; ret true
     | None => raise AttributeError
     end)
    (fun _ => ret false).

(** *** [MilitaryGradeSFTP.download_with_armor] (lines 113-171) *)

(** A method call on [self.sftp]. *)
Definition sftp_call (op : Op) : M nat :=
  e <- get_eng ;;
  match sftp e with
  | Some _ => ask op
  | None => raise AttributeError
  end.

(** [os.path.getsize(path) if os.path.exists(path) else 0] *)
Definition size_or_zero (path : string) : M Z :=
  fs <- get_fs ;;
  match fs !! path with
  | Some content => ret (PyStr.len content)
  | None => ret 0
  end.

(** [os.path.getsize(path)] *)
Definition getsize (path : string) : M Z :=
  fs <- get_fs ;;
  match fs !! path with
  | Some content => ret (PyStr.len content)
  | None => raise (IOError "No such file or directory")
  end.

(** [open(path, mode)]: ['wb'] creates or truncates, ['ab'] creates. *)
Definition local_open (path : string) (mode : OpenMode) : M unit :=
  ask OpLocalOpen ;;
  update_fs (fun fs =>
    match mode, fs !! path with
    | ModeAppend, Some _ => fs
    | _, _ => <[path := EmptyString]> fs
    end).

(** [local_file.write(chunk)].  The chunk is taken to be in the file at
    once; the code writes through a buffer, which reaches the file at the
    latest when the file is closed. *)
Definition local_write (path chunk : string) : M unit :=
  ask OpLocalWrite ;;
  update_fs (fun fs =>
    <[path := (default EmptyString (fs !! path) ++ chunk)%string]> fs).

(** Line 137: the connection watchdog. *)
Definition watchdog : M unit :=
  t <- clock ;;
  if time_mod_is_zero t 10 then
    alive <- verify_connection ;;
    if alive then ret tt
    else raise (SSHException "Connection watchdog triggered")
  else ret tt.

(** Lines 148-156: progress reporting after a chunk of length [n]. *)
Definition report_progress (n : Z) : M unit :=
  t <- clock ;;
  if time_mod_is_zero t 30 then
    e <- get_eng ;;
    (if file_size e =? 0 then raise ZeroDivisionError else ret tt) ;;
    t' <- clock ;;
    (if time_mod_is_zero t' 30 then raise ZeroDivisionError else ret tt) ;;
    log (LogProgress (last_byte e))
  else ret tt.

(** Lines 141-156: the body of the inner [try], with the remote handle
    positioned at [pos]. *)
Definition read_and_store (remote_path local_path : string) (pos : Z)
  : M LoopCtl :=
  n <- ask OpRead ;;
  let chunk :=
    PyStr.take CHUNK_SIZE (PyStr.drop pos (env_remote env n remote_path)) in
  match chunk with
  | EmptyString => ret Break
  | _ =>
      local_write local_path chunk ;;
      update_eng (fun e => with_last_byte (last_byte e + PyStr.len chunk) e) ;;
      report_progress (PyStr.len chunk) ;;
      ret (Continue (pos + PyStr.len chunk))
  end.

(** Lines 136-160: one pass through the body of the [while] loop. *)
Definition chunk_step (remote_path local_path : string) (pos : Z)
  : M LoopCtl :=
  watchdog ;;
  try_except is_ssh_or_eof
    (read_and_store remote_path local_path pos)
    (fun e => log (LogChunkFailed e) ;; raise e).

(** Line 135: [while self.last_byte < self.file_size].  Every pass that
    goes round again has added at least one byte, so
    [file_size - last_byte] passes are enough: [fuel] is that bound. *)
Fixpoint chunk_loop (fuel : nat) (remote_path local_path : string) (pos : Z)
  : M unit :=
  match fuel with
  | O => ret tt
  | S fuel' =>
      e <- get_eng ;;
      if last_byte e <? file_size e then
        c <- chunk_step remote_path local_path pos ;;
        match c with
        | Continue pos' => chunk_loop fuel' remote_path local_path pos'
        | Break => ret tt
        end
      else ret tt
  end.

(** Lines 116-134: everything before the [while] loop.  [None] is the
    [return True] of line 126 (already complete); [Some pos] is reaching
    the loop with both files open and the remote handle at [pos]. *)
Definition start_transfer (remote_path local_path : string)
  : M (option Z) :=
  n <- sftp_call OpStat ;;
  update_eng (with_file_size (PyStr.len (env_remote env n remote_path))) ;;
  e <- get_eng ;;
  log (LogTargetSize (file_size e)) ;;
  resume <- size_or_zero local_path ;;
  update_eng (with_last_byte resume) ;;
  e <- get_eng ;;
  let mode := if 0 <? last_byte e then ModeAppend else ModeWrite in
  if file_size e <=? last_byte e then
    log LogAlreadyComplete ;;
    ret None
  else
    log (LogResumePoint (last_byte e)) ;;
    sftp_call OpRemoteOpen ;;
    let pos := if 0 <? last_byte e then last_byte e else 0 in
    local_open local_path mode ;;
    ret (Some pos).

(** Lines 162-167: the final verification. *)
Definition verify_size (local_path : string) : M bool :=
  size <- getsize local_path ;;
  e <- get_eng ;;
  if size =? file_size e then
    log LogVerified ;;
    ret true
  else raise (IOError "Final size verification failed").

(** Lines 135-160: the [while] loop, entered with the remote handle at
    [pos]. *)
Definition transfer_chunks (remote_path local_path : string) (pos : Z)
  : M unit :=
  e <- get_eng ;;
  chunk_loop (Z.to_nat (file_size e - last_byte e)) remote_path local_path pos.

(** Lines 169-171: [except Exception as e]. *)
Definition transfer_failed (e : exn) : M bool :=
  eng <- get_eng ;;
  log (LogTransferFailed (last_byte eng) e) ;;
  raise e.

Definition download_with_armor (remote_path local_path : string) : M bool :=
  try_except any_exception
    (started <- start_transfer remote_path local_path ;;
     match started with
     | None => ret true
     | Some pos =>
         transfer_chunks remote_path local_path pos ;;
         verify_size local_path
     end)
    transfer_failed.

(** *** [main] (lines 173-246) *)

(** Lines 183-191: [last_date_str]. *)
Definition read_last_date : M (option (list N)) :=
  fs <- get_fs ;;
  match fs !! record_file cfg with
  | Some content =>
      ask OpRecordRead ;;
      ret (last_date_of (Some content))
  | None => ret None
  end.

(** Lines 222-223: [with open(LAST_FILE_RECORD, 'w') as f: f.write(name)]. *)
Definition write_record (remote_file : string) : M unit :=
  ask OpRecordOpen ;;
  update_fs (insert (record_file cfg) EmptyString) ;;
  ask OpRecordWrite ;;
  update_fs (insert (record_file cfg) remote_file).

(** Lines 226-232: the copy to the server directory, in its own [try]. *)
Definition sync_to_server (remote_file local_path : string) : M unit :=
  try_except any_exception
    (ask OpMakedirsServer ;;
     let dest_path := server_file cfg remote_file in
     ask OpCopy ;;
     fs <- get_fs ;;
     match fs !! local_path with
     | Some content =>
         update_fs (insert dest_path content) ;;
         log (LogSynced remote_file)
     | None => raise (IOError "No such file or directory")
     end)
    (fun e => log (LogSyncFailed e)).

(** Lines 183-214: which remote file to fetch, or the [return] that ends
    the run when there is none. *)
Definition select_remote_file : M (Exit + string) :=
  last_date_str <- read_last_date ;;
  n <- sftp_call OpListdir ;;
  let files := ipi_files (env_listdir env n) in
  match files with
  | [] => log LogNoMatching ;; ret (inl ExitNoMatching)
  | _ =>
      match filtered_files last_date_str files with
      | [] => log LogNoNew ;; ret (inl ExitNothingNew)
      | first :: rest =>
          match min_by_date first rest with
          | Some remote_file => ret (inr remote_file)
          | None => raise TypeError
          end
      end
  end.

(** Lines 221-233: what follows a download that returned true. *)
Definition record_and_sync (remote_file local_path : string) : M Exit :=
  write_record remote_file ;;
  log LogMission ;;
  sync_to_server remote_file local_path ;;
  ret (ExitDone remote_file).

(** Lines 215-233: fetching the selected file. *)
Definition fetch (remote_file : string) : M (option Exit) :=
  let remote_path := path_join (SFTP_DIR cfg) remote_file in
  let local_path := local_file cfg remote_file in
  ask OpMakedirsLocal ;;
  ok <- download_with_armor remote_path local_path ;;
  if (ok : bool) then
    x <- record_and_sync remote_file local_path ;;
    ret (Some x)
  else ret None.

(** Lines 180-233: the body of the [try] of one attempt.  [Some x] is a
    [return]; [None] is reaching the end of the body. *)
Definition attempt_body (attempt : nat) : M (option Exit) :=
  log (LogAttempt (attempt + 1)) ;;
  connect ;;
  selected <- select_remote_file ;;
  match selected with
  | inl x => ret (Some x)
  | inr remote_file => fetch remote_file
  end.

(** Lines 235-242: the [except Exception as e] clause of attempt number
    [attempt] (counted from 0). *)
Definition on_failure (attempt : nat) (e : exn) : M AttemptResult :=
  log (LogAttemptFailed (attempt + 1) e) ;;
  (if (attempt <? MAX_RETRIES - 1)%nat then
     match RETRY_BACKOFF !! attempt with
     | Some delay => log (LogRetrying delay) ;; sleep delay
     | None => raise IndexError
     end
   else ret tt) ;;
  ret (Failed e).

(** Lines 179-244: one iteration of the [for] loop, that is the whole
    [try] / [except] / [finally] statement. *)
Definition run_attempt (attempt : nat) : M AttemptResult :=
  try_finally
    (try_except any_exception
       (r <- attempt_body attempt ;;
        match r with
        | Some x => ret (Returned x)
        | None => ret Completed
        end)
       (on_failure attempt))
    close.

(** Lines 178-246: the [for] loop over the remaining attempt numbers and
    what follows it. *)
Fixpoint attempts (todo : list nat) (last_error : option exn) : M Exit :=
  match todo with
  | [] =>
      log (LogOperationFailed last_error) ;;
      ret (ExitExhausted last_error)
  | attempt :: todo' =>
      r <- run_attempt attempt ;;
      match r with
      | Returned x => ret x
      | Completed => attempts todo' last_error
      | Failed e => attempts todo' (Some e)
      end
  end.

Definition main : M Exit :=
  log LogBanner ;;
  update_eng (fun _ => new_engine) ;;
  attempts (seq 0 MAX_RETRIES) None.

End Program.

(** * Vocabulary of the specification *)

(** [m] only ever appends to the trace, and what it appends satisfies [P]. *)
Definition emits {A} (P : Event -> Prop) (m : M A) : Prop :=
  forall w r w', m w = (r, w') ->
    exists evs, w_trace w' = w_trace w ++ evs /\ Forall P evs.

(** [m] does not raise. *)
Definition never_raises {A} (m : M A) : Prop :=
  forall w, exists a w', m w = (Ok a, w').

(** The requests [close()] sends. *)
Definition close_op (ev : Event) : bool :=
  match ev with
  | EvCall OpSftpClose _ | EvCall OpTransportClose _ => true
  | _ => false
  end.

(** Events of the body of an attempt: everything except what the retry
    loop itself and [close()] emit. *)
Definition body_event (ev : Event) : bool :=
  match ev with
  | EvLog LogBanner | EvLog (LogAttempt _) | EvLog (LogAttemptFailed _ _)
  | EvLog (LogRetrying _) | EvLog (LogOperationFailed _)
  | EvSleep _ | EvClose
  | EvCall OpSftpClose _ | EvCall OpTransportClose _ => false
  | _ => true
  end.

(** What the [except] clause of attempt [attempt] (counted from 0) emits
    for the exception [e]. *)
Definition failure_events (attempt : nat) (e : exn) : list Event :=
  EvLog (LogAttemptFailed (attempt + 1) e)
  :: (if (attempt <? MAX_RETRIES - 1)%nat then
        match RETRY_BACKOFF !! attempt with
        | Some delay => [EvLog (LogRetrying delay); EvSleep delay]
        | None => []
        end
      else []).

Definition handler_events (attempt : nat) (r : AttemptResult) : list Event :=
  match r with
  | Failed e => failure_events attempt e
  | _ => []
  end.

(** Whatever [m] does, the world it leaves is related by [R] to the world it
    was started in. *)
Definition respects {A} (R : World -> World -> Prop) (m : M A) : Prop :=
  forall w r w', m w = (r, w') -> R w w'.

(** Relations between worlds that hold across any number of steps and do
    not look at the trace or the interaction counter. *)
Record world_preorder (R : World -> World -> Prop) : Prop := {
  wp_refl : forall w, R w w;
  wp_trans : forall a b c, R a b -> R b c -> R a c;
  wp_event : forall w ev, R w (with_event ev w);
  wp_tick : forall w, R w (with_tick w)
}.

Definition same_eng (w w' : World) : Prop := w_eng w' = w_eng w.

(** Files other than [path] are untouched, and no file disappears. *)
Definition fs_only_at (path : string) (w w' : World) : Prop :=
  (forall p, p <> path -> w_fs w' !! p = w_fs w !! p)
  /\ (forall p, is_Some (w_fs w !! p) -> is_Some (w_fs w' !! p)).

(** What a pass of the chunk loop does to the engine: nothing, or
    [last_byte] advanced by the length of the non-empty chunk read at
    [pos]. *)
Definition pass_effect (env : Env) (remote_path : string) (pos : Z)
  (w : World) (r : Res LoopCtl) (w' : World) : Prop :=
  (w_eng w' = w_eng w /\ (r = Ok Break \/ exists e, r = Raise e))
  \/ (exists n chunk,
        chunk = PyStr.take CHUNK_SIZE
                  (PyStr.drop pos (env_remote env n remote_path))
        /\ 0 < PyStr.len chunk
        /\ w_eng w'
           = with_last_byte (last_byte (w_eng w) + PyStr.len chunk) (w_eng w)
        /\ (r = Ok (Continue (pos + PyStr.len chunk)) \/ exists e, r = Raise e)).

(** The states at the head of the [while] loop that a transfer started in
    [s] passes through: [s] itself, and the state after every pass that was
    entered and went round again. *)
Inductive loop_reaches (env : Env) (remote_path local_path : string)
  (s : Z * World) : Z * World -> Prop :=
| reach_start : loop_reaches env remote_path local_path s s
| reach_pass pos w pos' w' :
    loop_reaches env remote_path local_path s (pos, w) ->
    last_byte (w_eng w) < file_size (w_eng w) ->
    chunk_step env remote_path local_path pos w = (Ok (Continue pos'), w') ->
    loop_reaches env remote_path local_path s (pos', w').

(** Lines 180-214: an attempt up to the choice of the file to fetch. *)
Definition reach_fetch (cfg : Config) (env : Env) (attempt : nat)
  : M (Exit + string) :=
  (log (LogAttempt (attempt + 1)) ;;
   connect env ;;
   select_remote_file cfg env)%M.

(** [os.path.getsize(path) if os.path.exists(path) else 0] in world [w]. *)
Definition local_size (path : string) (w : World) : Z :=
  match w_fs w !! path with
  | Some content => PyStr.len content
  | None => 0
  end.

(** ** Concrete surroundings used to exercise the statements *)

Module Examples.

Definition cfg : Config :=
  {| SFTP_DIR := "/remote"; LOCAL_DIR := "/local"; SERVER_DIR := "/server";
     LOG_FILE := "/var/log/sftp_downloader.log";
     LAST_FILE_RECORD := "/state/last_file.txt" |}.

(** Nothing fails; the remote directory holds three names, every remote
    file holds ten bytes; the clock is never on a whole second. *)
Definition quiet : Env :=
  {| env_fault := fun _ _ => None;
     env_remote := fun _ _ => "0123456789";
     env_listdir := fun _ => ["20250101.IPI"; "20250102.IPI"; "bad.IPI"];
     env_clock := fun _ => (1 # 2)%Q;
     env_platform := "Linux" |}.

Definition with_fault (f : Op -> nat -> option exn) (e : Env) : Env :=
  {| env_fault := f; env_remote := env_remote e;
     env_listdir := env_listdir e; env_clock := env_clock e;
     env_platform := env_platform e |}.

Definition with_remote (f : nat -> string -> string) (e : Env) : Env :=
  {| env_fault := env_fault e; env_remote := f;
     env_listdir := env_listdir e; env_clock := env_clock e;
     env_platform := env_platform e |}.

Definition with_clock (f : nat -> Q) (e : Env) : Env :=
  {| env_fault := env_fault e; env_remote := env_remote e;
     env_listdir := env_listdir e; env_clock := f;
     env_platform := env_platform e |}.

(** A world in which [connect] has succeeded, with the given local files. *)
Definition connected (files : gmap string string) : World :=
  {| w_eng :=
       {| transport := Some {| window_size := 16 * 1024 * 1024;
                               rekey_bytes := 512 * 1024 * 1024;
                               compression := true;
                               keepalive := KEEPALIVE_INTERVAL;
                               active := true |};
          sftp := Some ChanOpen;
          last_byte := 0; file_size := 0; retry_count := 0 |};
     w_fs := files; w_tick := 0%nat; w_trace := [] |}.

(** The record names the first file of the directory. *)
Definition recorded : gmap string string :=
  {[ "/state/last_file.txt" := "20250101.IPI" ]}.

(** The remote file holds ten bytes when [stat] looks at it and twenty from
    then on (it is still being uploaded). *)
Definition growing : Env :=
  with_remote
    (fun n _ => if (n <? 1)%nat then "0123456789" else "0123456789ABCDEFGHIJ")
    quiet.

(** The remote file holds ten bytes when [stat] looks at it and five from
    then on (it has been cut short). *)
Definition shrinking : Env :=
  with_remote (fun n _ => if (n <? 1)%nat then "0123456789" else "01234")
    quiet.

(** The clock reads 10 s at every reading while the remote file is cut
    short after [stat]. *)
Definition frozen_at_10 : Env :=
  with_clock (fun _ => (10 # 1)%Q) shrinking.

(** The clock reads a multiple of 30 s at every reading. *)
Definition frozen_at_30 : Env :=
  with_clock (fun _ => (1800000000 # 1)%Q) quiet.

(** [stat] fails in every attempt. *)
Definition stat_fails : Env :=
  with_fault
    (fun op _ => match op with
                 | OpStat => Some (IOError "Failure")
                 | _ => None
                 end)
    quiet.

(** The record file cannot be opened for writing. *)
Definition record_locked : Env :=
  with_fault
    (fun op _ => match op with
                 | OpRecordOpen => Some (IOError "Permission denied")
                 | _ => None
                 end)
    quiet.

(** The copy to the server directory fails. *)
Definition copy_fails : Env :=
  with_fault
    (fun op _ => match op with
                 | OpCopy => Some (IOError "No space left on device")
                 | _ => None
                 end)
    quiet.

(** The remote file holds ten bytes up to and including the [stat] of the
    first attempt of a run (its twelfth interaction) and five afterwards. *)
Definition cut_after_stat : Env :=
  with_remote
    (fun n _ => if (n <? 12)%nat then "0123456789" else "01234")
    quiet.

End Examples.

(** The liveness probe. *)
Definition is_probe (ev : Event) : bool :=
  match ev with
  | EvCall OpSendIgnore _ => true
  | _ => false
  end.

(** The clock readings at which a probe was made: a probe directly follows
    the reading of the clock that let it through. *)
Fixpoint probe_times (evs : list Event) : list Q :=
  match evs with
  | [] => []
  | EvClock t :: rest =>
      match rest with
      | EvCall OpSendIgnore _ :: _ => t :: probe_times rest
      | _ => probe_times rest
      end
  | _ :: rest => probe_times rest
  end.

(** ** Kinds of events, by the part of an attempt that emits them *)

Definition connect_event (ev : Event) : bool :=
  match ev with
  | EvCall OpTransport _ | EvCall OpAuth _ | EvCall OpSftpClient _
  | EvCall OpChdir _ | EvCall OpSetsockopt _
  | EvLog LogKeepaliveUnix | EvLog LogKeepaliveWindows
  | EvLog (LogUnknownPlatform _) => true
  | _ => false
  end.

Definition record_read (ev : Event) : bool :=
  match ev with
  | EvCall OpRecordRead _ => true
  | _ => false
  end.

Definition record_write (ev : Event) : bool :=
  match ev with
  | EvCall OpRecordOpen _ | EvCall OpRecordWrite _ => true
  | _ => false
  end.

Definition listing_event (ev : Event) : bool :=
  match ev with
  | EvCall OpListdir _ | EvLog LogNoMatching | EvLog LogNoNew => true
  | _ => false
  end.

Definition download_event (ev : Event) : bool :=
  match ev with
  | EvCall OpMakedirsLocal _ | EvCall OpStat _ | EvCall OpRemoteOpen _
  | EvCall OpRead _ | EvCall OpSendIgnore _ | EvCall OpLocalOpen _
  | EvCall OpLocalWrite _ | EvClock _
  | EvLog (LogTargetSize _) | EvLog LogAlreadyComplete
  | EvLog (LogResumePoint _) | EvLog (LogProgress _)
  | EvLog (LogChunkFailed _) | EvLog LogVerified
  | EvLog (LogTransferFailed _ _) => true
  | _ => false
  end.

Definition sync_event (ev : Event) : bool :=
  match ev with
  | EvLog LogMission | EvCall OpMakedirsServer _ | EvCall OpCopy _
  | EvLog (LogSynced _) | EvLog (LogSyncFailed _) => true
  | _ => false
  end.

(** The two log lines with which [download_with_armor] returns true. *)
Definition download_succeeded (ev : Event) : bool :=
  match ev with
  | EvLog LogVerified | EvLog LogAlreadyComplete => true
  | _ => false
  end.

(** ** The shape of a run *)

(** What [run_attempt] makes of the outcome of the body of the [try]. *)
Definition result_of (r : Res (option Exit)) : AttemptResult :=
  match r with
  | Ok (Some x) => Returned x
  | Ok None => Completed
  | Raise e => Failed e
  end.

(** The events of the body of one attempt, by its parts in the order of the
    code: connecting, reading the record, listing and choosing, downloading,
    writing the record, copying to the server directory.  The record is
    written only directly after a download that returned true, and the
    attempt returns only when that write went through. *)
Definition body_shape (res : AttemptResult) (body : list Event) : Prop :=
  exists conn reads listing fetched written synced,
    body = conn ++ reads ++ listing ++ fetched ++ written ++ synced
    /\ Forall (fun ev => connect_event ev = true) conn
    /\ (reads = [] \/ exists r, reads = [EvCall OpRecordRead r])
    /\ Forall (fun ev => listing_event ev = true) listing
    /\ Forall (fun ev => download_event ev = true) fetched
    /\ Forall (fun ev => sync_event ev = true) synced
    /\ ((written = [] /\ synced = []
         /\ forall f, res <> Returned (ExitDone f))
        \/ ((exists pre ev,
               fetched = pre ++ [ev] /\ download_succeeded ev = true)
            /\ ((exists e,
                   written = [EvCall OpRecordOpen (Some e)]
                   /\ synced = [] /\ res = Failed e)
                \/ (exists e,
                      written = [EvCall OpRecordOpen None;
                                 EvCall OpRecordWrite (Some e)]
                      /\ synced = [] /\ res = Failed e)
                \/ (exists f,
                      written = [EvCall OpRecordOpen None;
                                 EvCall OpRecordWrite None]
                      /\ res = Returned (ExitDone f))))).

(** One attempt as the trace shows it. *)
Record AttemptTrace := {
  at_body : list Event;
  at_result : AttemptResult;
  at_close : list Event
}.

Definition attempt_events (attempt : nat) (a : AttemptTrace) : list Event :=
  EvLog (LogAttempt (attempt + 1))
  :: at_body a
  ++ handler_events attempt (at_result a)
  ++ EvClose :: at_close a.

(** The events of consecutive attempts, the first of them numbered
    [attempt] (counted from 0). *)
Fixpoint run_events (attempt : nat) (ats : list AttemptTrace) : list Event :=
  match ats with
  | [] => []
  | a :: rest => attempt_events attempt a ++ run_events (S attempt) rest
  end.

Definition well_formed_attempt (a : AttemptTrace) : Prop :=
  body_shape (at_result a) (at_body a)
  /\ Forall (fun ev => close_op ev = true) (at_close a)
  /\ at_result a <> Completed.

(** How a run of [n] attempts at most ends: with the first attempt that
    returns, or after [n] failed attempts with the last error. *)
Fixpoint run_ends (n : nat) (last_error : option exn)
  (ats : list AttemptTrace) (x : Exit) (ending : list Event) : Prop :=
  match n, ats with
  | O, [] =>
      x = ExitExhausted last_error
      /\ ending = [EvLog (LogOperationFailed last_error)]
  | S n', a :: rest =>
      match at_result a with
      | Returned y => rest = [] /\ x = y /\ ending = []
      | Failed e => run_ends n' (Some e) rest x ending
      | Completed => False
      end
  | _, _ => False
  end.

(** ** The retry schedule *)

(** The events by which the retry loop shows in the trace. *)
Definition is_schedule_event (ev : Event) : bool :=
  match ev with
  | EvLog (LogAttempt _) | EvLog (LogAttemptFailed _ _) | EvSleep _
  | EvLog (LogOperationFailed _) => true
  | _ => false
  end.

(** The schedule of consecutive failed attempts, the first of them numbered
    [attempt] (counted from 0), failing with [errs]: each is started, fails,
    and, unless it is the last attempt allowed, is followed by the sleep the
    backoff table gives for it. *)
Fixpoint failed_attempts (attempt : nat) (errs : list exn) : list Event :=
  match errs with
  | [] => []
  | e :: rest =>
      [EvLog (LogAttempt (attempt + 1));
       EvLog (LogAttemptFailed (attempt + 1) e)]
      ++ (if (attempt <? MAX_RETRIES - 1)%nat
          then [EvSleep (nth attempt RETRY_BACKOFF 0)] else [])
      ++ failed_attempts (S attempt) rest
  end.

(** The value of [last_error] after the failures [errs]. *)
Definition last_error_after (last_error : option exn) (errs : list exn)
  : option exn :=
  fold_left (fun _ e => Some e) errs last_error.

Definition is_attempt_or_close (ev : Event) : bool :=
  match ev with
  | EvLog (LogAttempt _) | EvClose => true
  | _ => false
  end.

(** A write of the record that went through. *)
Definition record_written (ev : Event) : bool :=
  match ev with
  | EvCall OpRecordWrite None => true
  | _ => false
  end.

(** ** Local file contents *)

(** What [path] holds in world [w]; nothing when there is no such file. *)
Definition local_content (path : string) (w : World) : string :=
  default EmptyString (w_fs w !! path).

(** The remote file [path] holds [data] whenever it is looked at. *)
Definition static_remote (env : Env) (path data : string) : Prop :=
  forall n, env_remote env n path = data.

(** [a] is the beginning of [b]: [b[:len(a)] == a]. *)
Definition starts (a b : string) : Prop := PyStr.take (PyStr.len a) b = a.

(** From interaction [t] on, no operation raises and the clock is never
    read on a whole multiple of 30 seconds. *)
Definition calm_from (env : Env) (t : nat) : Prop :=
  (forall op n, (t <= n)%nat -> env_fault env op n = None)
  /\ (forall n, (t <= n)%nat -> time_mod_is_zero (env_clock env n) 30 = false).

(** Both handles of the engine are set, as [connect] leaves them. *)
Definition handles_set (w : World) : Prop :=
  transport (w_eng w) <> None /\ sftp (w_eng w) <> None.

(** Only files whose path satisfies [ok] may have changed, and no file has
    disappeared. *)
Definition touches_only (ok : string -> Prop) (w w' : World) : Prop :=
  (forall p, ~ ok p -> w_fs w' !! p = w_fs w !! p)
  /\ (forall p, is_Some (w_fs w !! p) -> is_Some (w_fs w' !! p)).

(** The delays slept in a trace, in order. *)
Fixpoint sleeps (evs : list Event) : list Z :=
  match evs with
  | [] => []
  | EvSleep d :: rest => d :: sleeps rest
  | _ :: rest => sleeps rest
  end.

(** Engine and files (the log file apart) are as they were. *)
Definition same_state (w w' : World) : Prop :=
  w_eng w' = w_eng w /\ w_fs w' = w_fs w.

(** What a pass of the chunk loop does to the engine and to the local
    file: nothing, or the non-empty chunk read at [pos] appended to the
    file and [last_byte] advanced by its length. *)
Definition pass_content (env : Env) (remote_path local_path : string)
  (pos : Z) (w : World) (r : Res LoopCtl) (w' : World) : Prop :=
  (same_state w w' /\ (r = Ok Break \/ exists e, r = Raise e))
  \/ (exists n chunk,
        chunk = PyStr.take CHUNK_SIZE
                  (PyStr.drop pos (env_remote env n remote_path))
        /\ 0 < PyStr.len chunk
        /\ w_fs w'
           = <[local_path := (local_content local_path w ++ chunk)%string]>
               (w_fs w)
        /\ w_eng w'
           = with_last_byte (last_byte (w_eng w) + PyStr.len chunk) (w_eng w)
        /\ (r = Ok (Continue (pos + PyStr.len chunk)) \/ exists e, r = Raise e)).

(** How [download_with_armor] started in [w] can come to [(r, w')]: the
    part before the loop raised; the local file was already complete; the
    loop raised; the loop was left and the sizes were compared. *)
Definition download_path (env : Env) (remote_path local_path : string)
  (w : World) (r : Res bool) (w' : World) : Prop :=
  (exists e w0,
     start_transfer env remote_path local_path w = (Raise e, w0)
     /\ r = Raise e
     /\ w' = with_event (EvLog (LogTransferFailed (last_byte (w_eng w0)) e)) w0)
  \/ (start_transfer env remote_path local_path w = (Ok None, w')
      /\ r = Ok true)
  \/ (exists pos0 w0 w1,
        start_transfer env remote_path local_path w = (Ok (Some pos0), w0)
        /\ ((exists e,
               transfer_chunks env remote_path local_path pos0 w0
               = (Raise e, w1)
               /\ r = Raise e
               /\ w' = with_event
                         (EvLog (LogTransferFailed (last_byte (w_eng w1)) e))
                         w1)
            \/ (transfer_chunks env remote_path local_path pos0 w0
                = (Ok tt, w1)
                /\ (r, w')
                   = if local_size local_path w1 =? file_size (w_eng w1)
                     then (Ok true, with_event (EvLog LogVerified) w1)
                     else (Raise (IOError "Final size verification failed"),
                           with_event
                             (EvLog (LogTransferFailed (last_byte (w_eng w1))
                                (IOError "Final size verification failed")))
                             w1)))).

(** The interaction counter has not gone back. *)
Definition tick_le (w w' : World) : Prop := (w_tick w <= w_tick w')%nat.

(** At the head of the chunk loop of a download that found [c0] in the
    local file: the remote handle is at [last_byte], [last_byte] is the
    size of the local file, and the file holds [c0] and what was appended. *)
Definition tracks (local_path c0 : string) (pos : Z) (w : World) : Prop :=
  pos = last_byte (w_eng w)
  /\ last_byte (w_eng w) = PyStr.len (local_content local_path w)
  /\ is_Some (w_fs w !! local_path)
  /\ exists suffix, local_content local_path w = (c0 ++ suffix)%string.

(** At the head of the chunk loop, when the remote file holds [data]
    throughout: the local file followed by what the remote file holds from
    the read position on is [whole]. *)
Definition resumable (local_path data whole : string) (pos : Z) (w : World)
  : Prop :=
  pos = last_byte (w_eng w)
  /\ last_byte (w_eng w) = PyStr.len (local_content local_path w)
  /\ is_Some (w_fs w !! local_path)
  /\ (local_content local_path w ++ PyStr.drop pos data)%string = whole
  /\ pos <= PyStr.len data
  /\ file_size (w_eng w) = PyStr.len data.


(** The first read of a download started at interaction 0 is cut off;
    nothing fails from then on. *)
Definition read_fails_once : Env :=
  Examples.with_fault
    (fun op n => match op with
                 | OpRead => if (n <? 5)%nat then Some EOFError else None
                 | _ => None
                 end)
    Examples.quiet.

(** The transport as [connect] configures it. *)
Definition hardened : Transport :=
  {| window_size := 16 * 1024 * 1024;
     rekey_bytes := 512 * 1024 * 1024;
     compression := true;
     keepalive := KEEPALIVE_INTERVAL;
     active := true |}.

Definition is_setsockopt (ev : Event) : bool :=
  match ev with
  | EvCall OpSetsockopt _ => true
  | _ => false
  end.

(** The record file can be opened for writing, but writing to it fails. *)
Definition record_write_fails : Env :=
  Examples.with_fault
    (fun op _ => match op with
                 | OpRecordWrite => Some (IOError "No space left on device")
                 | _ => None
                 end)
    Examples.quiet.

(** A name that some listing of the remote directory held and that
    contains [IPI]. *)
Definition listed (env : Env) (f : string) : Prop :=
  exists n, In f (env_listdir env n) /\ PyStr.contains "IPI" f = true.

(** The paths a run may write besides the log file: the record file, and
    [LOCAL_DIR / f] and [SERVER_DIR / f] for a listed name [f]. *)
Definition run_path (cfg : Config) (env : Env) (p : string) : Prop :=
  p = record_file cfg
  \/ exists f, listed env f
               /\ (p = local_file cfg f \/ p = server_file cfg f).


(** ** Consecutive failures *)

(** The state in which [main] enters its retry loop when started in [w]. *)
Definition run_start (w : World) : World :=
  with_eng (fun _ => new_engine) (with_event (EvLog LogBanner) w).

(** The attempts numbered [k], [k+1], ... (counted from 0), as many as
    [errs] has entries, failed one after the other: each ran the body of
    its [try] from the state the one before had left, that body raised the
    entry of [errs], and the [except] clause and [close()] followed.  [w]
    is the state before the first of them, [w'] the state after the
    last. *)
Inductive failed_run (cfg : Config) (env : Env)
  : nat -> World -> list exn -> World -> Prop :=
| failed_none k w : failed_run cfg env k w [] w
| failed_next k w e w1 w2 errs w' :
    attempt_body cfg env k w = (Raise e, w1) ->
    run_attempt cfg env k w = (Ok (Failed e), w2) ->
    failed_run cfg env (S k) w2 errs w' ->
    failed_run cfg env k w (e :: errs) w'.

(** ** Digits as the specification has them *)



(** * Properties *)

(** ** Facts about strings *)

Module StrFacts.

Lemma filter_all p s : PyStr.all p (List.filter p s) = true.
Proof.
  induction s as [|c r IH]; simpl; [reflexivity|].
  destruct (p c) eqn:E; simpl; [rewrite E|]; assumption.
Qed.

(** Settles [PyStr.in_ranges rs c = false] for a code point [c] that the
    hypotheses place outside every range of [rs]. *)
Ltac outside_ranges c :=
  cbn [PyStr.in_ranges existsb fst snd];
  repeat
    match goal with
    | |- context [((?a <=? c)%N && (c <=? ?b)%N)%bool] =>
        let E := fresh in
        assert (E : ((a <=? c)%N && (c <=? b)%N)%bool = false)
          by (apply andb_false_iff;
              first [left; apply N.leb_gt; lia | right; apply N.leb_gt; lia]);
        rewrite E; clear E
    end;
  reflexivity.

(** No code point is both white space and a digit. *)
Lemma space_not_digit c : PyStr.isspace c = true -> PyStr.isdigit c = false.
Proof.
  unfold PyStr.isspace, PyStr.space_ranges.
  cbn [PyStr.in_ranges existsb fst snd]. intros H.
  repeat (apply orb_true_iff in H as [H|H]); try discriminate H;
    apply andb_true_iff in H as [H1 H2]; apply N.leb_le in H1, H2;
    unfold PyStr.isdigit, PyStr.digit_ranges; outside_ranges c.
Qed.


Lemma digits_lstrip s :
  List.filter PyStr.isdigit (PyStr.lstrip s) = List.filter PyStr.isdigit s.
Proof.
  induction s as [|c r IH]; simpl; [reflexivity|].
  destruct (PyStr.isspace c) eqn:E; [|reflexivity].
  rewrite (space_not_digit _ E). exact IH.
Qed.

Lemma filter_rev_list (p : N -> bool) l :
  List.filter p (rev l) = rev (List.filter p l).
Proof.
  induction l as [|x l IH]; [reflexivity|].
  simpl. rewrite List.filter_app, IH. simpl.
  destruct (p x); simpl; [reflexivity | apply app_nil_r].
Qed.

(** Stripping white space does not change the digits of a string. *)
Lemma digits_strip s :
  List.filter PyStr.isdigit (PyStr.strip (PyStr.decode s)) = digits_of s.
Proof.
  unfold digits_of, PyStr.strip, PyStr.rstrip.
  rewrite filter_rev_list, digits_lstrip, filter_rev_list, rev_involutive.
  apply digits_lstrip.
Qed.


(** *** The order on strings *)

Lemma compare_refl a : PyStr.compare a a = Eq.
Proof.
  induction a as [|x a IH]; [reflexivity|].
  simpl. rewrite N.compare_refl. exact IH.
Qed.

Lemma compare_eq a : forall b, PyStr.compare a b = Eq -> a = b.
Proof.
  induction a as [|x a IH]; intros [|y b]; simpl; try congruence.
  destruct (N.compare_spec x y) as [->| |]; try discriminate.
  intros H. rewrite (IH b H). reflexivity.
Qed.

Lemma compare_antisym a : forall b,
  PyStr.compare b a = CompOpp (PyStr.compare a b).
Proof.
  induction a as [|x a IH]; intros [|y b]; simpl; try reflexivity.
  rewrite (N.compare_antisym x y).
  destruct (N.compare x y); simpl; [apply IH | reflexivity | reflexivity].
Qed.

Lemma compare_lt_trans a : forall b c,
  PyStr.compare a b = Lt -> PyStr.compare b c = Lt ->
  PyStr.compare a c = Lt.
Proof.
  induction a as [|x a IH]; intros [|y b] [|z c]; simpl;
    try congruence.
  destruct (N.compare_spec x y); destruct (N.compare_spec y z);
    destruct (N.compare_spec x z); try congruence; try lia.
  apply IH.
Qed.

Lemma ltb_trans a b c :
  PyStr.lt a b = true -> PyStr.lt b c = true -> PyStr.lt a c = true.
Proof.
  unfold PyStr.lt. intros H1 H2.
  destruct (PyStr.compare a b) eqn:E1; try discriminate.
  destruct (PyStr.compare b c) eqn:E2; try discriminate.
  rewrite (compare_lt_trans _ _ _ E1 E2). reflexivity.
Qed.

Lemma ltb_irrefl a : PyStr.lt a a = false.
Proof. unfold PyStr.lt. rewrite compare_refl. reflexivity. Qed.

(** *** Strings of [0] to [9] of one length: the order is that of the
    numbers *)






End StrFacts.

(** ** File selection *)

Section Selection.

Lemma extract_date_Some f d :
  extract_date f = Some d <-> d = digits_of f /\ length d = 8%nat.
Proof.
  unfold extract_date; cbv zeta.
  destruct (Nat.eqb_spec (length (digits_of f)) 8) as [E|E]; split.
  - intros [= <-]. auto.
  - intros [-> _]. reflexivity.
  - discriminate.
  - intros [-> H]. contradiction.
Qed.

Lemma extract_date_digits f d :
  extract_date f = Some d -> PyStr.all PyStr.isdigit d = true.
Proof.
  intros H. apply extract_date_Some in H as [-> _].
  apply StrFacts.filter_all.
Qed.

Lemma eligible_keyed last f :
  eligible last f = true -> exists d, extract_date f = Some d.
Proof. unfold eligible. destruct (extract_date f); eauto; discriminate. Qed.

Lemma not_lt_cases a b :
  PyStr.lt b a = false -> a = b \/ PyStr.lt a b = true.
Proof.
  unfold PyStr.lt. intros H.
  pose proof (StrFacts.compare_antisym a b) as Hs.
  destruct (PyStr.compare a b) eqn:E; simpl in Hs.
  - left. apply StrFacts.compare_eq. exact E.
  - right. reflexivity.
  - rewrite Hs in H. discriminate.
Qed.

(** [min] returns an element whose key no other key is below. *)
Lemma min_by_date_least rest : forall best,
  (forall g, In g (best :: rest) -> exists d, extract_date g = Some d) ->
  exists f df,
    min_by_date best rest = Some f /\ In f (best :: rest)
    /\ extract_date f = Some df
    /\ forall g dg, In g (best :: rest) -> extract_date g = Some dg ->
                    PyStr.lt dg df = false.
Proof.
  induction rest as [|x rest IH]; intros best Hkeys.
  - destruct (Hkeys best (or_introl eq_refl)) as [db Hb].
    exists best, db. repeat split; [left; reflexivity | exact Hb |].
    intros g dg [<-|[]] Hg. rewrite Hb in Hg. injection Hg as <-.
    apply StrFacts.ltb_irrefl.
  - destruct (Hkeys best (or_introl eq_refl)) as [kb Hb].
    destruct (Hkeys x (or_intror (or_introl eq_refl))) as [kx Hx].
    simpl min_by_date. rewrite Hx, Hb.
    destruct (PyStr.lt kx kb) eqn:Elt.
    + destruct (IH x) as (f & df & Hmin & Hin & Hf & Hleast).
      { intros g Hg. apply Hkeys. right. exact Hg. }
      exists f, df. repeat split; [exact Hmin | right; exact Hin | exact Hf |].
      intros g dg [<-|Hg] Hdg.
      * rewrite Hb in Hdg. injection Hdg as <-.
        destruct (PyStr.lt kb df) eqn:E; [|reflexivity].
        pose proof (StrFacts.ltb_trans _ _ _ Elt E) as Hc.
        rewrite (Hleast x kx (or_introl eq_refl) Hx) in Hc. discriminate.
      * apply (Hleast g dg Hg Hdg).
    + destruct (IH best) as (f & df & Hmin & Hin & Hf & Hleast).
      { intros g [<-|Hg]; apply Hkeys; [left; reflexivity | right; right; exact Hg]. }
      exists f, df. repeat split; [exact Hmin | | exact Hf |].
      { destruct Hin as [<-|Hin]; [left; reflexivity | right; right; exact Hin]. }
      intros g dg [<-|[<-|Hg]] Hdg.
      * apply (Hleast best dg (or_introl eq_refl) Hdg).
      * rewrite Hx in Hdg. injection Hdg as <-.
        destruct (PyStr.lt kx df) eqn:E; [|reflexivity].
        pose proof (Hleast best kb (or_introl eq_refl) Hb) as Hbf.
        destruct (not_lt_cases _ _ Hbf) as [->|Hfb].
        -- congruence.
        -- rewrite (StrFacts.ltb_trans _ _ _ E Hfb) in Elt. discriminate.
      * apply (Hleast g dg (or_intror Hg) Hdg).
Qed.


(** [str.isdigit] holds of more than [0] to [9].  A name written with
    the Arabic-Indic digits for 20250102 has eight digits and is kept
    against a record of 20250103: its token is above the record's as a
    string.  Superscript digits count as well. *)
Example digits_outside_ascii :
  digits_of "٢٠٢٥٠١٠٢.IPI" = [1634; 1632; 1634; 1637; 1632; 1633; 1632; 1634]%N
  /\ filtered_files (last_date_of (Some "20250103.IPI")) ["٢٠٢٥٠١٠٢.IPI"]
     = ["٢٠٢٥٠١٠٢.IPI"]
  /\ digits_of "x²³.IPI" = [178; 179]%N.
Proof. repeat split; vm_compute; reflexivity. Qed.

End Selection.

(** ** Reasoning about monadic code *)

Section MonadFacts.

Context {A B : Type}.

Lemma bind_inv (m : M A) (k : A -> M B) w r w' :
  bind m k w = (r, w') ->
  (exists a w1, m w = (Ok a, w1) /\ k a w1 = (r, w'))
  \/ (exists e, m w = (Raise e, w') /\ r = Raise e).
Proof.
  unfold bind. destruct (m w) as [[a|e] w1] eqn:E; intros H.
  - left. eauto.
  - right. injection H as <- <-. eauto.
Qed.

Lemma bind_ok (m : M A) (k : A -> M B) w a w1 :
  m w = (Ok a, w1) -> bind m k w = k a w1.
Proof. unfold bind. intros ->. reflexivity. Qed.

Lemma bind_raise (m : M A) (k : A -> M B) w e w1 :
  m w = (Raise e, w1) -> bind m k w = (Raise e, w1).
Proof. unfold bind. intros ->. reflexivity. Qed.

Lemma try_except_inv c (m : M A) (h : exn -> M A) w r w' :
  try_except c m h w = (r, w') ->
  (exists a, m w = (Ok a, w') /\ r = Ok a)
  \/ (exists e, m w = (Raise e, w') /\ c e = false /\ r = Raise e)
  \/ (exists e w1, m w = (Raise e, w1) /\ c e = true /\ h e w1 = (r, w')).
Proof.
  unfold try_except. destruct (m w) as [[a|e] w1] eqn:E; intros H.
  - injection H as <- <-. left. eauto.
  - destruct (c e) eqn:Ec.
    + right. right. eauto.
    + injection H as <- <-. right. left. eauto.
Qed.

End MonadFacts.

Section EmitsFacts.

Context {A B : Type}.
Variable P : Event -> Prop.

Lemma emits_ret (a : A) : emits P (ret a).
Proof. intros w r w' [= <- <-]. exists []. rewrite app_nil_r. auto. Qed.

Lemma emits_raise (e : exn) : emits P (@raise A e).
Proof. intros w r w' [= <- <-]. exists []. rewrite app_nil_r. auto. Qed.

Lemma emits_bind (m : M A) (k : A -> M B) :
  emits P m -> (forall a, emits P (k a)) -> emits P (bind m k).
Proof.
  intros Hm Hk w r w' H.
  apply bind_inv in H as [(a & w1 & H1 & H2) | (e & H1 & ->)].
  - destruct (Hm _ _ _ H1) as (e1 & T1 & F1).
    destruct (Hk a _ _ _ H2) as (e2 & T2 & F2).
    exists (e1 ++ e2). rewrite T2, T1, app_assoc. split; [reflexivity|].
    apply Forall_app; auto.
  - exact (Hm _ _ _ H1).
Qed.

Lemma emits_try_except c (m : M A) (h : exn -> M A) :
  emits P m -> (forall e, emits P (h e)) -> emits P (try_except c m h).
Proof.
  intros Hm Hh w r w' H.
  apply try_except_inv in H
    as [(a & H1 & ->) | [(e & H1 & _ & ->) | (e & w1 & H1 & _ & H2)]].
  - exact (Hm _ _ _ H1).
  - exact (Hm _ _ _ H1).
  - destruct (Hm _ _ _ H1) as (e1 & T1 & F1).
    destruct (Hh e _ _ _ H2) as (e2 & T2 & F2).
    exists (e1 ++ e2). rewrite T2, T1, app_assoc. split; [reflexivity|].
    apply Forall_app; auto.
Qed.

Lemma emits_get_eng : emits P get_eng.
Proof. intros w r w' [= <- <-]. exists []. rewrite app_nil_r. auto. Qed.

Lemma emits_get_fs : emits P get_fs.
Proof. intros w r w' [= <- <-]. exists []. rewrite app_nil_r. auto. Qed.

Lemma emits_update_eng f : emits P (update_eng f).
Proof. intros w r w' [= <- <-]. exists []. simpl. rewrite app_nil_r. auto. Qed.

Lemma emits_update_fs f : emits P (update_fs f).
Proof. intros w r w' [= <- <-]. exists []. simpl. rewrite app_nil_r. auto. Qed.

Lemma emits_emit ev : P ev -> emits P (emit ev).
Proof. intros Hp w r w' [= <- <-]. exists [ev]. simpl. auto. Qed.

Lemma emits_log line : P (EvLog line) -> emits P (log line).
Proof. apply emits_emit. Qed.

Lemma emits_sleep d : P (EvSleep d) -> emits P (sleep d).
Proof. apply emits_emit. Qed.

Lemma emits_ask env op : (forall r, P (EvCall op r)) -> emits P (ask env op).
Proof.
  intros Hp w r w' H. unfold ask in H.
  exists [EvCall op (env_fault env op (w_tick w))].
  destruct (env_fault env op (w_tick w)); injection H as <- <-; simpl; auto.
Qed.

Lemma emits_clock env : (forall t, P (EvClock t)) -> emits P (clock env).
Proof.
  intros Hp w r w' [= <- <-]. exists [EvClock (env_clock env (w_tick w))].
  simpl. auto.
Qed.

End EmitsFacts.

Lemma emits_weaken {A} (P Q : Event -> Prop) (m : M A) :
  (forall ev, P ev -> Q ev) -> emits P m -> emits Q m.
Proof.
  intros HPQ Hm w r w' H. destruct (Hm _ _ _ H) as (evs & T & F).
  exists evs. split; [exact T|]. eapply Forall_impl; eauto.
Qed.

(** Takes apart a goal [emits P m] along the structure of [m]. *)
Ltac emits_step :=
  lazymatch goal with
  | |- emits _ (bind _ _) => apply emits_bind; [|intros ?]
  | |- emits _ (try_except _ _ _) => apply emits_try_except; [|intros ?]
  | |- emits _ (ret _) => apply emits_ret
  | |- emits _ (raise _) => apply emits_raise
  | |- emits _ get_eng => apply emits_get_eng
  | |- emits _ get_fs => apply emits_get_fs
  | |- emits _ (update_eng _) => apply emits_update_eng
  | |- emits _ (update_fs _) => apply emits_update_fs
  | |- emits _ (log _) => apply emits_log
  | |- emits _ (emit _) => apply emits_emit
  | |- emits _ (sleep _) => apply emits_sleep
  | |- emits _ (ask _ _) => apply emits_ask; intros ?
  | |- emits _ (clock _) => apply emits_clock; intros ?
  | |- emits _ (match ?x with _ => _ end) => destruct x
  | |- emits _ (if ?x then _ else _) => destruct x
  end.

Ltac emits_auto := repeat emits_step; simpl; auto.


(** ** [close] *)

Section CloseFacts.

Variable env : Env.

Lemma close_runs w :
  exists w' ops,
    close env w = (Ok tt, w')
    /\ w_trace w' = w_trace w ++ EvClose :: ops
    /\ Forall (fun ev => close_op ev = true) ops
    /\ w_fs w' = w_fs w.
Proof.
  unfold close, bind, try_except, emit, get_eng, ask, update_eng, ret; simpl.
  destruct (sftp (w_eng w)) as [s|]; simpl;
    [destruct (env_fault env OpSftpClose (w_tick w)) as [e1|]; simpl|];
    (destruct (transport (w_eng w)) as [t|]; simpl;
     [match goal with
      | |- context [env_fault env OpTransportClose ?n] =>
          destruct (env_fault env OpTransportClose n) as [e2|]; simpl
      end|]);
    eexists; eexists; (split; [reflexivity|]);
    simpl; rewrite <- ?app_assoc; simpl;
    (split; [reflexivity|]); (split; [|reflexivity]);
    repeat constructor.
Qed.

Lemma close_never_raises : never_raises (close env).
Proof.
  intros w. destruct (close_runs w) as (w' & ops & H & _). eauto.
Qed.

End CloseFacts.


(** ** Lengths *)

Module LenFacts.

Lemma len_nonneg s : 0 <= PyStr.len s.
Proof. unfold PyStr.len. lia. Qed.

Lemma len_cons c s : PyStr.len (String c s) = 1 + PyStr.len s.
Proof. unfold PyStr.len. simpl String.length. lia. Qed.

Lemma len_take n s :
  PyStr.len (PyStr.take n s) = Z.max 0 (Z.min n (PyStr.len s)).
Proof.
  revert n; induction s as [|c s IH]; intros n; simpl PyStr.take.
  - change (PyStr.len "") with 0. lia.
  - destruct (Z.leb_spec n 0).
    + change (PyStr.len "") with 0. rewrite len_cons.
      pose proof (len_nonneg s). lia.
    + rewrite !len_cons, IH. pose proof (len_nonneg s). lia.
Qed.

Lemma len_drop n s :
  PyStr.len (PyStr.drop n s) = Z.max 0 (PyStr.len s - Z.max 0 n).
Proof.
  revert n; induction s as [|c s IH]; intros n; simpl PyStr.drop.
  - change (PyStr.len "") with 0. lia.
  - destruct (Z.leb_spec n 0).
    + rewrite len_cons. pose proof (len_nonneg s). lia.
    + rewrite len_cons, IH. pose proof (len_nonneg s). lia.
Qed.

Lemma len_pos c s : 0 < PyStr.len (String c s).
Proof. rewrite len_cons. pose proof (len_nonneg s). lia. Qed.

End LenFacts.


(** ** Relations kept by monadic code *)

Section RespectsFacts.

Context {A B : Type}.
Variable R : World -> World -> Prop.
Hypothesis HR : world_preorder R.

Lemma respects_ret (a : A) : respects R (ret a).
Proof. intros w r w' [= <- <-]. apply (wp_refl R HR). Qed.

Lemma respects_raise (e : exn) : respects R (@raise A e).
Proof. intros w r w' [= <- <-]. apply (wp_refl R HR). Qed.

Lemma respects_bind (m : M A) (k : A -> M B) :
  respects R m -> (forall a, respects R (k a)) -> respects R (bind m k).
Proof.
  intros Hm Hk w r w' H.
  apply bind_inv in H as [(a & w1 & H1 & H2) | (e & H1 & ->)].
  - eapply (wp_trans R HR); [exact (Hm _ _ _ H1) | exact (Hk a _ _ _ H2)].
  - exact (Hm _ _ _ H1).
Qed.

Lemma respects_try_except c (m : M A) (h : exn -> M A) :
  respects R m -> (forall e, respects R (h e)) ->
  respects R (try_except c m h).
Proof.
  intros Hm Hh w r w' H.
  apply try_except_inv in H
    as [(a & H1 & ->) | [(e & H1 & _ & ->) | (e & w1 & H1 & _ & H2)]].
  - exact (Hm _ _ _ H1).
  - exact (Hm _ _ _ H1).
  - eapply (wp_trans R HR); [exact (Hm _ _ _ H1) | exact (Hh e _ _ _ H2)].
Qed.

Lemma respects_get_eng : respects R get_eng.
Proof. intros w r w' [= <- <-]. apply (wp_refl R HR). Qed.

Lemma respects_get_fs : respects R get_fs.
Proof. intros w r w' [= <- <-]. apply (wp_refl R HR). Qed.

Lemma respects_emit ev : respects R (emit ev).
Proof. intros w r w' [= <- <-]. apply (wp_event R HR). Qed.

Lemma respects_log line : respects R (log line).
Proof. apply respects_emit. Qed.

Lemma respects_sleep d : respects R (sleep d).
Proof. apply respects_emit. Qed.

Lemma respects_ask env op : respects R (ask env op).
Proof.
  intros w r w' H. unfold ask in H.
  assert (R w (with_event (EvCall op (env_fault env op (w_tick w))) (with_tick w))).
  { eapply (wp_trans R HR); [apply (wp_tick R HR) | apply (wp_event R HR)]. }
  destruct (env_fault env op (w_tick w)); injection H as <- <-; assumption.
Qed.

Lemma respects_clock env : respects R (clock env).
Proof.
  intros w r w' [= <- <-].
  eapply (wp_trans R HR); [apply (wp_tick R HR) | apply (wp_event R HR)].
Qed.

Lemma respects_update_eng f :
  (forall w, R w (with_eng f w)) -> respects R (update_eng f).
Proof. intros Hf w r w' [= <- <-]. apply Hf. Qed.

Lemma respects_update_fs f :
  (forall w, R w (with_fs f w)) -> respects R (update_fs f).
Proof. intros Hf w r w' [= <- <-]. apply Hf. Qed.

End RespectsFacts.

(** Takes apart a goal [respects R m] along the structure of [m]. *)
Ltac respects_step HR :=
  lazymatch goal with
  | |- respects _ (bind _ _) => apply (respects_bind _ HR); [|intros ?]
  | |- respects _ (try_except _ _ _) =>
      apply (respects_try_except _ HR); [|intros ?]
  | |- respects _ (ret _) => apply (respects_ret _ HR)
  | |- respects _ (raise _) => apply (respects_raise _ HR)
  | |- respects _ get_eng => apply (respects_get_eng _ HR)
  | |- respects _ get_fs => apply (respects_get_fs _ HR)
  | |- respects _ (log _) => apply (respects_log _ HR)
  | |- respects _ (emit _) => apply (respects_emit _ HR)
  | |- respects _ (sleep _) => apply (respects_sleep _ HR)
  | |- respects _ (ask _ _) => apply (respects_ask _ HR)
  | |- respects _ (clock _) => apply (respects_clock _ HR)
  | |- respects _ (update_eng _) => apply (respects_update_eng _); intros ?
  | |- respects _ (update_fs _) => apply (respects_update_fs _); intros ?
  | |- respects _ (match ?x with _ => _ end) => destruct x
  | |- respects _ (if ?x then _ else _) => destruct x
  end.

Ltac respects_auto HR := repeat respects_step HR.

Lemma same_eng_preorder : world_preorder same_eng.
Proof.
  split; unfold same_eng; simpl; try reflexivity.
  intros a b c H1 H2. congruence.
Qed.

Lemma fs_only_at_preorder path : world_preorder (fs_only_at path).
Proof.
  split; unfold fs_only_at; simpl; try (intros; split; auto; fail).
  intros a b c [H1 G1] [H2 G2]. split.
  - intros p Hp. rewrite (H2 p Hp). apply (H1 p Hp).
  - intros p Hp. apply G2, G1, Hp.
Qed.

(** ** One pass of the chunk loop *)

Section ChunkStep.

Variable env : Env.
Variables remote_path local_path : string.

Lemma verify_connection_same_eng : respects same_eng (verify_connection env).
Proof.
  unfold verify_connection. respects_auto same_eng_preorder.
Qed.

Lemma watchdog_same_eng : respects same_eng (watchdog env).
Proof.
  unfold watchdog.
  apply (respects_bind _ same_eng_preorder);
    [apply (respects_clock _ same_eng_preorder)|intros t].
  destruct (time_mod_is_zero t 10); [|apply (respects_ret _ same_eng_preorder)].
  apply (respects_bind _ same_eng_preorder);
    [apply verify_connection_same_eng|intros alive].
  respects_auto same_eng_preorder.
Qed.

Lemma report_progress_same_eng n : respects same_eng (report_progress env n).
Proof. unfold report_progress. respects_auto same_eng_preorder. Qed.

Lemma local_write_same_eng chunk :
  respects same_eng (local_write env local_path chunk).
Proof.
  unfold local_write. respects_auto same_eng_preorder. reflexivity.
Qed.

Lemma read_and_store_cases pos w r w' :
  read_and_store env remote_path local_path pos w = (r, w') ->
  pass_effect env remote_path pos w r w'.
Proof.
  unfold read_and_store. intros H.
  apply bind_inv in H as [(n & w1 & H1 & H2) | (e & H1 & ->)].
  2:{ left. split; [exact (respects_ask _ same_eng_preorder _ _ _ _ _ H1) | eauto]. }
  pose proof (respects_ask _ same_eng_preorder _ _ _ _ _ H1) as E1.
  cbv zeta in H2.
  destruct (PyStr.take CHUNK_SIZE (PyStr.drop pos (env_remote env n remote_path)))
    as [|c s] eqn:Echunk.
  { injection H2 as <- <-. left. auto. }
  assert (Hpos : 0 < PyStr.len (String c s)) by apply LenFacts.len_pos.
  apply bind_inv in H2 as [([] & w2 & H2 & H3) | (e & H2 & ->)].
  2:{ left. split; [|eauto].
      pose proof (local_write_same_eng _ _ _ _ H2) as E2.
      unfold same_eng in *. congruence. }
  pose proof (local_write_same_eng _ _ _ _ H2) as E2.
  apply bind_inv in H3 as [([] & w3 & H3 & H4) | (e & H3 & ->)];
    [|discriminate].
  injection H3 as <-.
  assert (E3 : w_eng (with_eng (fun e => with_last_byte (last_byte e + PyStr.len (String c s)) e) w2)
               = with_last_byte (last_byte (w_eng w) + PyStr.len (String c s)) (w_eng w)).
  { unfold same_eng in *. simpl. rewrite E2, E1. reflexivity. }
  right. exists n, (String c s). split; [symmetry; exact Echunk|]. split; [exact Hpos|].
  apply bind_inv in H4 as [([] & w4 & H4 & H5) | (e & H4 & ->)].
  - pose proof (report_progress_same_eng _ _ _ _ H4) as E4.
    injection H5 as <- <-. split; [|left; reflexivity].
    unfold same_eng in E4. rewrite E4. exact E3.
  - pose proof (report_progress_same_eng _ _ _ _ H4) as E4.
    split; [|eauto]. unfold same_eng in E4. rewrite E4. exact E3.
Qed.

Lemma chunk_step_cases pos w r w' :
  chunk_step env remote_path local_path pos w = (r, w') ->
  pass_effect env remote_path pos w r w'.
Proof.
  unfold chunk_step. intros H.
  apply bind_inv in H as [([] & w1 & H1 & H2) | (e & H1 & ->)].
  2:{ left. split; [exact (watchdog_same_eng _ _ _ H1) | eauto]. }
  pose proof (watchdog_same_eng _ _ _ H1) as E1. unfold same_eng in E1.
  assert (Hlift : forall r0 w0, pass_effect env remote_path pos w1 r0 w0 ->
            pass_effect env remote_path pos w r0 w0).
  { intros r0 w0 [[He Hr] | (n & chunk & Hc & Hl & He & Hr)].
    - left. split; [congruence | exact Hr].
    - right. exists n, chunk. rewrite <- E1. auto. }
  apply try_except_inv in H2
    as [(a & H2 & ->) | [(e & H2 & _ & ->) | (e & w2 & H2 & _ & H3)]].
  - apply Hlift, read_and_store_cases, H2.
  - apply Hlift, read_and_store_cases, H2.
  - apply read_and_store_cases in H2.
    apply bind_inv in H3 as [([] & w3 & H3 & H4) | (e' & H3 & ->)];
      [|discriminate].
    injection H3 as <-. injection H4 as <- <-.
    apply Hlift.
    destruct H2 as [[He Hr] | (n & chunk & Hc & Hl & He & Hr)].
    + left. simpl. split; [exact He | eauto].
    + right. exists n, chunk. simpl. repeat split; eauto.
Qed.

(** The arithmetic of a pass. *)
Lemma chunk_step_effect pos w r w' :
  chunk_step env remote_path local_path pos w = (r, w') ->
  file_size (w_eng w') = file_size (w_eng w)
  /\ transport (w_eng w') = transport (w_eng w)
  /\ sftp (w_eng w') = sftp (w_eng w)
  /\ last_byte (w_eng w) <= last_byte (w_eng w')
     <= last_byte (w_eng w) + CHUNK_SIZE
  /\ (forall pos', r = Ok (Continue pos') ->
        last_byte (w_eng w) < last_byte (w_eng w')
        /\ pos' - pos = last_byte (w_eng w') - last_byte (w_eng w))
  /\ (forall bound,
        (forall n, PyStr.len (env_remote env n remote_path) <= bound) ->
        0 <= pos ->
        last_byte (w_eng w') - last_byte (w_eng w) <= Z.max 0 (bound - pos)).
Proof.
  intros H. apply chunk_step_cases in H.
  assert (HC : 0 < CHUNK_SIZE) by reflexivity.
  destruct H as [[He Hr] | (n & chunk & Hc & Hl & He & Hr)]; rewrite He.
  - split; [reflexivity|]. split; [reflexivity|]. split; [reflexivity|].
    split; [lia|]. split.
    + intros pos' ->. destruct Hr as [Hr | [e Hr]]; discriminate.
    + intros bound Hb Hp. lia.
  - simpl.
    pose proof (LenFacts.len_take CHUNK_SIZE
                  (PyStr.drop pos (env_remote env n remote_path))) as Ht.
    pose proof (LenFacts.len_drop pos (env_remote env n remote_path)) as Hd.
    rewrite <- Hc in Ht.
    split; [reflexivity|]. split; [reflexivity|]. split; [reflexivity|].
    split; [lia|]. split.
    + intros pos' ->. destruct Hr as [[= ->] | [e Hr]]; [lia | discriminate].
    + intros bound Hb Hp. specialize (Hb n). lia.
Qed.

End ChunkStep.


(** ** The chunk loop *)

Section ChunkLoop.

Variable env : Env.
Variables remote_path local_path : string.

(** [fuel] is a termination measure, not a limit: any amount that covers
    the bytes still missing gives the same run. *)
Lemma chunk_loop_fuel fuel : forall fuel' pos w,
  file_size (w_eng w) - last_byte (w_eng w) <= Z.of_nat fuel ->
  (fuel <= fuel')%nat ->
  chunk_loop env fuel' remote_path local_path pos w
  = chunk_loop env fuel remote_path local_path pos w.
Proof.
  induction fuel as [|fuel IH]; intros fuel' pos w Hm Hle.
  - destruct fuel' as [|fuel']; [reflexivity|].
    simpl. unfold bind, get_eng.
    destruct (Z.ltb_spec (last_byte (w_eng w)) (file_size (w_eng w)));
      [lia | reflexivity].
  - destruct fuel' as [|fuel']; [lia|].
    simpl. unfold bind at 1 3. unfold get_eng.
    destruct (Z.ltb_spec (last_byte (w_eng w)) (file_size (w_eng w)));
      [|reflexivity].
    unfold bind.
    destruct (chunk_step env remote_path local_path pos w)
      as [[[pos'|]|e] w1] eqn:Hstep; try reflexivity.
    apply chunk_step_effect in Hstep as (Hf & _ & _ & _ & Hc & _).
    destruct (Hc pos' eq_refl) as [Hlt _].
    apply IH; lia.
Qed.

(** The equation of the [while] loop. *)
Lemma transfer_chunks_unfold pos w :
  transfer_chunks env remote_path local_path pos w
  = if last_byte (w_eng w) <? file_size (w_eng w) then
      match chunk_step env remote_path local_path pos w with
      | (Ok (Continue pos'), w') =>
          transfer_chunks env remote_path local_path pos' w'
      | (Ok Break, w') => (Ok tt, w')
      | (Raise e, w') => (Raise e, w')
      end
    else (Ok tt, w).
Proof.
  unfold transfer_chunks, bind, get_eng.
  destruct (Z.ltb_spec (last_byte (w_eng w)) (file_size (w_eng w))) as [Hlt|Hge].
  - destruct (Z.to_nat (file_size (w_eng w) - last_byte (w_eng w)))
      as [|fuel] eqn:Hfuel; [lia|].
    simpl. unfold bind, get_eng.
    destruct (Z.ltb_spec (last_byte (w_eng w)) (file_size (w_eng w))); [|lia].
    destruct (chunk_step env remote_path local_path pos w)
      as [[[pos'|]|e] w1] eqn:Hstep; try reflexivity.
    apply chunk_step_effect in Hstep as (Hf & _ & _ & _ & Hc & _).
    destruct (Hc pos' eq_refl) as [Hlt' _].
    apply chunk_loop_fuel; lia.
  - destruct (Z.to_nat (file_size (w_eng w) - last_byte (w_eng w)))
      as [|fuel] eqn:Hfuel; [reflexivity|lia].
Qed.

(** A relation kept by every pass is kept by the loop. *)
Lemma chunk_loop_respects R (HR : world_preorder R) :
  (forall pos, respects R (chunk_step env remote_path local_path pos)) ->
  forall fuel pos,
    respects R (chunk_loop env fuel remote_path local_path pos).
Proof.
  intros Hstep. induction fuel as [|fuel IH]; intros pos; simpl.
  - apply (respects_ret _ HR).
  - apply (respects_bind _ HR); [apply (respects_get_eng _ HR)|intros e].
    destruct (last_byte e <? file_size e); [|apply (respects_ret _ HR)].
    apply (respects_bind _ HR); [apply Hstep|intros [pos'|]].
    + apply IH.
    + apply (respects_ret _ HR).
Qed.

Lemma transfer_chunks_respects R (HR : world_preorder R) :
  (forall pos, respects R (chunk_step env remote_path local_path pos)) ->
  forall pos, respects R (transfer_chunks env remote_path local_path pos).
Proof.
  intros Hstep pos. unfold transfer_chunks.
  apply (respects_bind _ HR); [apply (respects_get_eng _ HR)|intros e].
  apply chunk_loop_respects; assumption.
Qed.

Lemma chunk_loop_emits P :
  (forall pos, emits P (chunk_step env remote_path local_path pos)) ->
  forall fuel pos, emits P (chunk_loop env fuel remote_path local_path pos).
Proof.
  intros Hstep. induction fuel as [|fuel IH]; intros pos; simpl.
  - apply emits_ret.
  - apply emits_bind; [apply emits_get_eng|intros e].
    destruct (last_byte e <? file_size e); [|apply emits_ret].
    apply emits_bind; [apply Hstep|intros [pos'|]].
    + apply IH.
    + apply emits_ret.
Qed.

(** The states [loop_reaches] names are on the path of the run. *)
Lemma loop_reaches_on_path s pos w :
  loop_reaches env remote_path local_path s (pos, w) ->
  transfer_chunks env remote_path local_path (fst s) (snd s)
  = transfer_chunks env remote_path local_path pos w.
Proof.
  intros H. remember (pos, w) as t eqn:Et. revert pos w Et.
  induction H as [|pos1 w1 pos2 w2 Hreach IH Hguard Hstep];
    intros pos w Et.
  - subst s. reflexivity.
  - injection Et as -> ->.
    rewrite (IH pos1 w1 eq_refl).
    rewrite (transfer_chunks_unfold pos1 w1).
    apply Z.ltb_lt in Hguard. rewrite Hguard, Hstep. reflexivity.
Qed.

End ChunkLoop.


(** ** Before the loop *)

(** Unfolds the monad in a hypothesis [H : m w = (r, w')]. *)
Ltac unfold_monad H :=
  unfold bind, try_except, try_finally, ret, raise, get_eng, get_fs,
    update_eng, update_fs, log, sleep, emit, ask in H;
  simpl in H.

Section StartTransfer.

Variable env : Env.
Variables remote_path local_path : string.

Lemma local_size_nonneg w : 0 <= local_size local_path w.
Proof.
  unfold local_size. destruct (w_fs w !! local_path);
    [apply LenFacts.len_nonneg | lia].
Qed.

Lemma start_transfer_started w pos0 w0 :
  start_transfer env remote_path local_path w = (Ok (Some pos0), w0) ->
  file_size (w_eng w0) = PyStr.len (env_remote env (w_tick w) remote_path)
  /\ last_byte (w_eng w0) = local_size local_path w
  /\ pos0 = last_byte (w_eng w0)
  /\ last_byte (w_eng w0) < file_size (w_eng w0)
  /\ transport (w_eng w0) = transport (w_eng w)
  /\ sftp (w_eng w0) = sftp (w_eng w)
  /\ exists content, w_fs w0 !! local_path = Some content
       /\ PyStr.len content = local_size local_path w.
Proof.
  intros H. pose proof (local_size_nonneg w) as Hn. unfold local_size in *.
  unfold start_transfer, sftp_call, size_or_zero, local_open in H.
  unfold_monad H.
  destruct (sftp (w_eng w)) as [ch|] eqn:Es; simpl in H; [|discriminate].
  destruct (env_fault env OpStat (w_tick w)) eqn:Ef; simpl in H; [discriminate|].
  destruct (w_fs w !! local_path) as [content|] eqn:El; simpl in H.
  - destruct (Z.leb_spec (PyStr.len (env_remote env (w_tick w) remote_path))
                (PyStr.len content)); simpl in H; [discriminate|].
    rewrite Es in H. simpl in H.
    destruct (env_fault env OpRemoteOpen (S (w_tick w))); simpl in H; [discriminate|].
    destruct (env_fault env OpLocalOpen (S (S (w_tick w)))); simpl in H; [discriminate|].
    injection H as <- <-. simpl.
    destruct (Z.ltb_spec 0 (PyStr.len content)).
    + rewrite El. repeat split; try assumption; try lia. eauto.
    + rewrite lookup_insert_eq. repeat split; try assumption; try lia.
      exists EmptyString. split; [reflexivity|]. change (PyStr.len "") with 0. lia.
  - destruct (Z.leb_spec (PyStr.len (env_remote env (w_tick w) remote_path)) 0);
      simpl in H; [discriminate|].
    rewrite Es in H. simpl in H.
    destruct (env_fault env OpRemoteOpen (S (w_tick w))); simpl in H; [discriminate|].
    destruct (env_fault env OpLocalOpen (S (S (w_tick w)))); simpl in H; [discriminate|].
    injection H as <- <-. simpl.
    rewrite lookup_insert_eq. repeat split; try assumption; try lia.
    exists EmptyString. split; reflexivity.
Qed.

End StartTransfer.


(** ** The download as a whole *)

Section Download.

Variable env : Env.
Variables remote_path local_path : string.

(** C1.  When the local file exists and is at least as long as the size
    [stat] reports for the remote file, [download_with_armor] returns true
    at once: the only interaction is that [stat] (no chunk is read), and
    the local files are left as they were. *)
Theorem complete_file_short_circuit :
  forall w content,
    sftp (w_eng w) <> None ->
    env_fault env OpStat (w_tick w) = None ->
    w_fs w !! local_path = Some content ->
    PyStr.len (env_remote env (w_tick w) remote_path) <= PyStr.len content ->
    exists w',
      download_with_armor env remote_path local_path w = (Ok true, w')
      /\ w_fs w' = w_fs w
      /\ w_tick w' = S (w_tick w)
      /\ w_trace w'
         = w_trace w
           ++ [EvCall OpStat None;
               EvLog (LogTargetSize
                        (PyStr.len (env_remote env (w_tick w) remote_path)));
               EvLog LogAlreadyComplete].
Proof.
  intros w content Hs Hstat Hfile Hlen.
  unfold download_with_armor, start_transfer, sftp_call, size_or_zero.
  unfold bind, try_except, ret, get_eng, get_fs, update_eng, log, emit, ask.
  simpl.
  destruct (sftp (w_eng w)) as [ch|]; [|contradiction]. simpl.
  rewrite Hstat. simpl. rewrite Hfile. simpl.
  apply Z.leb_le in Hlen. rewrite Hlen. simpl.
  eexists. split; [reflexivity|]. simpl.
  split; [reflexivity|]. split; [reflexivity|].
  rewrite <- !app_assoc. reflexivity.
Qed.

End Download.

(** A run is known once its result is: the world is whatever it is. *)
Lemma run_eta {A} (p : Res A * World) (r : Res A) :
  fst p = r -> p = (r, snd p).
Proof. destruct p. simpl. intros ->. reflexivity. Qed.

Section Bounds.

Variable env : Env.
Variables remote_path local_path : string.

Lemma loop_invariant pos0 w0 pos w1 :
  loop_reaches env remote_path local_path (pos0, w0) (pos, w1) ->
  pos0 = last_byte (w_eng w0) ->
  0 <= last_byte (w_eng w0) < file_size (w_eng w0) ->
  file_size (w_eng w1) = file_size (w_eng w0)
  /\ pos = last_byte (w_eng w1)
  /\ last_byte (w_eng w0) <= last_byte (w_eng w1)
     < file_size (w_eng w0) + CHUNK_SIZE
  /\ ((forall n, PyStr.len (env_remote env n remote_path)
                 <= file_size (w_eng w0)) ->
      last_byte (w_eng w1) <= file_size (w_eng w0)).
Proof.
  intros H Hpos Hstart.
  assert (HC : 0 < CHUNK_SIZE) by reflexivity.
  remember (pos0, w0) as s eqn:Es. remember (pos, w1) as t eqn:Et.
  revert pos w1 Et.
  induction H as [|pa wa pb wb Hreach IH Hguard Hstep]; intros pos w1 Et.
  - subst s. injection Et as -> ->. repeat split; try lia.
  - injection Et as -> ->.
    destruct (IH pa wa eq_refl) as (Hf & Hp & Hl & Hb).
    apply chunk_step_effect in Hstep as (Hf' & _ & _ & Hl' & Hc & Hb').
    destruct (Hc pos eq_refl) as [Hlt Hpb].
    split; [congruence|]. split; [lia|]. split; [lia|].
    intros Hbound. specialize (Hb Hbound).
    specialize (Hb' _ Hbound). lia.
Qed.

(** C9, as the code has it.  Within one call, at every head of the chunk
    loop [total] is the size [stat] reported, [last_byte] is at least the
    resume offset (the size the local file had) and below
    [total + CHUNK_SIZE]; a pass never lowers it; and it stays at or below
    [total] at every point whenever the remote file never holds more bytes
    than [stat] reported. *)
Theorem last_byte_bounds :
  forall w pos0 w0,
    start_transfer env remote_path local_path w = (Ok (Some pos0), w0) ->
    forall pos w1,
      loop_reaches env remote_path local_path (pos0, w0) (pos, w1) ->
      let resume := local_size local_path w in
      let total := PyStr.len (env_remote env (w_tick w) remote_path) in
      file_size (w_eng w1) = total
      /\ resume <= last_byte (w_eng w1) < total + CHUNK_SIZE
      /\ (forall r w2,
            chunk_step env remote_path local_path pos w1 = (r, w2) ->
            file_size (w_eng w2) = total
            /\ last_byte (w_eng w1) <= last_byte (w_eng w2)
            /\ (last_byte (w_eng w1) < total ->
                last_byte (w_eng w2) < total + CHUNK_SIZE))
      /\ ((forall n, PyStr.len (env_remote env n remote_path) <= total) ->
          last_byte (w_eng w1) <= total
          /\ forall r w2,
               chunk_step env remote_path local_path pos w1 = (r, w2) ->
               last_byte (w_eng w2) <= total).
Proof.
  intros w pos0 w0 Hstart pos w1 Hreach resume total.
  apply start_transfer_started in Hstart
    as (Hfs & Hlb & Hpos & Hlt & _ & _ & _).
  pose proof (local_size_nonneg local_path w) as Hn.
  destruct (loop_invariant _ _ _ _ Hreach Hpos) as (Hf & Hp & Hl & Hb);
    [lia|].
  fold total in Hfs. fold resume in Hlb.
  rewrite Hfs in *. rewrite Hlb in *.
  split; [exact Hf|]. split; [exact Hl|]. split.
  - intros r w2 Hstep.
    apply chunk_step_effect in Hstep as (Hf' & _ & _ & Hl' & _ & _).
    split; [congruence|]. split; lia.
  - intros Hbound. split; [exact (Hb Hbound)|].
    intros r w2 Hstep.
    apply chunk_step_effect in Hstep as (_ & _ & _ & _ & _ & Hb').
    specialize (Hb' _ Hbound). specialize (Hb Hbound). lia.
Qed.

End Bounds.

(** C9 as stated fails: the remote file grows after [stat], the one chunk
    read is not cut at the reported size, and the loop is at a head with
    [last_byte = 20] while [file_size = 10]. *)
Lemma last_byte_can_pass_total :
  exists pos0 w0 pos w1,
    start_transfer Examples.growing "/remote/f" "/local/f" (Examples.connected ∅)
    = (Ok (Some pos0), w0)
    /\ loop_reaches Examples.growing "/remote/f" "/local/f" (pos0, w0) (pos, w1)
    /\ file_size (w_eng w1) = 10
    /\ last_byte (w_eng w1) = 20.
Proof.
  set (s := start_transfer Examples.growing "/remote/f" "/local/f"
              (Examples.connected ∅)).
  set (t := chunk_step Examples.growing "/remote/f" "/local/f" 0 (snd s)).
  exists 0, (snd s), 20, (snd t).
  split; [apply (run_eta s); vm_compute; reflexivity|].
  split; [|split; vm_compute; reflexivity].
  eapply reach_pass; [apply reach_start | vm_compute; reflexivity |].
  apply (run_eta t). vm_compute. reflexivity.
Qed.

(** The hypothesis of [last_byte_bounds] holds of a plain download. *)
Lemma last_byte_bounds_witness :
  let w := Examples.connected ∅ in
  let s := start_transfer Examples.quiet "/remote/f" "/local/f" w in
  file_size (w_eng (snd s)) = 10
  /\ 0 <= last_byte (w_eng (snd s)) < 10 + CHUNK_SIZE.
Proof.
  intros w s.
  assert (Hs : s = (Ok (Some 0), snd s))
    by (apply (run_eta s); vm_compute; reflexivity).
  destruct (last_byte_bounds Examples.quiet "/remote/f" "/local/f" w 0 (snd s) Hs
              0 (snd s) (reach_start _ _ _ _)) as (Hf & Hl & _).
  split; [exact Hf | exact Hl].
Defined.


(** ** Sampling by the clock *)

Section Sampling.

Lemma time_mod_is_zero_multiple t m :
  0 < m ->
  time_mod_is_zero t m = true <-> exists k, Qnum t = k * (m * Zpos (Qden t)).
Proof.
  intros Hm. unfold time_mod_is_zero. rewrite Z.eqb_eq.
  assert (Hd : m * Zpos (Qden t) <> 0) by lia.
  rewrite (Z.mod_divide _ _ Hd). unfold Z.divide. reflexivity.
Qed.

(** Two readings that both pass the gate are the same or at least the
    interval apart. *)
Lemma gate_spacing t1 t2 m :
  0 < m ->
  time_mod_is_zero t1 m = true -> time_mod_is_zero t2 m = true ->
  (t1 < t2)%Q -> (t1 + inject_Z m <= t2)%Q.
Proof.
  intros Hm H1 H2 Hlt.
  apply (time_mod_is_zero_multiple _ _ Hm) in H1 as [k1 H1].
  apply (time_mod_is_zero_multiple _ _ Hm) in H2 as [k2 H2].
  destruct t1 as [a1 b1], t2 as [a2 b2].
  unfold Qlt, Qle, Qplus, inject_Z in *. simpl in *. subst a1 a2.
  set (p := m * Zpos b1 * Zpos b2).
  assert (Hp : 0 < p) by (unfold p; lia).
  assert (Hk : k1 * p < k2 * p).
  { replace (k1 * p) with (k1 * (m * Z.pos b1) * Z.pos b2) by (unfold p; ring).
    replace (k2 * p) with (k2 * (m * Z.pos b2) * Z.pos b1) by (unfold p; ring).
    exact Hlt. }
  apply Z.mul_lt_mono_pos_r in Hk; [|exact Hp].
  rewrite Pos2Z.inj_mul.
  replace ((k1 * (m * Z.pos b1) * 1 + m * Z.pos b1) * Z.pos b2)
    with ((k1 + 1) * p) by (unfold p; ring).
  replace (k2 * (m * Z.pos b2) * (Z.pos b1 * 1)) with (k2 * p)
    by (unfold p; ring).
  apply Z.mul_le_mono_nonneg_r; lia.
Qed.

Variable env : Env.

Lemma report_progress_outcome n w :
  time_mod_is_zero (env_clock env (w_tick w)) 30 = true ->
  file_size (w_eng w) <> 0 ->
  fst (report_progress env n w)
  = if time_mod_is_zero (env_clock env (S (w_tick w))) 30
    then Raise ZeroDivisionError else Ok tt.
Proof.
  intros Hg Hf. unfold report_progress, bind, clock, get_eng, log, emit, ret, raise.
  simpl. rewrite Hg. simpl.
  destruct (Z.eqb_spec (file_size (w_eng w)) 0) as [E|_]; [contradiction|].
  simpl. destruct (time_mod_is_zero (env_clock env (S (w_tick w))) 30); reflexivity.
Qed.

End Sampling.

(** C10.  Once the guard of the progress report has found the clock on a
    multiple of 30 s, the report divides by the remainder of a second
    reading of the clock: it raises [ZeroDivisionError] exactly when that
    reading is again a multiple of 30 s, and a download in which the clock
    reads the same multiple of 30 s throughout ends with that error. *)
Theorem progress_report_can_divide_by_zero :
  (forall env n w,
      time_mod_is_zero (env_clock env (w_tick w)) 30 = true ->
      file_size (w_eng w) <> 0 ->
      fst (report_progress env n w)
      = if time_mod_is_zero (env_clock env (S (w_tick w))) 30
        then Raise ZeroDivisionError else Ok tt)
  /\ exists w',
       download_with_armor Examples.frozen_at_30 "/remote/f" "/local/f"
         (Examples.connected ∅)
       = (Raise ZeroDivisionError, w')
       /\ w_trace w'
          = [EvCall OpStat None; EvLog (LogTargetSize 10);
             EvLog (LogResumePoint 0); EvCall OpRemoteOpen None;
             EvCall OpLocalOpen None; EvClock (1800000000 # 1);
             EvCall OpSendIgnore None; EvCall OpRead None;
             EvCall OpLocalWrite None; EvClock (1800000000 # 1);
             EvClock (1800000000 # 1);
             EvLog (LogTransferFailed 10 ZeroDivisionError)].
Proof.
  split; [exact report_progress_outcome|].
  eexists. split; [apply run_eta; vm_compute; reflexivity|].
  vm_compute. reflexivity.
Qed.


(** ** The watchdog *)

Section Watchdog.

Variable env : Env.
Variables remote_path local_path : string.

Lemma read_and_store_no_probe pos :
  emits (fun ev => is_probe ev = false)
    (try_except is_ssh_or_eof
       (read_and_store env remote_path local_path pos)
       (fun e => log (LogChunkFailed e) ;; raise e)%M).
Proof.
  unfold read_and_store, local_write, report_progress.
  apply emits_try_except; [|intros e; emits_auto].
  apply emits_bind; [emits_auto|intros n]. cbv zeta.
  destruct (PyStr.take _ _); emits_auto.
Qed.

Lemma watchdog_run w :
  watchdog env w
  = let t := env_clock env (w_tick w) in
    let w1 := with_event (EvClock t) (with_tick w) in
    if time_mod_is_zero t 10 then
      match transport (w_eng w) with
      | Some _ =>
          let answer := env_fault env OpSendIgnore (S (w_tick w)) in
          let w2 := with_event (EvCall OpSendIgnore answer) (with_tick w1) in
          match answer with
          | None => (Ok tt, w2)
          | Some _ =>
              (Raise (SSHException "Connection watchdog triggered"), w2)
          end
      | None => (Raise (SSHException "Connection watchdog triggered"), w1)
      end
    else (Ok tt, w1).
Proof.
  unfold watchdog, verify_connection, bind, try_except, clock, get_eng, ask,
    ret, raise. simpl.
  destruct (time_mod_is_zero (env_clock env (w_tick w)) 10); [|reflexivity].
  destruct (transport (w_eng w)) as [tr|] eqn:Et;
    destruct (env_fault env OpSendIgnore (S (w_tick w))) as [e|] eqn:Ef;
    simpl; rewrite ?Et; simpl; rewrite ?Ef; reflexivity.
Qed.

(** What a pass does about the probe, by the reading [t] of the clock at
    its head. *)
Lemma chunk_step_probe pos w :
  let t := env_clock env (w_tick w) in
  let p := chunk_step env remote_path local_path pos w in
  exists rest,
    w_trace (snd p) = w_trace w ++ EvClock t :: rest
    /\ if time_mod_is_zero t 10 then
         match transport (w_eng w) with
         | Some _ =>
             let answer := env_fault env OpSendIgnore (S (w_tick w)) in
             exists rest',
               rest = EvCall OpSendIgnore answer :: rest'
               /\ Forall (fun ev => is_probe ev = false) rest'
               /\ (answer <> None ->
                   fst p = Raise (SSHException "Connection watchdog triggered")
                   /\ rest' = [])
         | None =>
             fst p = Raise (SSHException "Connection watchdog triggered")
             /\ rest = []
         end
       else Forall (fun ev => is_probe ev = false) rest.
Proof.
  intros t p. unfold p, chunk_step, bind. rewrite watchdog_run. cbv zeta.
  fold t.
  destruct (time_mod_is_zero t 10) eqn:Eg.
  - destruct (transport (w_eng w)) as [tr|] eqn:Et.
    + destruct (env_fault env OpSendIgnore (S (w_tick w))) as [e|] eqn:Ef.
      * exists [EvCall OpSendIgnore (Some e)]. simpl.
        rewrite <- app_assoc. split; [reflexivity|].
        exists []. split; [reflexivity|]. split; [constructor|].
        intros _. split; reflexivity.
      * match goal with
        | |- context [try_except is_ssh_or_eof ?m ?h ?w1] =>
            destruct (try_except is_ssh_or_eof m h w1) as [r w'] eqn:Hrest
        end.
        destruct (read_and_store_no_probe pos _ _ _ Hrest) as (evs & Ht & Hf).
        simpl in Ht. rewrite <- !app_assoc in Ht. simpl in Ht.
        exists (EvCall OpSendIgnore None :: evs). simpl. split; [exact Ht|].
        exists evs. split; [reflexivity|]. split; [exact Hf|].
        intros Hc. contradiction.
    + exists []. simpl. split; [reflexivity|]. split; reflexivity.
  - match goal with
    | |- context [try_except is_ssh_or_eof ?m ?h ?w1] =>
        destruct (try_except is_ssh_or_eof m h w1) as [r w'] eqn:Hrest
    end.
    destruct (read_and_store_no_probe pos _ _ _ Hrest) as (evs & Ht & Hf).
    simpl in Ht. rewrite <- !app_assoc in Ht. simpl in Ht.
    exists evs. simpl. split; [exact Ht | exact Hf].
Qed.

(** An exception out of a pass ends the download with that exception. *)
Lemma pass_failure_ends_download w pos0 w0 pos w1 e w2 :
  start_transfer env remote_path local_path w = (Ok (Some pos0), w0) ->
  loop_reaches env remote_path local_path (pos0, w0) (pos, w1) ->
  last_byte (w_eng w1) < file_size (w_eng w1) ->
  chunk_step env remote_path local_path pos w1 = (Raise e, w2) ->
  download_with_armor env remote_path local_path w
  = (Raise e,
     with_event (EvLog (LogTransferFailed (last_byte (w_eng w2)) e)) w2).
Proof.
  intros Hstart Hreach Hguard Hstep.
  unfold download_with_armor, try_except.
  rewrite (bind_ok _ _ _ _ _ Hstart).
  assert (Hloop : transfer_chunks env remote_path local_path pos0 w0
                  = (Raise e, w2)).
  { pose proof (loop_reaches_on_path _ _ _ _ _ _ Hreach) as Hp.
    simpl in Hp. rewrite Hp, transfer_chunks_unfold.
    apply Z.ltb_lt in Hguard. rewrite Hguard, Hstep. reflexivity. }
  rewrite (bind_raise _ _ _ _ _ Hloop). reflexivity.
Qed.

End Watchdog.

(** C7, as the code has it.  The probe is gated by the reading of the clock
    at the head of each pass of the loop: it is sent in exactly the passes
    whose reading is a whole multiple of 10 s, once per pass; readings that
    pass the gate are equal or at least 10 s apart; and a probe that reports
    not-alive makes the pass raise, which ends the download with that
    exception. *)
Theorem watchdog_gate_and_abort :
  (forall env remote_path local_path pos w,
      let t := env_clock env (w_tick w) in
      let p := chunk_step env remote_path local_path pos w in
      exists rest,
        w_trace (snd p) = w_trace w ++ EvClock t :: rest
        /\ if time_mod_is_zero t 10 then
             match transport (w_eng w) with
             | Some _ =>
                 let answer := env_fault env OpSendIgnore (S (w_tick w)) in
                 exists rest',
                   rest = EvCall OpSendIgnore answer :: rest'
                   /\ Forall (fun ev => is_probe ev = false) rest'
                   /\ (answer <> None ->
                       fst p
                       = Raise (SSHException "Connection watchdog triggered")
                       /\ rest' = [])
             | None =>
                 fst p = Raise (SSHException "Connection watchdog triggered")
                 /\ rest = []
             end
           else Forall (fun ev => is_probe ev = false) rest)
  /\ (forall t1 t2,
        time_mod_is_zero t1 10 = true -> time_mod_is_zero t2 10 = true ->
        (t1 < t2)%Q -> (t1 + inject_Z 10 <= t2)%Q)
  /\ (forall env remote_path local_path w pos0 w0 pos w1 e w2,
        start_transfer env remote_path local_path w = (Ok (Some pos0), w0) ->
        loop_reaches env remote_path local_path (pos0, w0) (pos, w1) ->
        last_byte (w_eng w1) < file_size (w_eng w1) ->
        chunk_step env remote_path local_path pos w1 = (Raise e, w2) ->
        download_with_armor env remote_path local_path w
        = (Raise e,
           with_event (EvLog (LogTransferFailed (last_byte (w_eng w2)) e)) w2)).
Proof.
  split; [exact chunk_step_probe|]. split.
  - intros t1 t2. apply gate_spacing. lia.
  - exact pass_failure_ends_download.
Qed.

(** C7 as stated fails: with a clock that reads 10 s at every reading the
    probe is sent in both passes of this download, no time apart. *)
Lemma probes_without_interval :
  exists w',
    download_with_armor Examples.frozen_at_10 "/remote/f" "/local/f"
      (Examples.connected ∅)
    = (Raise (IOError "Final size verification failed"), w')
    /\ w_trace w'
       = [EvCall OpStat None; EvLog (LogTargetSize 10);
          EvLog (LogResumePoint 0); EvCall OpRemoteOpen None;
          EvCall OpLocalOpen None;
          EvClock (10 # 1); EvCall OpSendIgnore None;
          EvCall OpRead None; EvCall OpLocalWrite None; EvClock (10 # 1);
          EvClock (10 # 1); EvCall OpSendIgnore None;
          EvCall OpRead None;
          EvLog (LogTransferFailed 5
                   (IOError "Final size verification failed"))]
    /\ probe_times (w_trace w') = [(10 # 1)%Q; (10 # 1)%Q].
Proof.
  eexists. split; [apply run_eta; vm_compute; reflexivity|].
  split; vm_compute; reflexivity.
Qed.


(** ** What each part of an attempt emits *)

Section PhaseEvents.

Variable cfg : Config.
Variable env : Env.

Lemma connect_emits :
  emits (fun ev => connect_event ev = true) (connect env).
Proof. unfold connect, on_transport. emits_auto. Qed.

Lemma chunk_step_emits rp lp pos :
  emits (fun ev => download_event ev = true) (chunk_step env rp lp pos).
Proof.
  unfold chunk_step, watchdog, verify_connection, read_and_store,
    local_write, report_progress.
  apply emits_bind; [emits_auto|intros _].
  apply emits_try_except; [|intros e; emits_auto].
  apply emits_bind; [emits_auto|intros n]. cbv zeta.
  destruct (PyStr.take _ _); emits_auto.
Qed.

Lemma start_transfer_emits rp lp :
  emits (fun ev => download_event ev = true) (start_transfer env rp lp).
Proof.
  unfold start_transfer, sftp_call, size_or_zero, local_open. emits_auto.
Qed.

Lemma transfer_chunks_emits rp lp pos :
  emits (fun ev => download_event ev = true) (transfer_chunks env rp lp pos).
Proof.
  unfold transfer_chunks. apply emits_bind; [emits_auto|intros e].
  apply chunk_loop_emits. intros p. apply chunk_step_emits.
Qed.

Lemma verify_size_emits lp :
  emits (fun ev => download_event ev = true) (verify_size lp).
Proof. unfold verify_size, getsize. emits_auto. Qed.

Lemma download_emits rp lp :
  emits (fun ev => download_event ev = true) (download_with_armor env rp lp).
Proof.
  unfold download_with_armor, transfer_failed.
  apply emits_try_except; [|intros e; emits_auto].
  apply emits_bind; [apply start_transfer_emits|].
  intros [pos|]; [|emits_auto].
  apply emits_bind; [apply transfer_chunks_emits|].
  intros _. apply verify_size_emits.
Qed.

Lemma sync_emits f lp :
  emits (fun ev => sync_event ev = true) (sync_to_server cfg env f lp).
Proof. unfold sync_to_server. emits_auto. Qed.

Lemma sync_never_raises f lp : never_raises (sync_to_server cfg env f lp).
Proof.
  intros w. unfold sync_to_server, try_except.
  match goal with
  | |- context [match ?m w with _ => _ end] =>
      destruct (m w) as [[[]|e] w1]
  end; [eauto|].
  simpl. unfold log, emit. eauto.
Qed.

Lemma start_transfer_complete rp lp w w' :
  start_transfer env rp lp w = (Ok None, w') ->
  w_trace w'
  = w_trace w
    ++ [EvCall OpStat None;
        EvLog (LogTargetSize (PyStr.len (env_remote env (w_tick w) rp)));
        EvLog LogAlreadyComplete]
  /\ w_fs w' = w_fs w.
Proof.
  intros H.
  unfold start_transfer, sftp_call, size_or_zero, local_open in H.
  unfold_monad H.
  destruct (sftp (w_eng w)) as [ch|] eqn:Es; simpl in H; [|discriminate].
  destruct (env_fault env OpStat (w_tick w)) eqn:Ef; simpl in H; [discriminate|].
  destruct (w_fs w !! lp) as [content|] eqn:El; simpl in H.
  - destruct (PyStr.len (env_remote env (w_tick w) rp) <=? PyStr.len content);
      simpl in H.
    + injection H as <-. simpl. rewrite <- !app_assoc. auto.
    + rewrite Es in H. simpl in H.
      destruct (env_fault env OpRemoteOpen (S (w_tick w))); simpl in H; [discriminate|].
      destruct (env_fault env OpLocalOpen (S (S (w_tick w)))); simpl in H; discriminate.
  - destruct (PyStr.len (env_remote env (w_tick w) rp) <=? 0); simpl in H.
    + injection H as <-. simpl. rewrite <- !app_assoc. auto.
    + rewrite Es in H. simpl in H.
      destruct (env_fault env OpRemoteOpen (S (w_tick w))); simpl in H; [discriminate|].
      destruct (env_fault env OpLocalOpen (S (S (w_tick w)))); simpl in H; discriminate.
Qed.

Lemma verify_size_true lp w b w' :
  verify_size lp w = (Ok b, w') ->
  b = true /\ w' = with_event (EvLog LogVerified) w
  /\ exists content, w_fs w !! lp = Some content
       /\ PyStr.len content = file_size (w_eng w).
Proof.
  unfold verify_size, getsize. intros H. unfold_monad H.
  destruct (w_fs w !! lp) as [content|]; simpl in H; [|discriminate].
  destruct (Z.eqb_spec (PyStr.len content) (file_size (w_eng w))); simpl in H;
    [|discriminate].
  injection H as <- <-. eauto.
Qed.

(** [download_with_armor] returns true or raises, and a return is the
    last thing it logs. *)
Lemma download_returns rp lp w b w' :
  download_with_armor env rp lp w = (Ok b, w') ->
  b = true
  /\ exists evs ev,
       w_trace w' = w_trace w ++ evs ++ [ev]
       /\ download_succeeded ev = true
       /\ Forall (fun ev => download_event ev = true) evs.
Proof.
  intros H. unfold download_with_armor in H.
  apply try_except_inv in H
    as [(a & H & [= <-]) | [(e & _ & Hc & _) | (e & w1 & _ & _ & H)]].
  2:{ discriminate. }
  2:{ unfold transfer_failed in H.
      apply bind_inv in H as [(eng & w2 & _ & H) | (e' & _ & [=])].
      apply bind_inv in H as [(u & w3 & _ & H) | (e' & _ & [=])].
      discriminate. }
  apply bind_inv in H as [(started & w1 & Hs & H) | (e' & _ & [=])].
  destruct started as [pos|].
  - apply bind_inv in H as [(u & w2 & Hl & H) | (e' & _ & [=])].
    apply verify_size_true in H as (-> & -> & _).
    destruct (start_transfer_emits _ _ _ _ _ Hs) as (e1 & T1 & F1).
    destruct (transfer_chunks_emits _ _ _ _ _ _ Hl) as (e2 & T2 & F2).
    split; [reflexivity|]. exists (e1 ++ e2), (EvLog LogVerified).
    simpl. rewrite T2, T1, <- !app_assoc.
    split; [reflexivity|]. split; [reflexivity|]. apply Forall_app; auto.
  - injection H as <- <-. split; [reflexivity|].
    apply start_transfer_complete in Hs as [Hs _].
    exists [EvCall OpStat None;
            EvLog (LogTargetSize (PyStr.len (env_remote env (w_tick w) rp)))],
      (EvLog LogAlreadyComplete).
    split; [exact Hs|]. split; [reflexivity|]. repeat constructor.
Qed.

End PhaseEvents.


(** ** The body of an attempt *)

Section AttemptBody.

Variable cfg : Config.
Variable env : Env.

Lemma read_last_date_shape w r w' :
  read_last_date cfg env w = (r, w') ->
  exists reads,
    w_trace w' = w_trace w ++ reads
    /\ (reads = [] \/ exists x, reads = [EvCall OpRecordRead x]).
Proof.
  unfold read_last_date. intros H. unfold_monad H.
  destruct (w_fs w !! record_file cfg) as [content|]; simpl in H.
  - exists [EvCall OpRecordRead (env_fault env OpRecordRead (w_tick w))].
    split; [|right; eauto].
    destruct (env_fault env OpRecordRead (w_tick w)); simpl in H;
      injection H as <- <-; reflexivity.
  - injection H as <- <-. exists []. rewrite app_nil_r. auto.
Qed.

Lemma select_shape w r w' :
  select_remote_file cfg env w = (r, w') ->
  exists reads listing,
    w_trace w' = w_trace w ++ reads ++ listing
    /\ (reads = [] \/ exists x, reads = [EvCall OpRecordRead x])
    /\ Forall (fun ev => listing_event ev = true) listing.
Proof.
  unfold select_remote_file. intros H.
  apply bind_inv in H as [(last & w1 & H1 & H2) | (e & H1 & ->)].
  - destruct (read_last_date_shape _ _ _ H1) as (reads & T1 & Hr).
    assert (Hl : emits (fun ev => listing_event ev = true)
                   (n <- sftp_call env OpListdir ;;
                    let files := ipi_files (env_listdir env n) in
                    match files with
                    | [] => log LogNoMatching ;; ret (inl ExitNoMatching)
                    | _ =>
                        match filtered_files last files with
                        | [] => log LogNoNew ;; ret (inl ExitNothingNew)
                        | first :: rest =>
                            match min_by_date first rest with
                            | Some remote_file => ret (inr remote_file)
                            | None => raise TypeError
                            end
                        end
                    end)%M).
    { unfold sftp_call. apply emits_bind; [emits_auto|intros n]. cbv zeta.
      destruct (ipi_files (env_listdir env n)); [emits_auto|].
      destruct (filtered_files last (s :: l)) as [|first rest]; [emits_auto|].
      destruct (min_by_date first rest); emits_auto. }
    destruct (Hl _ _ _ H2) as (listing & T2 & Hf).
    exists reads, listing. rewrite T2, T1, <- app_assoc. auto.
  - destruct (read_last_date_shape _ _ _ H1) as (reads & T1 & Hr).
    exists reads, []. rewrite app_nil_r. auto.
Qed.

Lemma write_record_shape f w r w' :
  write_record cfg env f w = (r, w') ->
  (exists e, r = Raise e
     /\ w_trace w' = w_trace w ++ [EvCall OpRecordOpen (Some e)]
     /\ w_fs w' = w_fs w)
  \/ (exists e, r = Raise e
        /\ w_trace w'
           = w_trace w ++ [EvCall OpRecordOpen None;
                           EvCall OpRecordWrite (Some e)]
        /\ w_fs w' = <[record_file cfg := EmptyString]> (w_fs w))
  \/ (r = Ok tt
      /\ w_trace w'
         = w_trace w ++ [EvCall OpRecordOpen None; EvCall OpRecordWrite None]
      /\ w_fs w' !! record_file cfg = Some f).
Proof.
  unfold write_record. intros H. unfold_monad H.
  destruct (env_fault env OpRecordOpen (w_tick w)) as [e|]; simpl in H.
  - injection H as <- <-. left. exists e. simpl. auto.
  - destruct (env_fault env OpRecordWrite (S (w_tick w))) as [e|]; simpl in H;
      injection H as <- <-; right; [left; exists e | right]; simpl;
      rewrite <- app_assoc; simpl; repeat split.
    apply lookup_insert_eq.
Qed.

Lemma fetch_shape f w r w' :
  fetch cfg env f w = (r, w') ->
  exists fetched written synced,
    w_trace w' = w_trace w ++ fetched ++ written ++ synced
    /\ Forall (fun ev => download_event ev = true) fetched
    /\ Forall (fun ev => sync_event ev = true) synced
    /\ ((written = [] /\ synced = []
         /\ forall g, result_of r <> Returned (ExitDone g))
        \/ ((exists pre ev,
               fetched = pre ++ [ev] /\ download_succeeded ev = true)
            /\ ((exists e,
                   written = [EvCall OpRecordOpen (Some e)]
                   /\ synced = [] /\ result_of r = Failed e)
                \/ (exists e,
                      written = [EvCall OpRecordOpen None;
                                 EvCall OpRecordWrite (Some e)]
                      /\ synced = [] /\ result_of r = Failed e)
                \/ (exists g,
                      written = [EvCall OpRecordOpen None;
                                 EvCall OpRecordWrite None]
                      /\ result_of r = Returned (ExitDone g)))))
    /\ r <> Ok None.
Proof.
  unfold fetch. intros H.
  set (P := fun ev => download_event ev = true).
  assert (Hmk : emits P (ask env OpMakedirsLocal)) by (unfold P; emits_auto).
  apply bind_inv in H as [(n & w1 & H1 & H2) | (e & H1 & ->)].
  2:{ destruct (Hmk _ _ _ H1) as (e1 & T1 & F1).
      exists e1, [], []. rewrite !app_nil_r.
      split; [exact T1|]. split; [exact F1|]. split; [constructor|].
      split; [|discriminate]. left. repeat split. intros g. discriminate. }
  destruct (Hmk _ _ _ H1) as (e1 & T1 & F1).
  apply bind_inv in H2 as [(ok & w2 & H2 & H3) | (e & H2 & ->)].
  2:{ destruct (download_emits env _ _ _ _ _ H2) as (e2 & T2 & F2).
      exists (e1 ++ e2), [], []. rewrite !app_nil_r, T2, T1, <- app_assoc.
      split; [reflexivity|]. split; [apply Forall_app; auto|].
      split; [constructor|]. split; [|discriminate].
      left. repeat split. intros g. discriminate. }
  destruct (download_returns env _ _ _ _ _ H2) as (-> & e2 & ev & T2 & Hev & F2).
  unfold record_and_sync in H3.
  assert (Hfetched : exists pre ev0,
             e1 ++ e2 ++ [ev] = pre ++ [ev0] /\ download_succeeded ev0 = true).
  { exists (e1 ++ e2), ev. rewrite <- app_assoc. auto. }
  assert (Hdl : Forall P (e1 ++ e2 ++ [ev])).
  { apply Forall_app. split; [exact F1|]. apply Forall_app. split; [exact F2|].
    constructor; [|constructor]. unfold P. destruct ev as [| | |[]|]; try discriminate; reflexivity. }
  apply bind_inv in H3 as [(x & w3 & H3 & H4) | (e & H3 & ->)].
  2:{ apply bind_inv in H3 as [([] & w4 & H3 & H5) | (e' & H3 & [= ->])].
      - apply bind_inv in H5 as [([] & w5 & _ & H5) | (e' & [=] & _)].
        apply bind_inv in H5 as [([] & w6 & _ & H5) | (e' & H5 & _)];
          [discriminate|].
        destruct (sync_never_raises cfg env f (local_file cfg f) w5)
          as (a & w7 & Hs). congruence.
      - apply write_record_shape in H3
          as [(e0 & [= <-] & T3 & _) | [(e0 & [= <-] & T3 & _) | ([=] & _)]].
        + exists (e1 ++ e2 ++ [ev]), [EvCall OpRecordOpen (Some e')], [].
          rewrite app_nil_r, T3, T2, T1, <- !app_assoc.
          split; [reflexivity|]. split; [exact Hdl|]. split; [constructor|].
          split; [|discriminate]. right. split; [exact Hfetched|].
          left. exists e'. auto.
        + exists (e1 ++ e2 ++ [ev]),
            [EvCall OpRecordOpen None; EvCall OpRecordWrite (Some e')], [].
          rewrite app_nil_r, T3, T2, T1, <- !app_assoc.
          split; [reflexivity|]. split; [exact Hdl|]. split; [constructor|].
          split; [|discriminate]. right. split; [exact Hfetched|].
          right. left. exists e'. auto. }
  injection H4 as <- <-.
  apply bind_inv in H3 as [([] & w4 & H3 & H5) | (e' & _ & [=])].
  apply write_record_shape in H3
    as [(e0 & [=] & _) | [(e0 & [=] & _) | (_ & T3 & _)]].
  assert (Hsy : emits (fun ev => sync_event ev = true)
                  (log LogMission ;;
                   sync_to_server cfg env f (local_file cfg f) ;;
                   ret (ExitDone f))%M).
  { apply emits_bind; [emits_auto|intros _].
    apply emits_bind; [apply sync_emits|intros _]. apply emits_ret. }
  pose proof H5 as H5'.
  destruct (Hsy _ _ _ H5) as (e3 & T4 & F4).
  apply bind_inv in H5' as [([] & w5 & _ & H6) | (e' & [=] & _)].
  apply bind_inv in H6 as [([] & w6 & _ & H6) | (e' & _ & [=])].
  injection H6 as <- _.
  exists (e1 ++ e2 ++ [ev]),
    [EvCall OpRecordOpen None; EvCall OpRecordWrite None], e3.
  rewrite T4, T3, T2, T1, <- !app_assoc.
  split; [reflexivity|]. split; [exact Hdl|]. split; [exact F4|].
  split; [|discriminate]. right. split; [exact Hfetched|].
  right. right. exists f. auto.
Qed.

End AttemptBody.


(** ** One attempt, and the run *)

Section Attempts.

Variable cfg : Config.
Variable env : Env.

Lemma select_exits w x w' :
  select_remote_file cfg env w = (Ok (inl x), w') ->
  x = ExitNoMatching \/ x = ExitNothingNew.
Proof.
  unfold select_remote_file, sftp_call. intros H.
  apply bind_inv in H as [(last & w1 & _ & H) | (e & _ & [=])].
  apply bind_inv in H as [(n & w2 & _ & H) | (e & _ & [=])].
  cbv zeta in H.
  destruct (ipi_files (env_listdir env n)) as [|s l].
  - unfold_monad H. injection H as <- _. auto.
  - destruct (filtered_files last (s :: l)) as [|first rest].
    + unfold_monad H. injection H as <- _. auto.
    + destruct (min_by_date first rest); discriminate.
Qed.

Lemma attempt_body_shape attempt w r w' :
  attempt_body cfg env attempt w = (r, w') ->
  exists body,
    w_trace w' = w_trace w ++ EvLog (LogAttempt (attempt + 1)) :: body
    /\ body_shape (result_of r) body
    /\ r <> Ok None.
Proof.
  unfold attempt_body. intros H.
  apply bind_inv in H as [([] & w0 & [= <-] & H) | (e & [=] & _)].
  apply bind_inv in H as [([] & w1 & H1 & H) | (e & H1 & ->)].
  2:{ destruct (connect_emits env _ _ _ H1) as (conn & T1 & F1).
      exists conn. simpl in T1. rewrite <- app_assoc in T1.
      split; [exact T1|]. split; [|discriminate].
      exists conn, [], [], [], [], []. rewrite !app_nil_r.
      repeat split; auto; left; repeat split; intros f; discriminate. }
  destruct (connect_emits env _ _ _ H1) as (conn & T1 & F1).
  simpl in T1. rewrite <- app_assoc in T1. simpl in T1.
  apply bind_inv in H as [(sel & w2 & H2 & H) | (e & H2 & ->)].
  2:{ destruct (select_shape cfg env _ _ _ H2) as (reads & listing & T2 & Hr & Hl).
      exists (conn ++ reads ++ listing). rewrite T2, T1, <- app_assoc.
      split; [reflexivity|]. split; [|discriminate].
      exists conn, reads, listing, [], [], []. rewrite !app_nil_r.
      repeat split; auto; left; repeat split; intros f; discriminate. }
  destruct (select_shape cfg env _ _ _ H2) as (reads & listing & T2 & Hr & Hl).
  destruct sel as [x|f].
  - injection H as <- <-.
    exists (conn ++ reads ++ listing). rewrite T2, T1, <- app_assoc.
    split; [reflexivity|]. split; [|discriminate].
    exists conn, reads, listing, [], [], []. rewrite !app_nil_r.
    repeat split; auto; left; repeat split; intros f; simpl;
      destruct (select_exits _ _ _ H2) as [-> | ->]; discriminate.
  - destruct (fetch_shape cfg env _ _ _ _ H)
      as (fetched & written & synced & T3 & Ff & Fs & Hw & Hn).
    exists (conn ++ reads ++ listing ++ fetched ++ written ++ synced).
    rewrite T3, T2, T1, <- !app_assoc.
    split; [reflexivity|]. split; [|exact Hn].
    exists conn, reads, listing, fetched, written, synced.
    repeat split; auto.
Qed.

Lemma backoff_available attempt :
  (attempt <? MAX_RETRIES - 1)%nat = true ->
  exists delay, RETRY_BACKOFF !! attempt = Some delay.
Proof.
  intros H. apply Nat.ltb_lt in H. unfold MAX_RETRIES in H.
  do 6 (destruct attempt as [|attempt]; [simpl; eauto|]). lia.
Qed.

Lemma on_failure_run attempt e w :
  on_failure attempt e w
  = (Ok (Failed e),
     {| w_eng := w_eng w; w_fs := w_fs w; w_tick := w_tick w;
        w_trace := w_trace w ++ failure_events attempt e |}).
Proof.
  unfold on_failure, failure_events.
  destruct (attempt <? MAX_RETRIES - 1)%nat eqn:E.
  - destruct (backoff_available _ E) as [delay Hd]. rewrite Hd.
    unfold bind, log, sleep, emit, ret, with_event. simpl.
    rewrite <- !app_assoc. reflexivity.
  - unfold bind, log, sleep, emit, ret, with_event. simpl. reflexivity.
Qed.

(** One iteration of the [for] loop: it never raises, and its events are
    those of the body, of the [except] clause when the body raised, and of
    [close]. *)
Lemma run_attempt_shape attempt w :
  exists a w',
    run_attempt cfg env attempt w = (Ok (at_result a), w')
    /\ w_trace w' = w_trace w ++ attempt_events attempt a
    /\ well_formed_attempt a.
Proof.
  unfold run_attempt, try_finally, try_except, bind.
  destruct (attempt_body cfg env attempt w) as [r w1] eqn:Hb.
  destruct (attempt_body_shape _ _ _ _ Hb) as (body & T1 & Hs & Hn).
  destruct r as [[x|]|e]; [| contradiction |].
  - simpl. destruct (close_runs env w1) as (w2 & ops & Hc & T2 & Fc & _).
    rewrite Hc.
    exists {| at_body := body; at_result := Returned x; at_close := ops |}, w2.
    split; [reflexivity|]. split.
    + unfold attempt_events. simpl. rewrite T2, T1, <- app_assoc. reflexivity.
    + split; [exact Hs|]. split; [exact Fc | discriminate].
  - simpl. rewrite on_failure_run.
    match goal with
    | |- context [close env ?w1'] =>
        destruct (close_runs env w1') as (w2 & ops & Hc & T2 & Fc & _)
    end.
    rewrite Hc.
    exists {| at_body := body; at_result := Failed e; at_close := ops |}, w2.
    split; [reflexivity|]. split.
    + unfold attempt_events. simpl in *. rewrite T2, T1, <- !app_assoc.
      reflexivity.
    + split; [exact Hs|]. split; [exact Fc | discriminate].
Qed.

End Attempts.


(** ** The run *)

Section Run.

Variable cfg : Config.
Variable env : Env.

Lemma attempts_structure n : forall k last w,
  exists ats x ending w',
    attempts cfg env (seq k n) last w = (Ok x, w')
    /\ w_trace w' = w_trace w ++ run_events k ats ++ ending
    /\ Forall well_formed_attempt ats
    /\ run_ends n last ats x ending.
Proof.
  induction n as [|n IH]; intros k last w.
  - exists [], (ExitExhausted last), [EvLog (LogOperationFailed last)].
    eexists. simpl. unfold bind, log, emit, ret.
    split; [reflexivity|]. simpl. auto.
  - simpl seq. simpl attempts. unfold bind.
    destruct (run_attempt_shape cfg env k w) as (a & w1 & Hr & T1 & Hwf).
    rewrite Hr.
    destruct (at_result a) as [x| |e] eqn:Eres.
    + exists [a], x, [], w1. unfold ret.
      split; [reflexivity|].
      change (run_events k [a]) with (attempt_events k a ++ []).
      rewrite !app_nil_r.
      split; [exact T1|]. split; [auto|]. simpl. rewrite Eres. auto.
    + destruct Hwf as (_ & _ & Hn). contradiction.
    + destruct (IH (S k) (Some e) w1) as (ats & x & ending & w' & Ha & T2 & Hf & He).
      exists (a :: ats), x, ending, w'.
      split; [exact Ha|].
      change (run_events k (a :: ats))
        with (attempt_events k a ++ run_events (S k) ats).
      rewrite T2, T1, <- !app_assoc.
      split; [reflexivity|]. split; [auto|]. simpl. rewrite Eres. exact He.
Qed.

(** The trace of a run: the banner, then the attempts one after another,
    each closed by [close()], then (only when every attempt failed) the line
    that reports the last error. *)
Lemma main_structure w :
  exists ats x ending w',
    main cfg env w = (Ok x, w')
    /\ w_trace w' = w_trace w ++ EvLog LogBanner :: run_events 0 ats ++ ending
    /\ Forall well_formed_attempt ats
    /\ run_ends MAX_RETRIES None ats x ending.
Proof.
  unfold main, bind, log, emit, update_eng.
  match goal with
  | |- context [attempts cfg env _ None ?w0] =>
      destruct (attempts_structure MAX_RETRIES 0 None w0)
        as (ats & x & ending & w' & Ha & T & Hf & He)
  end.
  exists ats, x, ending, w'. split; [exact Ha|].
  simpl in T. rewrite T, <- app_assoc. auto.
Qed.

End Run.

(** ** Projections of a run *)

Lemma filter_none {A} (f : A -> bool) (P : A -> Prop) l :
  Forall P l -> (forall x, P x -> f x = false) -> List.filter f l = [].
Proof.
  intros Hl Hf. induction Hl as [|x l Hx Hl IH]; [reflexivity|].
  simpl. rewrite (Hf x Hx). exact IH.
Qed.

Lemma body_shape_events res body :
  body_shape res body -> Forall (fun ev => body_event ev = true) body.
Proof.
  intros (conn & reads & listing & fetched & written & synced
          & -> & Fc & Hr & Fl & Ff & Fs & Hw).
  assert (Hcls : forall (c : Event -> bool) l,
             (forall ev, c ev = true -> body_event ev = true) ->
             Forall (fun ev => c ev = true) l ->
             Forall (fun ev => body_event ev = true) l).
  { intros c l Hc Hl. eapply Forall_impl; [exact Hl | exact Hc]. }
  assert (Hconn : Forall (fun ev => body_event ev = true) conn).
  { apply (Hcls connect_event); [|exact Fc].
    intros ev; destruct ev as [op r|t|d|line|]; try discriminate;
      [destruct op | destruct line]; simpl; congruence. }
  assert (Hreads : Forall (fun ev => body_event ev = true) reads).
  { destruct Hr as [-> | [r ->]]; repeat constructor. }
  assert (Hlist : Forall (fun ev => body_event ev = true) listing).
  { apply (Hcls listing_event); [|exact Fl].
    intros ev; destruct ev as [op r|t|d|line|]; try discriminate;
      [destruct op | destruct line]; simpl; congruence. }
  assert (Hfetch : Forall (fun ev => body_event ev = true) fetched).
  { apply (Hcls download_event); [|exact Ff].
    intros ev; destruct ev as [op r|t|d|line|]; try discriminate;
      [destruct op | reflexivity | destruct line]; simpl; congruence. }
  assert (Hwritten : Forall (fun ev => body_event ev = true) written).
  { destruct Hw as [(-> & _) | (_ & [(e & -> & _) | [(e & -> & _) | (f & -> & _)]])];
      repeat constructor. }
  assert (Hsync : Forall (fun ev => body_event ev = true) synced).
  { apply (Hcls sync_event); [|exact Fs].
    intros ev; destruct ev as [op r|t|d|line|]; try discriminate;
      [destruct op | destruct line]; simpl; congruence. }
  apply Forall_app; split; [exact Hconn|].
  apply Forall_app; split; [exact Hreads|].
  apply Forall_app; split; [exact Hlist|].
  apply Forall_app; split; [exact Hfetch|].
  apply Forall_app; split; [exact Hwritten | exact Hsync].
Qed.

Lemma filter_attempt_events (f : Event -> bool) attempt a :
  well_formed_attempt a ->
  (forall ev, body_event ev = true -> f ev = false) ->
  (forall ev, close_op ev = true -> f ev = false) ->
  List.filter f (attempt_events attempt a)
  = List.filter f [EvLog (LogAttempt (attempt + 1))]
    ++ List.filter f (handler_events attempt (at_result a))
    ++ List.filter f [EvClose].
Proof.
  intros (Hs & Hc & _) Hb Hcl. unfold attempt_events.
  change (EvLog (LogAttempt (attempt + 1))
          :: at_body a ++ handler_events attempt (at_result a)
             ++ EvClose :: at_close a)
    with ([EvLog (LogAttempt (attempt + 1))]
          ++ at_body a ++ handler_events attempt (at_result a)
             ++ [EvClose] ++ at_close a).
  rewrite !List.filter_app.
  rewrite (filter_none f _ (at_body a) (body_shape_events _ _ Hs) Hb).
  rewrite (filter_none f _ (at_close a) Hc Hcl).
  rewrite app_nil_r. reflexivity.
Qed.

Lemma run_ends_length n : forall last ats x ending,
  run_ends n last ats x ending ->
  (length ats <= n)%nat
  /\ (0 < n -> 0 < length ats)%nat
  /\ (ending = [] \/ exists l, ending = [EvLog (LogOperationFailed l)]).
Proof.
  induction n as [|n IH]; intros last ats x ending H.
  - destruct ats; [|contradiction]. destruct H as [_ ->].
    simpl. split; [lia|]. split; [lia|]. eauto.
  - destruct ats as [|a rest]; [contradiction|]. simpl in H.
    destruct (at_result a); [| contradiction |].
    + destruct H as (-> & _ & ->). simpl. split; [lia|]. split; [lia|]. auto.
    + destruct (IH _ _ _ _ H) as (Hl & _ & He). simpl.
      split; [lia|]. split; [lia|]. exact He.
Qed.

Lemma handler_events_no_close attempt r :
  List.filter is_attempt_or_close (handler_events attempt r) = [].
Proof.
  destruct r as [x| |e]; try reflexivity.
  unfold handler_events, failure_events.
  destruct (attempt <? MAX_RETRIES - 1)%nat; [|reflexivity].
  destruct (RETRY_BACKOFF !! attempt); reflexivity.
Qed.

Lemma closes_alternate ats : forall k,
  Forall well_formed_attempt ats ->
  List.filter is_attempt_or_close (run_events k ats)
  = flat_map (fun i => [EvLog (LogAttempt (i + 1)); EvClose])
      (seq k (length ats)).
Proof.
  induction ats as [|a rest IH]; intros k Hwf; [reflexivity|].
  apply Forall_cons in Hwf as [Ha Hrest].
  change (run_events k (a :: rest))
    with (attempt_events k a ++ run_events (S k) rest).
  rewrite List.filter_app, (IH (S k) Hrest).
  rewrite (filter_attempt_events is_attempt_or_close k a Ha).
  - rewrite handler_events_no_close. reflexivity.
  - intros ev; destruct ev as [op r|t|d|line|]; try discriminate; try reflexivity.
    destruct line; try discriminate; reflexivity.
  - intros ev; destruct ev as [op r|t|d|line|]; try discriminate; reflexivity.
Qed.

(** C6.  [close()] never raises, whatever the state of the connection; and
    in every run each attempt's events end with [close()] and what it
    sends: between the start of an attempt and the start of the next (or the
    end of the run) [close()] is entered exactly once, whether the attempt
    returned or failed. *)
Theorem close_never_raises_and_ends_every_attempt :
  forall cfg env,
    never_raises (close env)
    /\ forall w,
         exists ats x ending w',
           main cfg env w = (Ok x, w')
           /\ w_trace w'
              = w_trace w ++ EvLog LogBanner :: run_events 0 ats ++ ending
           /\ Forall (fun a => Forall (fun ev => close_op ev = true)
                                 (at_close a)) ats
           /\ (1 <= length ats <= MAX_RETRIES)%nat
           /\ (ending = [] \/ exists l, ending = [EvLog (LogOperationFailed l)])
           /\ List.filter is_attempt_or_close
                (EvLog LogBanner :: run_events 0 ats ++ ending)
              = flat_map (fun i => [EvLog (LogAttempt (i + 1)); EvClose])
                  (seq 0 (length ats)).
Proof.
  intros cfg env. split; [apply close_never_raises|]. intros w.
  destruct (main_structure cfg env w) as (ats & x & ending & w' & Hm & T & Hwf & He).
  exists ats, x, ending, w'.
  destruct (run_ends_length _ _ _ _ _ He) as (Hle & Hpos & Hend).
  split; [exact Hm|]. split; [exact T|]. split.
  { eapply Forall_impl; [exact Hwf|]. intros a (_ & Hc & _). exact Hc. }
  split; [unfold MAX_RETRIES in *; lia|]. split; [exact Hend|].
  change (EvLog LogBanner :: run_events 0 ats ++ ending)
    with ([EvLog LogBanner] ++ run_events 0 ats ++ ending).
  rewrite !List.filter_app, (closes_alternate ats 0 Hwf).
  destruct Hend as [-> | [l ->]]; simpl; rewrite app_nil_r; reflexivity.
Qed.


(** ** The backoff schedule *)

Lemma handler_events_schedule attempt r :
  List.filter is_schedule_event (handler_events attempt r)
  = match r with
    | Failed e =>
        EvLog (LogAttemptFailed (attempt + 1) e)
        :: (if (attempt <? MAX_RETRIES - 1)%nat
            then [EvSleep (nth attempt RETRY_BACKOFF 0)] else [])
    | _ => []
    end.
Proof.
  destruct r as [x| |e]; try reflexivity.
  unfold handler_events, failure_events.
  destruct (attempt <? MAX_RETRIES - 1)%nat eqn:E; [|reflexivity].
  destruct (backoff_available _ E) as [delay Hd]. rewrite Hd.
  rewrite (nth_lookup_Some _ _ 0 _ Hd). reflexivity.
Qed.

Lemma schedule_of_run n : forall k last ats x ending,
  Forall well_formed_attempt ats ->
  run_ends n last ats x ending ->
  exists errs,
    (length errs <= n)%nat
    /\ List.filter is_schedule_event (run_events k ats ++ ending)
       = failed_attempts k errs
         ++ (if (length errs =? n)%nat
             then [EvLog (LogOperationFailed (last_error_after last errs))]
             else [EvLog (LogAttempt (k + length errs + 1))])
    /\ ((length errs = n)%nat -> x = ExitExhausted (last_error_after last errs)).
Proof.
  induction n as [|n IH]; intros k last ats x ending Hwf H.
  - destruct ats; [|contradiction]. destruct H as [-> ->].
    exists []. simpl. auto.
  - destruct ats as [|a rest]; [contradiction|]. simpl in H.
    apply Forall_cons in Hwf as [Ha Hrest].
    assert (Hfilter :
      List.filter is_schedule_event (attempt_events k a)
      = EvLog (LogAttempt (k + 1))
        :: List.filter is_schedule_event (handler_events k (at_result a))).
    { rewrite (filter_attempt_events is_schedule_event k a Ha).
      - simpl. rewrite app_nil_r. reflexivity.
      - intros ev; destruct ev as [op r|t|d|line|]; try discriminate; try reflexivity.
        destruct line; try discriminate; reflexivity.
      - intros ev; destruct ev as [op r|t|d|line|]; try discriminate; reflexivity. }
    change (run_events k (a :: rest))
      with (attempt_events k a ++ run_events (S k) rest).
    rewrite <- app_assoc, List.filter_app, Hfilter, handler_events_schedule.
    destruct (at_result a) as [y| |e]; [| contradiction |].
    + destruct H as (-> & -> & ->). exists []. simpl.
      split; [lia|]. split; [|discriminate].
      replace (k + 0 + 1)%nat with (k + 1)%nat by lia. reflexivity.
    + destruct (IH (S k) (Some e) rest x ending Hrest H) as (errs & Hl & Hf & Hx).
      exists (e :: errs). simpl length. split; [lia|]. split.
      * rewrite Hf. simpl failed_attempts.
        change (S (length errs) =? S n)%nat with (length errs =? n)%nat.
        replace (k + S (length errs) + 1)%nat
          with (S k + length errs + 1)%nat by lia.
        change (last_error_after last (e :: errs))
          with (last_error_after (Some e) errs).
        simpl. rewrite <- app_assoc. reflexivity.
      * intros Hlen. apply Hx. lia.
Qed.

(** An attempt returns what its body returned, or fails with what its
    body raised. *)
Lemma run_attempt_cases cfg env attempt w :
  (exists x w1 w2,
     attempt_body cfg env attempt w = (Ok (Some x), w1)
     /\ run_attempt cfg env attempt w = (Ok (Returned x), w2))
  \/ (exists e w1 w2,
        attempt_body cfg env attempt w = (Raise e, w1)
        /\ run_attempt cfg env attempt w = (Ok (Failed e), w2)).
Proof.
  unfold run_attempt, try_finally, try_except, bind.
  destruct (attempt_body cfg env attempt w) as [r w1] eqn:Hb.
  destruct (attempt_body_shape _ _ _ _ _ _ Hb) as (body & _ & _ & Hn).
  destruct r as [[x|]|e]; [| contradiction |].
  - left. simpl. destruct (close_runs env w1) as (w2 & ops & Hc & _).
    rewrite Hc. eauto.
  - right. simpl. rewrite on_failure_run.
    match goal with
    | |- context [close env ?w1'] =>
        destruct (close_runs env w1') as (w2 & ops & Hc & _)
    end.
    rewrite Hc. eauto.
Qed.

(** The run of the retry loop from attempt [k] on, with [n] attempts left:
    the attempts that failed, in order, and what ended the run. *)
Lemma attempts_failures cfg env n : forall k last w,
  exists errs x ats ending w_f w',
    attempts cfg env (seq k n) last w = (Ok x, w')
    /\ w_trace w' = w_trace w ++ run_events k ats ++ ending
    /\ failed_run cfg env k w errs w_f
    /\ (length errs <= n)%nat
    /\ List.filter is_schedule_event (run_events k ats ++ ending)
       = failed_attempts k errs
         ++ (if (length errs =? n)%nat
             then [EvLog (LogOperationFailed (last_error_after last errs))]
             else [EvLog (LogAttempt (k + length errs + 1))])
    /\ ((length errs = n)%nat -> x = ExitExhausted (last_error_after last errs))
    /\ ((length errs < n)%nat ->
        exists w1,
          attempt_body cfg env (k + length errs) w_f = (Ok (Some x), w1)).
Proof.
  induction n as [|n IH]; intros k last w.
  - exists [], (ExitExhausted last), [], [EvLog (LogOperationFailed last)].
    exists w. eexists. simpl. unfold bind, log, emit, ret.
    split; [reflexivity|]. simpl.
    split; [reflexivity|]. split; [constructor|]. split; [lia|].
    split; [reflexivity|]. split; [reflexivity|]. intros H. lia.
  - simpl seq. simpl attempts. unfold bind.
    destruct (run_attempt_shape cfg env k w) as (a & w1 & Hr & T1 & Hwf).
    assert (Hfilter :
      List.filter is_schedule_event (attempt_events k a)
      = EvLog (LogAttempt (k + 1))
        :: List.filter is_schedule_event (handler_events k (at_result a))).
    { rewrite (filter_attempt_events is_schedule_event k a Hwf).
      - simpl. rewrite app_nil_r. reflexivity.
      - intros ev; destruct ev as [op r|t|d|line|]; try discriminate; try reflexivity.
        destruct line; try discriminate; reflexivity.
      - intros ev; destruct ev as [op r|t|d|line|]; try discriminate; reflexivity. }
    rewrite handler_events_schedule in Hfilter.
    rewrite Hr.
    destruct (run_attempt_cases cfg env k w)
      as [(x & wb & w2 & Hb & Hr') | (e & wb & w2 & Hb & Hr')];
      rewrite Hr in Hr'; injection Hr' as Hres <-; rewrite Hres in *.
    + exists [], x, [a], [], w, w1. unfold ret.
      split; [reflexivity|].
      change (run_events k [a]) with (attempt_events k a ++ []).
      rewrite !app_nil_r.
      split; [exact T1|]. split; [constructor|]. split; [simpl; lia|].
      split.
      { rewrite Hfilter. simpl.
        replace (k + 0 + 1)%nat with (k + 1)%nat by lia. reflexivity. }
      split; [simpl; intros H; lia|].
      intros _. simpl. replace (k + 0)%nat with k by lia. eauto.
    + destruct (IH (S k) (Some e) w1)
        as (errs & x & ats & ending & w_f & w' & Ha & T2 & Hfr & Hl & Hf & Hx & Hret).
      exists (e :: errs), x, (a :: ats), ending, w_f, w'.
      split; [exact Ha|].
      change (run_events k (a :: ats))
        with (attempt_events k a ++ run_events (S k) ats).
      rewrite T2, T1, <- !app_assoc.
      split; [reflexivity|].
      split; [exact (failed_next cfg env k w e wb w1 errs w_f Hb Hr Hfr)|].
      simpl length. split; [lia|]. split.
      { rewrite List.filter_app, Hfilter, Hf. simpl failed_attempts.
        change (S (length errs) =? S n)%nat with (length errs =? n)%nat.
        replace (k + S (length errs) + 1)%nat
          with (S k + length errs + 1)%nat by lia.
        change (last_error_after last (e :: errs))
          with (last_error_after (Some e) errs).
        simpl. rewrite <- app_assoc. reflexivity. }
      split.
      { intros Hlen. apply Hx. lia. }
      intros Hlt.
      replace (k + S (length errs))%nat with (S k + length errs)%nat by lia.
      apply Hret. lia.
Qed.

(** C5.  In every run there are [N] consecutive failed attempts, [errs]
    being what the bodies of the attempts 1 to [N] raised, each run from
    the state the one before had left.  The retry loop shows them as:
    attempt [i] started, attempt [i] failed with the error its body raised,
    then the sleep of the [i]-th delay of the table ([i] below 7), and only
    then attempt [i+1].  With [N] below 7, the body of attempt [N+1]
    returned and the run ends with what it returned; after 7 failures
    there is no further sleep and no further attempt, and the run ends
    reporting the last error.  The table is 5, 10, 30, 60, 120, 300, 600
    seconds, strictly increasing. *)
Theorem backoff_schedule :
  forall cfg env w,
    exists errs x evs w_f w',
      main cfg env w = (Ok x, w')
      /\ w_trace w' = w_trace w ++ evs
      /\ failed_run cfg env 0 (run_start w) errs w_f
      /\ (length errs <= MAX_RETRIES)%nat
      /\ List.filter is_schedule_event evs
         = failed_attempts 0 errs
           ++ (if (length errs =? MAX_RETRIES)%nat
               then [EvLog (LogOperationFailed (last_error_after None errs))]
               else [EvLog (LogAttempt (length errs + 1))])
      /\ ((length errs = MAX_RETRIES)%nat ->
          x = ExitExhausted (last_error_after None errs))
      /\ ((length errs < MAX_RETRIES)%nat ->
          exists w1,
            attempt_body cfg env (length errs) w_f = (Ok (Some x), w1))
      /\ RETRY_BACKOFF = [5; 10; 30; 60; 120; 300; 600]
      /\ StronglySorted Z.lt RETRY_BACKOFF.
Proof.
  intros cfg env w.
  destruct (attempts_failures cfg env MAX_RETRIES 0 None (run_start w))
    as (errs & x & ats & ending & w_f & w' & Ha & T & Hfr & Hl & Hf & Hx & Hret).
  exists errs, x, (EvLog LogBanner :: run_events 0 ats ++ ending), w_f, w'.
  split.
  { unfold main, bind, log, emit, update_eng. exact Ha. }
  split.
  { rewrite T. simpl. rewrite <- app_assoc. reflexivity. }
  split; [exact Hfr|]. split; [exact Hl|]. split.
  { change (EvLog LogBanner :: run_events 0 ats ++ ending)
      with ([EvLog LogBanner] ++ run_events 0 ats ++ ending).
    rewrite List.filter_app, Hf. reflexivity. }
  split; [exact Hx|]. split; [exact Hret|]. split; [reflexivity|].
  unfold RETRY_BACKOFF. repeat constructor.
Qed.

(** A run in which [stat] fails in every attempt: seven failures, the six
    sleeps of the table in order, and the last error reported. *)
Example backoff_of_seven_failures :
  exists w',
    main Examples.cfg Examples.stat_fails (initial_world Examples.recorded)
    = (Ok (ExitExhausted (Some (IOError "Failure"))), w')
    /\ List.filter is_schedule_event (w_trace w')
       = failed_attempts 0 (repeat (IOError "Failure") 7)
         ++ [EvLog (LogOperationFailed (Some (IOError "Failure")))].
Proof.
  eexists. split; [apply run_eta; vm_compute; reflexivity|].
  vm_compute. reflexivity.
Qed.

(** The schedule of seven failures, written out. *)
Example schedule_of_seven_failures e :
  failed_attempts 0 [e; e; e; e; e; e; e]
  = [EvLog (LogAttempt 1); EvLog (LogAttemptFailed 1 e); EvSleep 5;
     EvLog (LogAttempt 2); EvLog (LogAttemptFailed 2 e); EvSleep 10;
     EvLog (LogAttempt 3); EvLog (LogAttemptFailed 3 e); EvSleep 30;
     EvLog (LogAttempt 4); EvLog (LogAttemptFailed 4 e); EvSleep 60;
     EvLog (LogAttempt 5); EvLog (LogAttemptFailed 5 e); EvSleep 120;
     EvLog (LogAttempt 6); EvLog (LogAttemptFailed 6 e); EvSleep 300;
     EvLog (LogAttempt 7); EvLog (LogAttemptFailed 7 e)].
Proof. reflexivity. Qed.


(** ** The record file *)

Lemma body_record_counts res body :
  body_shape res body ->
  (length (List.filter record_read body) <= 1)%nat
  /\ (length (List.filter record_written body) <= 1)%nat
  /\ (forall e, res = Failed e -> List.filter record_written body = []).
Proof.
  intros (conn & reads & listing & fetched & written & synced
          & -> & Fc & Hr & Fl & Ff & Fs & Hw).
  assert (Hno : forall (f c : Event -> bool) l,
             (forall ev, c ev = true -> f ev = false) ->
             Forall (fun ev => c ev = true) l -> List.filter f l = []).
  { intros f c l Hc Hl. eapply filter_none; [exact Hl | exact Hc]. }
  assert (Ec : forall ev, connect_event ev = true ->
                 record_read ev = false /\ record_written ev = false).
  { intros ev; destruct ev as [op r|t|d|line|]; try discriminate;
      [destruct op | destruct line]; simpl; try discriminate; auto. }
  assert (El : forall ev, listing_event ev = true ->
                 record_read ev = false /\ record_written ev = false).
  { intros ev; destruct ev as [op r|t|d|line|]; try discriminate;
      [destruct op | destruct line]; simpl; try discriminate; auto. }
  assert (Ed : forall ev, download_event ev = true ->
                 record_read ev = false /\ record_written ev = false).
  { intros ev; destruct ev as [op r|t|d|line|]; try discriminate;
      [destruct op | auto | destruct line]; simpl; try discriminate; auto. }
  assert (Es : forall ev, sync_event ev = true ->
                 record_read ev = false /\ record_written ev = false).
  { intros ev; destruct ev as [op r|t|d|line|]; try discriminate;
      [destruct op | destruct line]; simpl; try discriminate; auto. }
  rewrite !List.filter_app.
  rewrite (Hno record_read connect_event conn (fun ev H => proj1 (Ec ev H)) Fc).
  rewrite (Hno record_read listing_event listing (fun ev H => proj1 (El ev H)) Fl).
  rewrite (Hno record_read download_event fetched (fun ev H => proj1 (Ed ev H)) Ff).
  rewrite (Hno record_read sync_event synced (fun ev H => proj1 (Es ev H)) Fs).
  rewrite (Hno record_written connect_event conn (fun ev H => proj2 (Ec ev H)) Fc).
  rewrite (Hno record_written listing_event listing (fun ev H => proj2 (El ev H)) Fl).
  rewrite (Hno record_written download_event fetched (fun ev H => proj2 (Ed ev H)) Ff).
  rewrite (Hno record_written sync_event synced (fun ev H => proj2 (Es ev H)) Fs).
  assert (Hwr : List.filter record_read written = []).
  { destruct Hw as [(-> & _) | (_ & [(e & -> & _) | [(e & -> & _) | (f & -> & _)]])];
      reflexivity. }
  assert (Hrw : List.filter record_written reads = []).
  { destruct Hr as [-> | [r ->]]; reflexivity. }
  rewrite Hwr, Hrw, !app_nil_r. simpl.
  split; [destruct Hr as [-> | [r ->]]; simpl; lia|].
  destruct Hw as [(-> & _) | (_ & [(e & -> & _ & He) | [(e & -> & _ & He) | (f & -> & He)]])];
    simpl; (split; [lia|]); try reflexivity.
  intros e ->. discriminate.
Qed.

Lemma handler_events_no_record attempt r :
  List.filter record_read (handler_events attempt r) = []
  /\ List.filter record_written (handler_events attempt r) = [].
Proof.
  destruct r as [x| |e]; try (split; reflexivity).
  unfold handler_events, failure_events.
  destruct (attempt <? MAX_RETRIES - 1)%nat; [|split; reflexivity].
  destruct (RETRY_BACKOFF !! attempt); split; reflexivity.
Qed.

Lemma attempt_record_counts attempt a :
  well_formed_attempt a ->
  (length (List.filter record_read (attempt_events attempt a)) <= 1)%nat
  /\ (length (List.filter record_written (attempt_events attempt a)) <= 1)%nat
  /\ (forall e, at_result a = Failed e ->
        List.filter record_written (attempt_events attempt a) = []).
Proof.
  intros (Hs & Hc & _).
  destruct (body_record_counts _ _ Hs) as (Hr & Hw & Hf).
  destruct (handler_events_no_record attempt (at_result a)) as [Hh1 Hh2].
  assert (Hc1 : List.filter record_read (at_close a) = []).
  { eapply filter_none; [exact Hc|].
    intros ev; destruct ev as [op r|t|d|line|]; try discriminate; try reflexivity.
    destruct op; try discriminate; reflexivity. }
  assert (Hc2 : List.filter record_written (at_close a) = []).
  { eapply filter_none; [exact Hc|].
    intros ev; destruct ev as [op r|t|d|line|]; try discriminate; try reflexivity.
    destruct op; try discriminate; reflexivity. }
  unfold attempt_events.
  change (EvLog (LogAttempt (attempt + 1))
          :: at_body a ++ handler_events attempt (at_result a)
             ++ EvClose :: at_close a)
    with ([EvLog (LogAttempt (attempt + 1))]
          ++ at_body a ++ handler_events attempt (at_result a)
             ++ [EvClose] ++ at_close a).
  rewrite !List.filter_app, Hh1, Hh2, Hc1, Hc2. simpl. rewrite !app_nil_r.
  auto.
Qed.

Lemma run_record_counts n : forall k last ats x ending,
  Forall well_formed_attempt ats ->
  run_ends n last ats x ending ->
  (length (List.filter record_read (run_events k ats ++ ending))
   <= length ats)%nat
  /\ (length (List.filter record_written (run_events k ats ++ ending))
      <= 1)%nat.
Proof.
  induction n as [|n IH]; intros k last ats x ending Hwf H.
  - destruct ats; [|contradiction]. destruct H as [_ ->]. simpl. lia.
  - destruct ats as [|a rest]; [contradiction|]. simpl in H.
    apply Forall_cons in Hwf as [Ha Hrest].
    destruct (attempt_record_counts k a Ha) as (Hr & Hw & Hf).
    change (run_events k (a :: rest))
      with (attempt_events k a ++ run_events (S k) rest).
    rewrite <- app_assoc, !List.filter_app, !length_app.
    destruct (at_result a) as [y| |e]; [| contradiction |].
    + destruct H as (-> & _ & ->).
      set (r1 := length (List.filter record_read (attempt_events k a))) in *.
      set (w1 := length (List.filter record_written (attempt_events k a))) in *.
      simpl. lia.
    + destruct (IH (S k) (Some e) rest x ending Hrest H) as [Hr' Hw'].
      rewrite List.filter_app, length_app in Hr', Hw'.
      rewrite (Hf e eq_refl).
      set (r1 := length (List.filter record_read (attempt_events k a))) in *.
      simpl length. lia.
Qed.

(** C8, as the code has it.  The record is read inside the retry loop: at
    most once in each attempt, after connecting and before the directory is
    listed, hence at most once per attempt of the run and not once per run.
    It is written only directly after a download that returned true, and a
    write that goes through ends the run, so at most one does. *)
Theorem record_read_each_attempt_written_once :
  forall cfg env w,
    exists ats x ending w',
      main cfg env w = (Ok x, w')
      /\ w_trace w'
         = w_trace w ++ EvLog LogBanner :: run_events 0 ats ++ ending
      /\ (length ats <= MAX_RETRIES)%nat
      /\ Forall (fun a => body_shape (at_result a) (at_body a)) ats
      /\ (length (List.filter record_read
                    (EvLog LogBanner :: run_events 0 ats ++ ending))
          <= length ats)%nat
      /\ (length (List.filter record_written
                    (EvLog LogBanner :: run_events 0 ats ++ ending))
          <= 1)%nat.
Proof.
  intros cfg env w.
  destruct (main_structure cfg env w) as (ats & x & ending & w' & Hm & T & Hwf & He).
  exists ats, x, ending, w'.
  destruct (run_ends_length _ _ _ _ _ He) as (Hle & _ & _).
  destruct (run_record_counts _ 0%nat _ _ _ _ Hwf He) as [Hr Hw].
  split; [exact Hm|]. split; [exact T|]. split; [exact Hle|]. split.
  { eapply Forall_impl; [exact Hwf|]. intros a (Hs & _). exact Hs. }
  simpl. auto.
Qed.

(** C8 as stated fails: when [stat] fails in every attempt, the record is
    read in each of the seven attempts of the run. *)
Lemma record_read_seven_times :
  exists w',
    main Examples.cfg Examples.stat_fails (initial_world Examples.recorded)
    = (Ok (ExitExhausted (Some (IOError "Failure"))), w')
    /\ length (List.filter record_read (w_trace w')) = 7%nat.
Proof.
  eexists. split; [apply run_eta; vm_compute; reflexivity|].
  vm_compute. reflexivity.
Qed.


(** ** After the chunk loop *)

Section AfterLoop.

Variable cfg : Config.
Variable env : Env.

Lemma attempt_body_split attempt w :
  attempt_body cfg env attempt w
  = bind (reach_fetch cfg env attempt)
      (fun selected =>
         match selected with
         | inl x => ret (Some x)
         | inr remote_file => fetch cfg env remote_file
         end) w.
Proof.
  unfold attempt_body, reach_fetch, bind.
  destruct (log (LogAttempt (attempt + 1)) w) as [[u|e] w0]; [|reflexivity].
  destruct (connect env w0) as [[u'|e] w1]; reflexivity.
Qed.

Lemma reach_fetch_events attempt w r w' :
  reach_fetch cfg env attempt w = (r, w') ->
  exists evs,
    w_trace w' = w_trace w ++ evs
    /\ Forall (fun ev => record_write ev = false) evs.
Proof.
  unfold reach_fetch. intros H.
  apply bind_inv in H as [([] & w0 & [= <-] & H) | (e & [=] & _)].
  assert (Hc : emits (fun ev => record_write ev = false) (connect env)).
  { eapply emits_weaken; [|apply connect_emits].
    intros ev; destruct ev as [op r0|t|d|line|]; try discriminate;
      [destruct op | destruct line]; simpl; congruence. }
  assert (Hsel : forall r1 wa wb, select_remote_file cfg env wa = (r1, wb) ->
            exists evs, w_trace wb = w_trace wa ++ evs
                        /\ Forall (fun ev => record_write ev = false) evs).
  { intros r1 wa wb Hs.
    destruct (select_shape cfg env _ _ _ Hs) as (reads & listing & T & Hr & Hl).
    exists (reads ++ listing). split; [exact T|].
    apply Forall_app. split.
    - destruct Hr as [-> | [x ->]]; repeat constructor.
    - eapply Forall_impl; [exact Hl|].
      intros ev; destruct ev as [op r0|t|d|line|]; try discriminate;
        [destruct op | destruct line]; simpl; congruence. }
  apply bind_inv in H as [([] & w1 & H1 & H) | (e & H1 & ->)].
  - destruct (Hc _ _ _ H1) as (e1 & T1 & F1).
    destruct (Hsel _ _ _ H) as (e2 & T2 & F2).
    exists (EvLog (LogAttempt (attempt + 1)) :: e1 ++ e2).
    rewrite T2, T1. simpl. rewrite <- !app_assoc. split; [reflexivity|].
    constructor; [reflexivity|]. apply Forall_app; auto.
  - destruct (Hc _ _ _ H1) as (e1 & T1 & F1).
    exists (EvLog (LogAttempt (attempt + 1)) :: e1).
    rewrite T1. simpl. rewrite <- !app_assoc. split; [reflexivity|].
    constructor; [reflexivity | exact F1].
Qed.

Lemma chunk_step_keeps_files rp lp pos :
  respects (fs_only_at lp) (chunk_step env rp lp pos).
Proof.
  pose proof (fs_only_at_preorder lp) as HR.
  unfold chunk_step, watchdog, verify_connection, read_and_store,
    local_write, report_progress.
  apply (respects_bind _ HR); [respects_auto HR|intros _].
  apply (respects_try_except _ HR); [|intros e; respects_auto HR].
  apply (respects_bind _ HR); [respects_auto HR|intros n]. cbv zeta.
  destruct (PyStr.take _ _) as [|c s]; [respects_auto HR|].
  apply (respects_bind _ HR).
  - apply (respects_bind _ HR); [respects_auto HR|intros _].
    apply respects_update_fs. intros w. split; simpl.
    + intros p Hp. apply lookup_insert_ne. congruence.
    + intros p Hp. destruct (decide (lp = p)) as [->|Hne].
      * rewrite lookup_insert_eq. eauto.
      * rewrite lookup_insert_ne by exact Hne. exact Hp.
  - intros _. respects_auto HR; split; simpl; auto.
Qed.

Lemma transfer_keeps_files rp lp pos :
  respects (fs_only_at lp) (transfer_chunks env rp lp pos).
Proof.
  apply (transfer_chunks_respects _ _ _ _ (fs_only_at_preorder lp)).
  intros p. apply chunk_step_keeps_files.
Qed.

(** What the download returns once the loop has been left. *)
Lemma download_after_loop rp lp w pos0 w0 w1 :
  start_transfer env rp lp w = (Ok (Some pos0), w0) ->
  transfer_chunks env rp lp pos0 w0 = (Ok tt, w1) ->
  download_with_armor env rp lp w
  = if local_size lp w1 =? file_size (w_eng w1)
    then (Ok true, with_event (EvLog LogVerified) w1)
    else (Raise (IOError "Final size verification failed"),
          with_event
            (EvLog (LogTransferFailed (last_byte (w_eng w1))
                      (IOError "Final size verification failed"))) w1).
Proof.
  intros Hs Hl.
  pose proof (start_transfer_started _ _ _ _ _ _ Hs)
    as (_ & _ & _ & _ & _ & _ & content & Hc & _).
  destruct (transfer_keeps_files _ _ _ _ _ _ Hl) as [_ Hkeep].
  destruct (Hkeep lp (ex_intro _ content Hc)) as [content1 Hc1].
  unfold download_with_armor, try_except.
  rewrite (bind_ok _ _ _ _ _ Hs), (bind_ok _ _ _ _ _ Hl).
  unfold verify_size, getsize, bind, get_fs, get_eng, local_size.
  rewrite Hc1. unfold ret. cbv beta iota.
  destruct (PyStr.len content1 =? file_size (w_eng w1)); reflexivity.
Qed.

End AfterLoop.


Lemma download_event_not_record_write ev :
  download_event ev = true -> record_write ev = false.
Proof.
  destruct ev as [op r|t|d|line|]; try discriminate;
    [destruct op | reflexivity | destruct line]; simpl; congruence.
Qed.

(** C4.  When the chunk loop of an attempt is left with a local file whose
    size differs from the size [stat] reported, the download raises the
    verification error, the attempt fails with it (the [except] clause runs,
    then [close()]), nothing in the attempt writes the record, and the local
    file stays on disk as the loop left it. *)
Theorem size_mismatch_fails_attempt :
  forall cfg env attempt w f wa n wb pos0 w0 w1,
    let remote_path := path_join (SFTP_DIR cfg) f in
    let local_path := local_file cfg f in
    let e := IOError "Final size verification failed" in
    reach_fetch cfg env attempt w = (Ok (inr f), wa) ->
    ask env OpMakedirsLocal wa = (Ok n, wb) ->
    start_transfer env remote_path local_path wb = (Ok (Some pos0), w0) ->
    transfer_chunks env remote_path local_path pos0 w0 = (Ok tt, w1) ->
    local_size local_path w1 <> file_size (w_eng w1) ->
    exists w' before ops,
      run_attempt cfg env attempt w = (Ok (Failed e), w')
      /\ w_trace w1 = w_trace w ++ before
      /\ Forall (fun ev => record_write ev = false) before
      /\ w_trace w'
         = w_trace w1
           ++ EvLog (LogTransferFailed (last_byte (w_eng w1)) e)
              :: failure_events attempt e ++ EvClose :: ops
      /\ Forall (fun ev => close_op ev = true) ops
      /\ w_fs w' = w_fs w1
      /\ is_Some (w_fs w' !! local_path).
Proof.
  intros cfg env attempt w f wa n wb pos0 w0 w1 remote_path local_path e
    H1 H2 H3 H4 H5.
  assert (Hdl : download_with_armor env remote_path local_path wb
                = (Raise e,
                   with_event (EvLog (LogTransferFailed (last_byte (w_eng w1)) e))
                     w1)).
  { rewrite (download_after_loop env _ _ _ _ _ _ H3 H4).
    apply Z.eqb_neq in H5. rewrite H5. reflexivity. }
  assert (Hbody : attempt_body cfg env attempt w
                  = (Raise e,
                     with_event
                       (EvLog (LogTransferFailed (last_byte (w_eng w1)) e)) w1)).
  { rewrite attempt_body_split, (bind_ok _ _ _ _ _ H1).
    unfold fetch. fold remote_path local_path.
    rewrite (bind_ok _ _ _ _ _ H2), (bind_raise _ _ _ _ _ Hdl). reflexivity. }
  unfold run_attempt, try_finally, try_except.
  rewrite (bind_raise _ _ _ _ _ Hbody). cbn [any_exception].
  rewrite on_failure_run.
  match goal with
  | |- context [close env ?wc] =>
      destruct (close_runs env wc) as (w' & ops & Hc & T & Fc & Hfs)
  end.
  rewrite Hc. simpl in T, Hfs.
  destruct (reach_fetch_events cfg env _ _ _ _ H1) as (e1 & T1 & F1).
  assert (Hmk : emits (fun ev => record_write ev = false)
                  (ask env OpMakedirsLocal)) by emits_auto.
  destruct (Hmk _ _ _ H2) as (e2 & T2 & F2).
  destruct (start_transfer_emits env _ _ _ _ _ H3) as (e3 & T3 & F3).
  destruct (transfer_chunks_emits env _ _ _ _ _ _ H4) as (e4 & T4 & F4).
  pose proof (start_transfer_started _ _ _ _ _ _ H3)
    as (_ & _ & _ & _ & _ & _ & content & Hfile & _).
  destruct (transfer_keeps_files env _ _ _ _ _ _ H4) as [_ Hkeep].
  exists w', (e1 ++ e2 ++ e3 ++ e4), ops.
  split; [reflexivity|]. split.
  { rewrite T4, T3, T2, T1, <- !app_assoc. reflexivity. }
  split.
  { repeat (apply Forall_app; split); auto;
      (eapply Forall_impl; [eassumption|]);
      intros ev; apply download_event_not_record_write. }
  split.
  { rewrite T, <- !app_assoc. reflexivity. }
  split; [exact Fc|]. split; [exact Hfs|].
  rewrite Hfs. apply Hkeep. eauto.
Qed.

(** The hypotheses of [size_mismatch_fails_attempt] hold of the first
    attempt of a run in which the remote file is cut short after [stat]. *)
Lemma size_mismatch_fails_attempt_witness :
  exists w',
    run_attempt Examples.cfg Examples.cut_after_stat 0
      (initial_world Examples.recorded)
    = (Ok (Failed (IOError "Final size verification failed")), w')
    /\ w_fs w' !! "/local/20250102.IPI" = Some "01234"
    /\ w_fs w' !! "/state/last_file.txt" = Some "20250101.IPI".
Proof.
  set (cfg := Examples.cfg). set (env := Examples.cut_after_stat).
  set (w := initial_world Examples.recorded).
  set (a := reach_fetch cfg env 0 w).
  set (b := ask env OpMakedirsLocal (snd a)).
  set (c := start_transfer env "/remote/20250102.IPI" "/local/20250102.IPI" (snd b)).
  set (d := transfer_chunks env "/remote/20250102.IPI" "/local/20250102.IPI" 0 (snd c)).
  assert (Ha : a = (Ok (inr "20250102.IPI"), snd a))
    by (apply (run_eta a); vm_compute; reflexivity).
  assert (Hb : b = (Ok 10%nat, snd b))
    by (apply (run_eta b); vm_compute; reflexivity).
  assert (Hc : c = (Ok (Some 0), snd c))
    by (apply (run_eta c); vm_compute; reflexivity).
  assert (Hd : d = (Ok tt, snd d))
    by (apply (run_eta d); vm_compute; reflexivity).
  assert (Hne : local_size "/local/20250102.IPI" (snd d) <> file_size (w_eng (snd d)))
    by (vm_compute; discriminate).
  destruct (size_mismatch_fails_attempt cfg env 0 w "20250102.IPI"
              (snd a) 10%nat (snd b) 0 (snd c) (snd d) Ha Hb Hc Hd Hne)
    as (w' & before & ops & Hrun & _ & _ & _ & _ & Hfs & _).
  exists w'. split; [exact Hrun|]. rewrite Hfs.
  split; vm_compute; reflexivity.
Defined.


(** ** Recording and copying *)

Section Recording.

Variable cfg : Config.
Variable env : Env.

(** The copy to the server directory never raises; what failed is logged. *)
Lemma sync_cases f lp w :
  exists w',
    sync_to_server cfg env f lp w = (Ok tt, w')
    /\ ((exists e,
           w_trace w'
           = w_trace w ++ [EvCall OpMakedirsServer (Some e);
                           EvLog (LogSyncFailed e)])
        \/ (exists e,
              w_trace w'
              = w_trace w ++ [EvCall OpMakedirsServer None;
                              EvCall OpCopy (Some e);
                              EvLog (LogSyncFailed e)])
        \/ (exists e,
              w_fs w !! lp = None
              /\ w_trace w'
                 = w_trace w ++ [EvCall OpMakedirsServer None;
                                 EvCall OpCopy None;
                                 EvLog (LogSyncFailed e)])
        \/ w_trace w'
           = w_trace w ++ [EvCall OpMakedirsServer None; EvCall OpCopy None;
                           EvLog (LogSynced f)]).
Proof.
  unfold sync_to_server, try_except, bind, ask, get_fs, update_fs, log, emit,
    ret, raise. simpl.
  destruct (env_fault env OpMakedirsServer (w_tick w)) as [e|]; simpl.
  - eexists. split; [reflexivity|]. left. exists e. simpl.
    rewrite <- !app_assoc. reflexivity.
  - destruct (env_fault env OpCopy (S (w_tick w))) as [e|]; simpl.
    + eexists. split; [reflexivity|]. right. left. exists e. simpl.
      rewrite <- !app_assoc. reflexivity.
    + destruct (w_fs w !! lp) as [content|] eqn:El; simpl.
      * eexists. split; [reflexivity|]. right. right. right. simpl.
        rewrite <- !app_assoc. reflexivity.
      * eexists. split; [reflexivity|]. right. right. left.
        exists (IOError "No such file or directory"). split; [reflexivity|].
        simpl. rewrite <- !app_assoc. reflexivity.
Qed.

(** An attempt that returns ends the run with what it returned. *)
Lemma attempts_returned attempt todo last w x w' :
  run_attempt cfg env attempt w = (Ok (Returned x), w') ->
  attempts cfg env (attempt :: todo) last w = (Ok x, w').
Proof. intros H. simpl. rewrite (bind_ok _ _ _ _ _ H). reflexivity. Qed.

(** An attempt that fails is followed by the remaining attempts. *)
Lemma attempts_failed attempt todo last w e w' :
  run_attempt cfg env attempt w = (Ok (Failed e), w') ->
  attempts cfg env (attempt :: todo) last w
  = attempts cfg env todo (Some e) w'.
Proof. intros H. simpl. rewrite (bind_ok _ _ _ _ _ H). reflexivity. Qed.

End Recording.

(** C3, as the code has it.  After a download that returned true: when the
    record has been written, a failure of the copy to the server directory
    is logged and the run ends there as done, with [close()] and no further
    attempt; but a failure to write the record is not caught on the spot: it
    fails the attempt like any other error (the [except] clause with its
    backoff, then [close()]) and the remaining attempts follow. *)
Theorem copy_failure_logged_record_failure_retried :
  forall cfg env attempt todo last w f wa n wb w1,
    let remote_path := path_join (SFTP_DIR cfg) f in
    let local_path := local_file cfg f in
    reach_fetch cfg env attempt w = (Ok (inr f), wa) ->
    ask env OpMakedirsLocal wa = (Ok n, wb) ->
    download_with_armor env remote_path local_path wb = (Ok true, w1) ->
    (forall w2,
        write_record cfg env f w1 = (Ok tt, w2) ->
        exists w3 w' ops,
          sync_to_server cfg env f local_path
            (with_event (EvLog LogMission) w2) = (Ok tt, w3)
          /\ ((exists e,
                 w_trace w3
                 = w_trace w2 ++ [EvLog LogMission;
                                  EvCall OpMakedirsServer (Some e);
                                  EvLog (LogSyncFailed e)])
              \/ (exists e,
                    w_trace w3
                    = w_trace w2 ++ [EvLog LogMission;
                                     EvCall OpMakedirsServer None;
                                     EvCall OpCopy (Some e);
                                     EvLog (LogSyncFailed e)])
              \/ (exists e,
                    w_trace w3
                    = w_trace w2 ++ [EvLog LogMission;
                                     EvCall OpMakedirsServer None;
                                     EvCall OpCopy None;
                                     EvLog (LogSyncFailed e)])
              \/ w_trace w3
                 = w_trace w2 ++ [EvLog LogMission;
                                  EvCall OpMakedirsServer None;
                                  EvCall OpCopy None; EvLog (LogSynced f)])
          /\ attempts cfg env (attempt :: todo) last w = (Ok (ExitDone f), w')
          /\ w_trace w' = w_trace w3 ++ EvClose :: ops
          /\ Forall (fun ev => close_op ev = true) ops)
    /\ (forall e w2,
          write_record cfg env f w1 = (Raise e, w2) ->
          exists w' ops,
            run_attempt cfg env attempt w = (Ok (Failed e), w')
            /\ w_trace w'
               = w_trace w2 ++ failure_events attempt e ++ EvClose :: ops
            /\ Forall (fun ev => close_op ev = true) ops
            /\ attempts cfg env (attempt :: todo) last w
               = attempts cfg env todo (Some e) w').
Proof.
  intros cfg env attempt todo last w f wa n wb w1 remote_path local_path
    H1 H2 H3.
  assert (Hfetch : forall r w2,
            record_and_sync cfg env f local_path w1 = (r, w2) ->
            attempt_body cfg env attempt w
            = (match r with Ok x => Ok (Some x) | Raise e => Raise e end, w2)).
  { intros r w2 Hr.
    rewrite attempt_body_split, (bind_ok _ _ _ _ _ H1).
    unfold fetch. fold remote_path local_path.
    rewrite (bind_ok _ _ _ _ _ H2), (bind_ok _ _ _ _ _ H3).
    unfold bind. rewrite Hr. destruct r; reflexivity. }
  split.
  - intros w2 Hw.
    destruct (sync_cases cfg env f local_path (with_event (EvLog LogMission) w2))
      as (w3 & Hs & Hcases).
    assert (Hrs : record_and_sync cfg env f local_path w1 = (Ok (ExitDone f), w3)).
    { unfold record_and_sync. rewrite (bind_ok _ _ _ _ _ Hw).
      unfold bind at 1. unfold log, emit.
      rewrite (bind_ok _ _ _ _ _ Hs). reflexivity. }
    pose proof (Hfetch _ _ Hrs) as Hbody.
    destruct (close_runs env w3) as (w' & ops & Hc & T & Fc & _).
    assert (Hrun : run_attempt cfg env attempt w
                   = (Ok (Returned (ExitDone f)), w')).
    { unfold run_attempt, try_finally, try_except.
      rewrite (bind_ok _ _ _ _ _ Hbody). unfold ret. rewrite Hc. reflexivity. }
    exists w3, w', ops. split; [exact Hs|]. split.
    { simpl in Hcases.
      destruct Hcases as [[e He] | [[e He] | [[e [_ He]] | He]]];
        rewrite <- app_assoc in He; simpl in He; eauto 6. }
    split; [apply attempts_returned; exact Hrun|]. auto.
  - intros e w2 Hw.
    assert (Hrs : record_and_sync cfg env f local_path w1 = (Raise e, w2)).
    { unfold record_and_sync. rewrite (bind_raise _ _ _ _ _ Hw). reflexivity. }
    pose proof (Hfetch _ _ Hrs) as Hbody.
    assert (Hrun : exists w' ops,
               run_attempt cfg env attempt w = (Ok (Failed e), w')
               /\ w_trace w'
                  = w_trace w2 ++ failure_events attempt e ++ EvClose :: ops
               /\ Forall (fun ev => close_op ev = true) ops).
    { unfold run_attempt, try_finally, try_except.
      rewrite (bind_raise _ _ _ _ _ Hbody). cbn [any_exception].
      rewrite on_failure_run.
      match goal with
      | |- context [close env ?wc] =>
          destruct (close_runs env wc) as (w' & ops & Hc & T & Fc & _)
      end.
      rewrite Hc. simpl in T. exists w', ops.
      split; [reflexivity|]. split; [|exact Fc].
      rewrite T, <- app_assoc. reflexivity. }
    destruct Hrun as (w' & ops & Hrun & T & Fc).
    exists w', ops. split; [exact Hrun|]. split; [exact T|].
    split; [exact Fc|]. apply attempts_failed. exact Hrun.
Qed.


(** C3 as stated fails: the download of the first attempt is verified, the
    record cannot be written, and the run retries through all its attempts
    (each finding the file already complete) and ends reporting the error. *)
Lemma record_failure_fails_run :
  exists w',
    main Examples.cfg Examples.record_locked
      (initial_world Examples.recorded)
    = (Ok (ExitExhausted (Some (IOError "Permission denied"))), w')
    /\ List.filter download_succeeded (w_trace w')
       = [EvLog LogVerified; EvLog LogAlreadyComplete;
          EvLog LogAlreadyComplete; EvLog LogAlreadyComplete;
          EvLog LogAlreadyComplete; EvLog LogAlreadyComplete;
          EvLog LogAlreadyComplete]
    /\ List.filter is_schedule_event (w_trace w')
       = failed_attempts 0
           [IOError "Permission denied"; IOError "Permission denied";
            IOError "Permission denied"; IOError "Permission denied";
            IOError "Permission denied"; IOError "Permission denied";
            IOError "Permission denied"]
         ++ [EvLog (LogOperationFailed (Some (IOError "Permission denied")))].
Proof.
  eexists. split; [apply run_eta; vm_compute; reflexivity|].
  split; vm_compute; reflexivity.
Qed.

(** The hypotheses of [copy_failure_logged_record_failure_retried] hold of
    a run in which only the copy fails: the run ends as done. *)
Lemma copy_failure_logged_witness :
  exists w',
    attempts Examples.cfg Examples.copy_fails [0%nat] None
      (initial_world Examples.recorded)
    = (Ok (ExitDone "20250102.IPI"), w').
Proof.
  set (cfg := Examples.cfg). set (env := Examples.copy_fails).
  set (w := initial_world Examples.recorded).
  set (a := reach_fetch cfg env 0 w).
  set (b := ask env OpMakedirsLocal (snd a)).
  set (c := download_with_armor env "/remote/20250102.IPI"
              "/local/20250102.IPI" (snd b)).
  set (d := write_record cfg env "20250102.IPI" (snd c)).
  assert (Ha : a = (Ok (inr "20250102.IPI"), snd a))
    by (apply (run_eta a); vm_compute; reflexivity).
  assert (Hb : b = (Ok 10%nat, snd b))
    by (apply (run_eta b); vm_compute; reflexivity).
  assert (Hc : c = (Ok true, snd c))
    by (apply (run_eta c); vm_compute; reflexivity).
  assert (Hd : d = (Ok tt, snd d))
    by (apply (run_eta d); vm_compute; reflexivity).
  destruct (copy_failure_logged_record_failure_retried cfg env 0 [] None w
              "20250102.IPI" (snd a) 10%nat (snd b) (snd c) Ha Hb Hc)
    as [Hdone _].
  destruct (Hdone (snd d) Hd) as (w3 & w' & ops & _ & _ & Hrun & _).
  exists w'. exact Hrun.
Defined.

(** The hypotheses of [complete_file_short_circuit] hold when the local
    file already has the ten bytes of the remote file. *)
Lemma complete_file_short_circuit_witness :
  exists w',
    download_with_armor Examples.quiet "/remote/f" "/local/f"
      (Examples.connected {[ "/local/f" := "0123456789" ]})
    = (Ok true, w')
    /\ w_fs w' = {[ "/local/f" := "0123456789" ]}
    /\ w_trace w'
       = [EvCall OpStat None; EvLog (LogTargetSize 10);
          EvLog LogAlreadyComplete].
Proof.
  destruct (complete_file_short_circuit Examples.quiet "/remote/f" "/local/f"
              (Examples.connected {[ "/local/f" := "0123456789" ]})
              "0123456789")
    as (w' & Hrun & Hfs & _ & Ht).
  - simpl. discriminate.
  - reflexivity.
  - vm_compute. reflexivity.
  - vm_compute. discriminate.
  - exists w'. split; [exact Hrun|]. split; [exact Hfs | exact Ht].
Defined.

(** The example of the specification: with [20250101.IPI] recorded, the
    directory [20250101.IPI], [20250102.IPI], [bad.IPI] gives
    [20250102.IPI]; with nothing recorded, the earliest name is chosen. *)
Example selection_examples :
  filtered_files (last_date_of (Some "20250101.IPI"))
    ["20250101.IPI"; "20250102.IPI"; "bad.IPI"]
  = ["20250102.IPI"]
  /\ min_by_date "20250102.IPI" [] = Some "20250102.IPI"
  /\ filtered_files (last_date_of None) ["20250103.IPI"; "20250101.IPI"]
     = ["20250103.IPI"; "20250101.IPI"]
  /\ min_by_date "20250103.IPI" ["20250101.IPI"] = Some "20250101.IPI".
Proof. repeat split; vm_compute; reflexivity. Qed.

(** ** Slices of strings *)

Module SliceFacts.

Lemma app_cons c a b : (String c a ++ b)%string = String c (a ++ b).
Proof. reflexivity. Qed.

Lemma app_empty_l s : ("" ++ s)%string = s.
Proof. reflexivity. Qed.

Lemma app_empty_r s : (s ++ "")%string = s.
Proof.
  induction s as [|c s IH]; [reflexivity|]. rewrite app_cons, IH. reflexivity.
Qed.

Lemma app_assoc a b c : ((a ++ b) ++ c)%string = (a ++ b ++ c)%string.
Proof.
  induction a as [|x a IH]; [reflexivity|]. rewrite !app_cons, IH. reflexivity.
Qed.

Lemma len_app a b : PyStr.len (a ++ b) = PyStr.len a + PyStr.len b.
Proof.
  induction a as [|x a IH].
  - rewrite app_empty_l. change (PyStr.len "") with 0. lia.
  - rewrite app_cons, !LenFacts.len_cons, IH. lia.
Qed.

Lemma len_zero s : PyStr.len s = 0 -> s = EmptyString.
Proof.
  destruct s as [|c s]; [reflexivity|].
  pose proof (LenFacts.len_pos c s). lia.
Qed.

Lemma take_drop n s : (PyStr.take n s ++ PyStr.drop n s)%string = s.
Proof.
  revert n; induction s as [|c s IH]; intros n; simpl; [reflexivity|].
  destruct (n <=? 0); [reflexivity | rewrite app_cons, IH; reflexivity].
Qed.

(** What a read returned, followed by what lies beyond it, is what lay
    ahead of the read. *)
Lemma take_drop_len n s :
  (PyStr.take n s ++ PyStr.drop (PyStr.len (PyStr.take n s)) s)%string = s.
Proof.
  revert n; induction s as [|c s IH]; intros n; simpl; [reflexivity|].
  destruct (Z.leb_spec n 0); [reflexivity|].
  rewrite LenFacts.len_cons, app_cons.
  pose proof (LenFacts.len_nonneg (PyStr.take (n - 1) s)).
  simpl PyStr.drop.
  destruct (Z.leb_spec (1 + PyStr.len (PyStr.take (n - 1) s)) 0); [lia|].
  replace (1 + PyStr.len (PyStr.take (n - 1) s) - 1)
    with (PyStr.len (PyStr.take (n - 1) s)) by lia.
  rewrite IH. reflexivity.
Qed.

Lemma drop_nonpos n s : n <= 0 -> PyStr.drop n s = s.
Proof.
  intros H. destruct s as [|c s]; simpl; [reflexivity|].
  destruct (Z.leb_spec n 0); [reflexivity | lia].
Qed.

Lemma drop_drop a b s :
  0 <= a -> 0 <= b -> PyStr.drop b (PyStr.drop a s) = PyStr.drop (a + b) s.
Proof.
  revert a; induction s as [|c s IH]; intros a Ha Hb; simpl; [reflexivity|].
  destruct (Z.leb_spec a 0).
  - assert (a = 0) by lia. subst a. reflexivity.
  - destruct (Z.leb_spec (a + b) 0); [lia|].
    rewrite IH by lia. f_equal. lia.
Qed.

Lemma drop_all n s : PyStr.len s <= n -> PyStr.drop n s = EmptyString.
Proof.
  revert n; induction s as [|c s IH]; intros n H; simpl; [reflexivity|].
  pose proof (LenFacts.len_nonneg s). rewrite LenFacts.len_cons in H.
  destruct (Z.leb_spec n 0); [lia|]. apply IH. lia.
Qed.

Lemma take_app_len a b : PyStr.take (PyStr.len a) (a ++ b) = a.
Proof.
  induction a as [|x a IH].
  - rewrite app_empty_l. destruct b; reflexivity.
  - pose proof (LenFacts.len_pos x a). rewrite app_cons. simpl PyStr.take.
    destruct (Z.leb_spec (PyStr.len (String x a)) 0); [lia|].
    rewrite LenFacts.len_cons.
    replace (1 + PyStr.len a - 1) with (PyStr.len a) by lia.
    rewrite IH. reflexivity.
Qed.

(** A beginning of [data] followed by the rest of [data] is [data]. *)
Lemma starts_rest a data :
  starts a data -> (a ++ PyStr.drop (PyStr.len a) data)%string = data.
Proof.
  unfold starts. intros H.
  rewrite <- H at 1. apply take_drop.
Qed.

(** A read at a position before the end of the file returns something. *)
Lemma take_drop_nonempty n pos s :
  0 < n -> 0 <= pos -> pos < PyStr.len s ->
  0 < PyStr.len (PyStr.take n (PyStr.drop pos s)).
Proof.
  intros Hn Hp Hl. rewrite LenFacts.len_take, LenFacts.len_drop. lia.
Qed.

End SliceFacts.

(** ** What a download does to the local file *)

Lemma same_state_preorder : world_preorder same_state.
Proof.
  split; unfold same_state; simpl; auto.
  intros a b c [H1 G1] [H2 G2]. split; congruence.
Qed.

Section Content.

Variable env : Env.
Variables remote_path local_path : string.

Lemma watchdog_same_state : respects same_state (watchdog env).
Proof.
  unfold watchdog, verify_connection. respects_auto same_state_preorder.
Qed.

Lemma report_progress_same_state n :
  respects same_state (report_progress env n).
Proof. unfold report_progress. respects_auto same_state_preorder. Qed.

Lemma read_and_store_content pos w r w' :
  read_and_store env remote_path local_path pos w = (r, w') ->
  pass_content env remote_path local_path pos w r w'.
Proof.
  pose proof same_state_preorder as HR.
  unfold read_and_store. intros H.
  apply bind_inv in H as [(n & w1 & H1 & H2) | (e & H1 & ->)].
  2:{ left. split; [exact (respects_ask _ HR _ _ _ _ _ H1) | eauto]. }
  pose proof (respects_ask _ HR _ _ _ _ _ H1) as [E1 F1].
  cbv zeta in H2.
  destruct (PyStr.take CHUNK_SIZE (PyStr.drop pos (env_remote env n remote_path)))
    as [|c s] eqn:Echunk.
  { injection H2 as <- <-. left. split; [split; assumption | auto]. }
  assert (Hpos : 0 < PyStr.len (String c s)) by apply LenFacts.len_pos.
  unfold local_write in H2.
  apply bind_inv in H2 as [([] & w2 & H2 & H3) | (e & H2 & ->)].
  2:{ apply bind_inv in H2 as [(k & w3 & _ & [=]) | (e' & H2 & _)].
      pose proof (respects_ask _ HR _ _ _ _ _ H2) as [E2 F2].
      left. split; [split; congruence | eauto]. }
  apply bind_inv in H2 as [(k & w3 & H2 & H2') | (e' & _ & [=])].
  pose proof (respects_ask _ HR _ _ _ _ _ H2) as [E2 F2].
  injection H2' as <-.
  apply bind_inv in H3 as [([] & w4 & H3 & H4) | (e & H3 & ->)];
    [|discriminate].
  injection H3 as <-.
  right. exists n, (String c s).
  split; [symmetry; exact Echunk|]. split; [exact Hpos|].
  assert (Hr : forall r0 w5,
            report_progress env (PyStr.len (String c s))
              (with_eng
                 (fun e => with_last_byte (last_byte e + PyStr.len (String c s)) e)
                 (with_fs
                    (fun fs =>
                       <[local_path :=
                           (default EmptyString (fs !! local_path)
                            ++ String c s)%string]> fs) w3))
            = (r0, w5) ->
            w_fs w5
            = <[local_path := (local_content local_path w ++ String c s)%string]>
                (w_fs w)
            /\ w_eng w5
               = with_last_byte (last_byte (w_eng w) + PyStr.len (String c s))
                   (w_eng w)).
  { intros r0 w5 Hrp.
    destruct (report_progress_same_state _ _ _ _ Hrp) as [E5 F5].
    rewrite E5, F5. simpl. unfold local_content.
    rewrite F2, F1, E2, E1. auto. }
  apply bind_inv in H4 as [([] & w5 & H4 & H5) | (e & H4 & ->)].
  - destruct (Hr _ _ H4) as [F E]. injection H5 as <- <-. auto.
  - destruct (Hr _ _ H4) as [F E]. split; [exact F|]. split; [exact E|]. eauto.
Qed.

Lemma chunk_step_content pos w r w' :
  chunk_step env remote_path local_path pos w = (r, w') ->
  pass_content env remote_path local_path pos w r w'.
Proof.
  unfold chunk_step. intros H.
  apply bind_inv in H as [([] & w1 & H1 & H2) | (e & H1 & ->)].
  2:{ left. split; [exact (watchdog_same_state _ _ _ H1) | eauto]. }
  pose proof (watchdog_same_state _ _ _ H1) as [E1 F1].
  assert (Hlift : forall r0 w0,
            pass_content env remote_path local_path pos w1 r0 w0 ->
            pass_content env remote_path local_path pos w r0 w0).
  { intros r0 w0 [[[He Hf] Hr] | (n & chunk & Hc & Hl & Hf & He & Hr)].
    - left. split; [split; congruence | exact Hr].
    - right. exists n, chunk. unfold local_content in *.
      rewrite <- E1, <- F1. auto. }
  apply try_except_inv in H2
    as [(a & H2 & ->) | [(e & H2 & _ & ->) | (e & w2 & H2 & _ & H3)]].
  - apply Hlift, read_and_store_content, H2.
  - apply Hlift, read_and_store_content, H2.
  - apply read_and_store_content in H2.
    apply bind_inv in H3 as [([] & w3 & H3 & H4) | (e' & H3 & ->)];
      [|discriminate].
    injection H3 as <-. injection H4 as <- <-.
    apply Hlift.
    destruct H2 as [[[He Hf] Hr] | (n & chunk & Hc & Hl & Hf & He & Hr)].
    + left. simpl. split; [split; assumption | eauto].
    + right. exists n, chunk. simpl. repeat split; eauto.
Qed.

(** A property of the loop head kept by every pass holds when the loop is
    left, however it is left. *)
Lemma chunk_loop_invariant (I : Z -> World -> Prop) :
  (forall pos w r w',
     I pos w ->
     last_byte (w_eng w) < file_size (w_eng w) ->
     chunk_step env remote_path local_path pos w = (r, w') ->
     match r with
     | Ok (Continue pos') => I pos' w'
     | _ => exists p, I p w'
     end) ->
  forall fuel pos w r w',
    I pos w ->
    chunk_loop env fuel remote_path local_path pos w = (r, w') ->
    exists p, I p w'.
Proof.
  intros Hstep. induction fuel as [|fuel IH]; intros pos w r w' HI H.
  - injection H as <- <-. eauto.
  - simpl in H. unfold bind at 1 in H. unfold get_eng in H.
    destruct (Z.ltb_spec (last_byte (w_eng w)) (file_size (w_eng w)))
      as [Hlt|Hge].
    + apply bind_inv in H as [(c & w1 & H1 & H2) | (e & H1 & ->)].
      * pose proof (Hstep _ _ _ _ HI Hlt H1) as HI1.
        destruct c as [pos'|].
        -- exact (IH _ _ _ _ HI1 H2).
        -- injection H2 as <- <-. exact HI1.
      * exact (Hstep _ _ _ _ HI Hlt H1).
    + injection H as <- <-. eauto.
Qed.

Lemma transfer_chunks_invariant (I : Z -> World -> Prop) :
  (forall pos w r w',
     I pos w ->
     last_byte (w_eng w) < file_size (w_eng w) ->
     chunk_step env remote_path local_path pos w = (r, w') ->
     match r with
     | Ok (Continue pos') => I pos' w'
     | _ => exists p, I p w'
     end) ->
  forall pos w r w',
    I pos w ->
    transfer_chunks env remote_path local_path pos w = (r, w') ->
    exists p, I p w'.
Proof.
  intros Hstep pos w r w' HI H. unfold transfer_chunks in H.
  unfold bind at 1 in H. unfold get_eng in H.
  exact (chunk_loop_invariant I Hstep _ _ _ _ _ HI H).
Qed.

(** The paths of a download. *)
Lemma download_paths w r w' :
  download_with_armor env remote_path local_path w = (r, w') ->
  download_path env remote_path local_path w r w'.
Proof.
  intros H. unfold download_with_armor, try_except, bind in H.
  unfold download_path.
  destruct (start_transfer env remote_path local_path w)
    as [[[pos0|]|e] w0] eqn:Hs.
  - right. right.
    destruct (transfer_chunks env remote_path local_path pos0 w0)
      as [[[]|e] w1] eqn:Hl.
    + exists pos0, w0, w1. split; [reflexivity|]. right.
      split; [exact Hl|].
      rewrite <- H.
      pose proof (start_transfer_started _ _ _ _ _ _ Hs)
        as (_ & _ & _ & _ & _ & _ & content & Hc & _).
      destruct (transfer_keeps_files _ _ _ _ _ _ _ Hl) as [_ Hkeep].
      destruct (Hkeep local_path (ex_intro _ content Hc)) as [content1 Hc1].
      unfold verify_size, getsize, bind, get_fs, get_eng, local_size,
        transfer_failed, bind, get_eng, log, emit, raise.
      rewrite Hc1. unfold ret. cbv beta iota.
      destruct (PyStr.len content1 =? file_size (w_eng w1)); reflexivity.
    + exists pos0, w0, w1. split; [reflexivity|]. left. exists e.
      split; [exact Hl|].
      simpl in H. unfold transfer_failed, bind, get_eng, log, emit, raise in H.
      injection H as <- <-. auto.
  - right. left. unfold ret in H. injection H as <- <-. auto.
  - left. exists e, w0. split; [reflexivity|].
    simpl in H. unfold transfer_failed, bind, get_eng, log, emit, raise in H.
    injection H as <- <-. auto.
Qed.

End Content.

Lemma tick_le_preorder : world_preorder tick_le.
Proof. split; unfold tick_le; simpl; intros; lia. Qed.

Lemma local_size_content path w :
  local_size path w = PyStr.len (local_content path w).
Proof.
  unfold local_size, local_content. destruct (w_fs w !! path); reflexivity.
Qed.

Section BeforeLoop.

Variable env : Env.
Variables remote_path local_path : string.

(** Everything before the loop, for every way it can end: the local file
    holds what it held; [stat] either did not answer, and the engine is as
    it was, or it did, and [file_size] and [last_byte] are the two sizes. *)
Lemma start_transfer_files w r w0 :
  start_transfer env remote_path local_path w = (r, w0) ->
  local_content local_path w0 = local_content local_path w
  /\ fs_only_at local_path w w0
  /\ transport (w_eng w0) = transport (w_eng w)
  /\ sftp (w_eng w0) = sftp (w_eng w)
  /\ ((w_eng w0 = w_eng w
       /\ exists e, r = Raise e
            /\ (sftp (w_eng w) = None
                \/ env_fault env OpStat (w_tick w) = Some e))
      \/ (sftp (w_eng w) <> None
          /\ env_fault env OpStat (w_tick w) = None
          /\ file_size (w_eng w0)
             = PyStr.len (env_remote env (w_tick w) remote_path)
          /\ last_byte (w_eng w0) = local_size local_path w
          /\ (r = Ok None -> file_size (w_eng w0) <= last_byte (w_eng w0))
          /\ (forall pos0, r = Ok (Some pos0) ->
                pos0 = last_byte (w_eng w0)
                /\ last_byte (w_eng w0) < file_size (w_eng w0)
                /\ is_Some (w_fs w0 !! local_path)))).
Proof.
  intros H. pose proof (local_size_nonneg local_path w) as Hn.
  unfold local_size in *.
  unfold start_transfer, sftp_call, size_or_zero, local_open in H.
  unfold_monad H.
  assert (Hrefl : fs_only_at local_path w w) by (split; auto).
  assert (Hins : forall v,
            fs_only_at local_path w
              (with_fs (fun fs => <[local_path := v]> fs) w)).
  { intros v. split; simpl.
    - intros p Hp. apply lookup_insert_ne. congruence.
    - intros p Hp. destruct (decide (local_path = p)) as [->|Hne].
      + rewrite lookup_insert_eq. eauto.
      + rewrite lookup_insert_ne by exact Hne. exact Hp. }
  destruct (sftp (w_eng w)) as [ch|] eqn:Es; simpl in H.
  2:{ injection H as <- <-.
      split; [reflexivity|]. split; [exact Hrefl|].
      split; [reflexivity|]. split; [exact Es|].
      left. split; eauto. }
  destruct (env_fault env OpStat (w_tick w)) as [e0|] eqn:Ef; simpl in H.
  { injection H as <- <-.
    split; [reflexivity|]. split; [exact Hrefl|].
    split; [reflexivity|]. split; [exact Es|].
    left. split; eauto. }
  assert (Hdone : Some ch <> None) by discriminate.
  unfold local_content.
  destruct (w_fs w !! local_path) as [content|] eqn:El; simpl in H.
  - destruct (Z.leb_spec (PyStr.len (env_remote env (w_tick w) remote_path))
                (PyStr.len content)); simpl in H.
    { injection H as <- <-. simpl. rewrite El. simpl.
      split; [reflexivity|]. split; [exact Hrefl|].
      split; [reflexivity|]. split; [exact Es|].
      right. repeat split; auto; discriminate. }
    rewrite Es in H. simpl in H.
    destruct (env_fault env OpRemoteOpen (S (w_tick w))); simpl in H.
    { injection H as <- <-. simpl. rewrite El. simpl.
      split; [reflexivity|]. split; [exact Hrefl|].
      split; [reflexivity|]. split; [exact Es|].
      right. repeat split; auto; discriminate. }
    destruct (env_fault env OpLocalOpen (S (S (w_tick w)))); simpl in H.
    { injection H as <- <-. simpl. rewrite El. simpl.
      split; [reflexivity|]. split; [exact Hrefl|].
      split; [reflexivity|]. split; [exact Es|].
      right. repeat split; auto; discriminate. }
    injection H as <- <-. simpl.
    destruct (Z.ltb_spec 0 (PyStr.len content)).
    + rewrite El. simpl. rewrite El. simpl.
      split; [reflexivity|].
      split; [unfold fs_only_at; simpl; rewrite El; exact Hrefl|].
      split; [reflexivity|]. split; [exact Es|].
      right. split; [exact Hdone|]. split; [reflexivity|].
      split; [reflexivity|]. split; [reflexivity|].
      split; [discriminate|].
      intros p0 [= <-]. split; [reflexivity|]. split; [lia | eauto].
    + assert (content = EmptyString) by (apply SliceFacts.len_zero; lia).
      subst content. rewrite lookup_insert_eq.
      split; [reflexivity|]. split; [apply Hins|].
      split; [reflexivity|]. split; [exact Es|].
      right. split; [exact Hdone|]. split; [reflexivity|].
      split; [reflexivity|]. split; [reflexivity|].
      split; [discriminate|].
      intros p0 [= <-]. split; [reflexivity|]. split; [lia | eauto].
  - destruct (Z.leb_spec (PyStr.len (env_remote env (w_tick w) remote_path)) 0);
      simpl in H.
    { injection H as <- <-. simpl. rewrite El. simpl.
      split; [reflexivity|]. split; [exact Hrefl|].
      split; [reflexivity|]. split; [exact Es|].
      right. repeat split; auto; discriminate. }
    rewrite Es in H. simpl in H.
    destruct (env_fault env OpRemoteOpen (S (w_tick w))); simpl in H.
    { injection H as <- <-. simpl. rewrite El. simpl.
      split; [reflexivity|]. split; [exact Hrefl|].
      split; [reflexivity|]. split; [exact Es|].
      right. repeat split; auto; discriminate. }
    destruct (env_fault env OpLocalOpen (S (S (w_tick w)))); simpl in H.
    { injection H as <- <-. simpl. rewrite El. simpl.
      split; [reflexivity|]. split; [exact Hrefl|].
      split; [reflexivity|]. split; [exact Es|].
      right. repeat split; auto; discriminate. }
    injection H as <- <-. simpl.
    rewrite lookup_insert_eq.
    split; [reflexivity|]. split; [apply Hins|].
    split; [reflexivity|]. split; [exact Es|].
    right. split; [exact Hdone|]. split; [reflexivity|].
    split; [reflexivity|]. split; [reflexivity|].
    split; [discriminate|].
    intros p0 [= <-]. split; [reflexivity|]. split; [lia | eauto].
Qed.

End BeforeLoop.

Section Transfer.

Variable env : Env.
Variables remote_path local_path : string.

Lemma content_after_write w w' chunk :
  w_fs w' = <[local_path := (local_content local_path w ++ chunk)%string]> (w_fs w) ->
  local_content local_path w' = (local_content local_path w ++ chunk)%string
  /\ is_Some (w_fs w' !! local_path).
Proof.
  intros H. unfold local_content at 1. rewrite H, lookup_insert_eq. eauto.
Qed.

Lemma tracks_pass c0 pos w r w' :
  tracks local_path c0 pos w ->
  chunk_step env remote_path local_path pos w = (r, w') ->
  match r with
  | Ok (Continue pos') => tracks local_path c0 pos' w'
  | _ => exists p, tracks local_path c0 p w'
  end.
Proof.
  intros (Hp & Hl & Hs & suffix & Hc) H.
  apply chunk_step_content in H
    as [[[He Hf] Hr] | (n & chunk & _ & _ & Hf & He & Hr)].
  - assert (HI : tracks local_path c0 pos w').
    { unfold tracks, local_content in *. rewrite He, Hf. eauto. }
    destruct Hr as [-> | [e ->]]; eauto.
  - destruct (content_after_write _ _ _ Hf) as [Hc' Hs'].
    assert (HI : tracks local_path c0 (pos + PyStr.len chunk) w').
    { unfold tracks. rewrite Hc', He, SliceFacts.len_app. simpl.
      split; [lia|]. split; [lia|]. split; [exact Hs'|].
      exists (suffix ++ chunk)%string.
      rewrite Hc, SliceFacts.app_assoc. reflexivity. }
    destruct Hr as [-> | [e ->]]; eauto.
Qed.

Lemma resumable_pass data whole pos w r w' :
  static_remote env remote_path data ->
  resumable local_path data whole pos w ->
  chunk_step env remote_path local_path pos w = (r, w') ->
  match r with
  | Ok (Continue pos') => resumable local_path data whole pos' w'
  | _ => exists p, resumable local_path data whole p w'
  end.
Proof.
  intros Hst (Hp & Hl & Hs & Hc & Hle & Hfs) H.
  apply chunk_step_content in H
    as [[[He Hf] Hr] | (n & chunk & Hch & Hpos & Hf & He & Hr)].
  - assert (HI : resumable local_path data whole pos w').
    { unfold resumable, local_content in *. rewrite He, Hf. tauto. }
    destruct Hr as [-> | [e ->]]; eauto.
  - destruct (content_after_write _ _ _ Hf) as [Hc' Hs'].
    rewrite (Hst n) in Hch.
    pose proof (LenFacts.len_nonneg (local_content local_path w)) as Hn.
    assert (HI : resumable local_path data whole (pos + PyStr.len chunk) w').
    { unfold resumable. rewrite Hc', He, SliceFacts.len_app. simpl.
      split; [lia|]. split; [lia|]. split; [exact Hs'|].
      split; [|split; [|exact Hfs]].
      - rewrite SliceFacts.app_assoc, <- Hc. f_equal.
        rewrite <- SliceFacts.drop_drop by lia.
        rewrite Hch. apply SliceFacts.take_drop_len.
      - pose proof (LenFacts.len_take CHUNK_SIZE (PyStr.drop pos data)) as Ht.
        pose proof (LenFacts.len_drop pos data) as Hd.
        rewrite <- Hch in Ht. lia. }
    destruct Hr as [-> | [e ->]]; eauto.
Qed.

(** Whatever a download does, it only adds to the end of the local file
    and leaves the other files alone; and once [stat] has answered,
    [last_byte] is the size of the local file when the download ends. *)
Lemma download_appends w r w' :
  download_with_armor env remote_path local_path w = (r, w') ->
  fs_only_at local_path w w'
  /\ (exists suffix,
        local_content local_path w'
        = (local_content local_path w ++ suffix)%string)
  /\ ((w_eng w' = w_eng w
       /\ exists e, r = Raise e
            /\ (sftp (w_eng w) = None
                \/ env_fault env OpStat (w_tick w) = Some e))
      \/ last_byte (w_eng w') = PyStr.len (local_content local_path w')).
Proof.
  intros H. apply download_paths in H.
  assert (Hsame : forall w0,
            local_content local_path w0 = local_content local_path w ->
            exists suffix,
              local_content local_path w0
              = (local_content local_path w ++ suffix)%string).
  { intros w0 ->. exists EmptyString. rewrite SliceFacts.app_empty_r.
    reflexivity. }
  destruct H as [(e & w0 & Hs & -> & ->) | [[Hs ->] | (pos0 & w0 & w1 & Hs & H)]].
  - apply start_transfer_files in Hs as (Hc & Hf & _ & _ & Hd).
    split; [exact Hf|]. split; [apply Hsame; exact Hc|].
    destruct Hd as [[He Hr] | (_ & _ & _ & Hl & _)].
    + left. split; [exact He|]. destruct Hr as (e' & [= <-] & Hr). eauto.
    + right. simpl. rewrite Hl, local_size_content.
      unfold local_content in *. simpl. rewrite Hc. reflexivity.
  - apply start_transfer_files in Hs as (Hc & Hf & _ & _ & Hd).
    split; [exact Hf|]. split; [apply Hsame; exact Hc|].
    destruct Hd as [[He (e' & [=] & _)] | (_ & _ & _ & Hl & _)].
    right. rewrite Hl, local_size_content, Hc. reflexivity.
  - apply start_transfer_files in Hs as (Hc & Hf & _ & _ & Hd).
    destruct Hd as [[He (e' & [=] & _)] | (_ & _ & _ & Hl & _ & Hsome)].
    destruct (Hsome pos0 eq_refl) as (Hp & _ & Hex).
    assert (H0 : tracks local_path (local_content local_path w) pos0 w0).
    { split; [exact Hp|]. split; [|split; [exact Hex | apply Hsame; exact Hc]].
      rewrite Hl, local_size_content, Hc. reflexivity. }
    assert (Hloop : forall r1,
              transfer_chunks env remote_path local_path pos0 w0 = (r1, w1) ->
              fs_only_at local_path w w1
              /\ exists p, tracks local_path (local_content local_path w) p w1).
    { intros r1 Hl1. split.
      - eapply (wp_trans _ (fs_only_at_preorder local_path)); [exact Hf|].
        exact (transfer_keeps_files _ _ _ _ _ _ _ Hl1).
      - eapply transfer_chunks_invariant; [|exact H0|exact Hl1].
        intros pos w2 r2 w3 HI _ Hstep. exact (tracks_pass _ _ _ _ _ HI Hstep). }
    assert (Hend : forall ev,
              fs_only_at local_path w w1 ->
              (exists p, tracks local_path (local_content local_path w) p w1) ->
              fs_only_at local_path w (with_event ev w1)
              /\ (exists suffix,
                    local_content local_path (with_event ev w1)
                    = (local_content local_path w ++ suffix)%string)
              /\ last_byte (w_eng (with_event ev w1))
                 = PyStr.len (local_content local_path (with_event ev w1))).
    { intros ev Hf1 (p & _ & Hl1 & _ & Hsuf). auto. }
    destruct H as [(e & Hl1 & -> & ->) | (Hl1 & Hv)].
    + destruct (Hloop _ Hl1) as [Hf1 HI].
      destruct (Hend (EvLog (LogTransferFailed (last_byte (w_eng w1)) e)) Hf1 HI)
        as (A & B & C). auto.
    + destruct (Hloop _ Hl1) as [Hf1 HI].
      destruct (local_size local_path w1 =? file_size (w_eng w1));
        injection Hv as -> ->;
        match goal with
        | |- context [with_event ?ev w1] =>
            destruct (Hend ev Hf1 HI) as (A & B & C)
        end; auto.
Qed.

(** With the remote file holding [data] throughout, the local file
    followed by the part of [data] beyond its length is the same string
    before and after a download, however the download ends; and a download
    that returns true leaves a local file at least as long as [data]. *)
Lemma download_static data w r w' :
  static_remote env remote_path data ->
  download_with_armor env remote_path local_path w = (r, w') ->
  (local_content local_path w'
   ++ PyStr.drop (PyStr.len (local_content local_path w')) data)%string
  = (local_content local_path w
     ++ PyStr.drop (PyStr.len (local_content local_path w)) data)%string
  /\ (r = Ok true -> PyStr.len data <= PyStr.len (local_content local_path w')).
Proof.
  intros Hst H. apply download_paths in H.
  destruct H as [(e & w0 & Hs & -> & ->) | [[Hs ->] | (pos0 & w0 & w1 & Hs & H)]].
  - apply start_transfer_files in Hs as (Hc & _).
    unfold local_content in *. simpl. rewrite Hc. split; [reflexivity|].
    discriminate.
  - apply start_transfer_files in Hs as (Hc & _ & _ & _ & Hd).
    rewrite Hc. split; [reflexivity|]. intros _.
    destruct Hd as [[He (e' & [=] & _)] | (_ & _ & Hfs & Hl & Hnone & _)].
    specialize (Hnone eq_refl).
    rewrite Hfs, Hl, (Hst (w_tick w)), local_size_content in Hnone. exact Hnone.
  - apply start_transfer_files in Hs as (Hc & Hf & _ & _ & Hd).
    destruct Hd as [[He (e' & [=] & _)] | (_ & _ & Hfs & Hl & _ & Hsome)].
    destruct (Hsome pos0 eq_refl) as (Hp & Hlt & Hex).
    rewrite (Hst (w_tick w)) in Hfs. rewrite local_size_content in Hl.
    set (whole := (local_content local_path w
                   ++ PyStr.drop (PyStr.len (local_content local_path w)) data)%string).
    assert (H0 : resumable local_path data whole pos0 w0).
    { unfold resumable. rewrite Hc, Hp, Hl.
      split; [reflexivity|]. split; [reflexivity|]. split; [exact Hex|].
      split; [reflexivity|]. split; [lia | exact Hfs]. }
    assert (Hloop : forall r1,
              transfer_chunks env remote_path local_path pos0 w0 = (r1, w1) ->
              exists p, resumable local_path data whole p w1).
    { intros r1 Hl1.
      eapply transfer_chunks_invariant; [|exact H0|exact Hl1].
      intros pos w2 r2 w3 HI _ Hstep.
      exact (resumable_pass _ _ _ _ _ _ Hst HI Hstep). }
    assert (Hend : forall ev,
              (exists p, resumable local_path data whole p w1) ->
              (local_content local_path (with_event ev w1)
               ++ PyStr.drop
                    (PyStr.len (local_content local_path (with_event ev w1)))
                    data)%string
              = whole).
    { intros ev (p & Hp1 & Hl1 & _ & Hw & _).
      change (local_content local_path (with_event ev w1))
        with (local_content local_path w1).
      rewrite <- Hl1, <- Hp1. exact Hw. }
    destruct H as [(e & Hl1 & -> & ->) | (Hl1 & Hv)].
    + split; [apply Hend, (Hloop _ Hl1) | discriminate].
    + pose proof (Hloop _ Hl1) as HI.
      destruct (Z.eqb_spec (local_size local_path w1) (file_size (w_eng w1)))
        as [Heq|Hne]; injection Hv as -> ->.
      * split; [apply Hend, HI|]. intros _.
        destruct HI as (p & _ & _ & _ & _ & _ & Hfs1).
        change (local_content local_path (with_event (EvLog LogVerified) w1))
          with (local_content local_path w1).
        rewrite <- local_size_content, Heq, Hfs1. lia.
      * split; [apply Hend, HI | discriminate].
Qed.

End Transfer.

(** ** A download that nothing disturbs *)

Section Calm.

Variable env : Env.
Variables remote_path local_path : string.

Lemma chunk_step_tick pos :
  respects tick_le (chunk_step env remote_path local_path pos).
Proof.
  pose proof tick_le_preorder as HR.
  unfold chunk_step, watchdog, verify_connection, read_and_store,
    local_write, report_progress.
  apply (respects_bind _ HR); [respects_auto HR|intros _].
  apply (respects_try_except _ HR); [|intros e; respects_auto HR].
  apply (respects_bind _ HR); [respects_auto HR|intros n]. cbv zeta.
  destruct (PyStr.take _ _) as [|c s];
    respects_auto HR; unfold tick_le; simpl; lia.
Qed.

Lemma start_transfer_tick :
  respects tick_le (start_transfer env remote_path local_path).
Proof.
  pose proof tick_le_preorder as HR.
  unfold start_transfer, sftp_call, size_or_zero, local_open.
  respects_auto HR; unfold tick_le; simpl; lia.
Qed.

Lemma start_transfer_calm w :
  calm_from env (w_tick w) ->
  sftp (w_eng w) <> None ->
  exists started w0,
    start_transfer env remote_path local_path w = (Ok started, w0).
Proof.
  intros [Hf _] Hs.
  unfold start_transfer, sftp_call, size_or_zero, local_open, bind, get_eng,
    get_fs, update_eng, update_fs, log, emit, ask, ret, raise.
  simpl.
  destruct (sftp (w_eng w)) as [ch|] eqn:Es; [|contradiction]. simpl.
  rewrite (Hf OpStat (w_tick w)) by lia. simpl.
  destruct (w_fs w !! local_path) as [content|]; simpl;
    match goal with
    | |- context [if ?c then _ else _] => destruct c
    end; simpl; eauto;
    rewrite Es; simpl;
    rewrite (Hf OpRemoteOpen (S (w_tick w))) by lia; simpl;
    rewrite (Hf OpLocalOpen (S (S (w_tick w)))) by lia; simpl; eauto.
Qed.

Lemma read_and_store_calm t data pos w :
  calm_from env t ->
  (t <= w_tick w)%nat ->
  static_remote env remote_path data ->
  0 <= pos < PyStr.len data ->
  exists w',
    read_and_store env remote_path local_path pos w
    = (Ok (Continue
             (pos + PyStr.len (PyStr.take CHUNK_SIZE (PyStr.drop pos data)))),
       w').
Proof.
  intros [Hf Hg] Ht Hst Hp.
  assert (Hlen : 0 < PyStr.len (PyStr.take CHUNK_SIZE (PyStr.drop pos data))).
  { apply SliceFacts.take_drop_nonempty; [reflexivity | lia | lia]. }
  unfold read_and_store, bind at 1. unfold ask.
  rewrite (Hf OpRead (w_tick w)) by lia. rewrite (Hst (w_tick w)).
  destruct (PyStr.take CHUNK_SIZE (PyStr.drop pos data)) as [|c s] eqn:Ech.
  { change (PyStr.len "") with 0 in Hlen. lia. }
  unfold local_write, report_progress, bind, ask, clock, update_fs,
    update_eng, get_eng, ret.
  cbn [w_tick with_eng with_fs with_event with_tick].
  rewrite (Hf OpLocalWrite (S (w_tick w))) by lia.
  cbn [w_tick with_eng with_fs with_event with_tick].
  rewrite (Hg (S (S (w_tick w)))) by lia.
  eexists. reflexivity.
Qed.

Lemma chunk_step_calm t data pos w :
  calm_from env t ->
  (t <= w_tick w)%nat ->
  static_remote env remote_path data ->
  transport (w_eng w) <> None ->
  0 <= pos < PyStr.len data ->
  exists pos' w',
    chunk_step env remote_path local_path pos w = (Ok (Continue pos'), w').
Proof.
  intros Hc Ht Hst Htr Hp. pose proof Hc as [Hf _].
  unfold chunk_step, bind. rewrite watchdog_run. cbv zeta.
  destruct (transport (w_eng w)) as [tr|]; [|contradiction].
  rewrite (Hf OpSendIgnore (S (w_tick w))) by lia.
  destruct (time_mod_is_zero (env_clock env (w_tick w)) 10);
    unfold try_except;
    match goal with
    | |- context [read_and_store env remote_path local_path pos ?w1] =>
        destruct (read_and_store_calm t data pos w1 Hc) as [w' Hr];
          [simpl; lia | exact Hst | exact Hp | rewrite Hr; eauto]
    end.
Qed.

(** Started at the head of the loop with nothing to disturb it, the loop
    is left normally with all of [data] fetched. *)
Lemma transfer_calm t data whole n : forall pos w,
  calm_from env t ->
  static_remote env remote_path data ->
  (Z.to_nat (PyStr.len data - pos) <= n)%nat ->
  (t <= w_tick w)%nat ->
  transport (w_eng w) <> None ->
  resumable local_path data whole pos w ->
  exists w' p,
    transfer_chunks env remote_path local_path pos w = (Ok tt, w')
    /\ resumable local_path data whole p w'
    /\ file_size (w_eng w') <= last_byte (w_eng w').
Proof.
  induction n as [|n IH]; intros pos w Hc Hst Hm Ht Htr HI;
    rewrite transfer_chunks_unfold;
    pose proof HI as (Hp & Hl & _ & _ & Hle & Hfs);
    pose proof (LenFacts.len_nonneg (local_content local_path w)) as Hn;
    destruct (Z.ltb_spec (last_byte (w_eng w)) (file_size (w_eng w)))
      as [Hlt|Hge]; try (exists w, pos; auto; fail).
  - lia.
  - destruct (chunk_step_calm t data pos w Hc Ht Hst Htr) as (pos' & w1 & Hs);
      [lia|].
    rewrite Hs.
    pose proof (resumable_pass _ _ _ _ _ _ _ _ _ Hst HI Hs) as HI1.
    pose proof (chunk_step_tick _ _ _ _ Hs) as Ht1. unfold tick_le in Ht1.
    apply chunk_step_effect in Hs as (_ & Htr1 & _ & _ & Hadv & _).
    destruct (Hadv pos' eq_refl) as [Hgt Hd].
    apply IH; auto; try lia; congruence.
Qed.

(** With the connection up, nothing failing and the clock never on a whole
    multiple of 30 seconds, a download of a remote file that does not
    change returns true. *)
Lemma download_calm data w :
  calm_from env (w_tick w) ->
  handles_set w ->
  static_remote env remote_path data ->
  exists w', download_with_armor env remote_path local_path w = (Ok true, w').
Proof.
  intros Hc [Htr Hsf] Hst.
  destruct (start_transfer_calm w Hc Hsf) as (started & w0 & Hs).
  destruct started as [pos0|].
  2:{ exists w0. unfold download_with_armor, try_except.
      rewrite (bind_ok _ _ _ _ _ Hs). reflexivity. }
  pose proof (start_transfer_tick _ _ _ Hs) as Ht. unfold tick_le in Ht.
  pose proof (start_transfer_files _ _ _ _ _ _ Hs) as (Hcont & _ & Htr0 & _ & Hd).
  destruct Hd as [[_ (e' & [=] & _)] | (_ & _ & Hfs & Hl & _ & Hsome)].
  destruct (Hsome pos0 eq_refl) as (Hp & Hlt & Hex).
  rewrite (Hst (w_tick w)) in Hfs. rewrite local_size_content in Hl.
  set (whole := (local_content local_path w
                 ++ PyStr.drop (PyStr.len (local_content local_path w)) data)%string).
  assert (H0 : resumable local_path data whole pos0 w0).
  { unfold resumable. rewrite Hcont, Hp, Hl.
    split; [reflexivity|]. split; [reflexivity|]. split; [exact Hex|].
    split; [reflexivity|]. split; [lia | exact Hfs]. }
  destruct (transfer_calm (w_tick w) data whole
              (Z.to_nat (PyStr.len data - pos0)) pos0 w0)
    as (w1 & p & Hl1 & (Hp1 & Hlen1 & _ & _ & Hle1 & Hfs1) & Hge1);
    auto; try congruence.
  rewrite (download_after_loop env _ _ _ _ _ _ Hs Hl1).
  rewrite local_size_content.
  destruct (Z.eqb_spec (PyStr.len (local_content local_path w1))
              (file_size (w_eng w1))); [eauto | lia].
Qed.

End Calm.

(** ** Resuming *)

(** X1.  While the remote file holds [data], a local file that is a
    beginning of [data] stays one across [download_with_armor], however the
    call ends (returned, raised at any point): the call only adds to the end
    of what the file held, and what it adds is the part of [data] that
    follows. *)
Theorem partial_file_stays_prefix :
  forall env remote_path local_path data w r w',
    static_remote env remote_path data ->
    starts (local_content local_path w) data ->
    download_with_armor env remote_path local_path w = (r, w') ->
    starts (local_content local_path w') data
    /\ exists suffix,
         local_content local_path w'
         = (local_content local_path w ++ suffix)%string.
Proof.
  intros env rp lp data w r w' Hst Hpre H.
  destruct (download_static env rp lp data w r w' Hst H) as [Heq _].
  destruct (download_appends env rp lp w r w' H) as (_ & Hsuf & _).
  split; [|exact Hsuf].
  rewrite (SliceFacts.starts_rest _ _ Hpre) in Heq.
  unfold starts. rewrite <- Heq at 1. apply SliceFacts.take_app_len.
Qed.

Lemma partial_file_stays_prefix_witness :
  starts
    (local_content "/local/f"
       (snd (download_with_armor read_fails_once "/remote/f" "/local/f"
               (Examples.connected ∅))))
    "0123456789".
Proof.
  refine (proj1 (partial_file_stays_prefix read_fails_once "/remote/f"
                   "/local/f" "0123456789" (Examples.connected ∅)
                   (Raise EOFError) _ _ _ _)).
  - intros n. reflexivity.
  - vm_compute. reflexivity.
  - apply run_eta. vm_compute. reflexivity.
Defined.

(** X2.  While the remote file holds [data], a [download_with_armor] that
    returns true leaves in the local file what it held before followed by
    the part of [data] beyond that length; when the file held a beginning
    of [data] (or nothing), it now holds exactly [data]. *)
Theorem download_true_means_complete :
  forall env remote_path local_path data w w',
    static_remote env remote_path data ->
    download_with_armor env remote_path local_path w = (Ok true, w') ->
    local_content local_path w'
    = (local_content local_path w
       ++ PyStr.drop (PyStr.len (local_content local_path w)) data)%string
    /\ (starts (local_content local_path w) data ->
        local_content local_path w' = data).
Proof.
  intros env rp lp data w w' Hst H.
  destruct (download_static env rp lp data w _ w' Hst H) as [Heq Hlen].
  rewrite (SliceFacts.drop_all _ _ (Hlen eq_refl)), SliceFacts.app_empty_r in Heq.
  split; [exact Heq|].
  intros Hpre. rewrite Heq. apply SliceFacts.starts_rest, Hpre.
Qed.

Lemma download_true_means_complete_witness :
  local_content "/local/f"
    (snd (download_with_armor Examples.quiet "/remote/f" "/local/f"
            (Examples.connected {[ "/local/f" := "0123" ]})))
  = "0123456789".
Proof.
  refine (proj2 (download_true_means_complete Examples.quiet "/remote/f"
                   "/local/f" "0123456789"
                   (Examples.connected {[ "/local/f" := "0123" ]}) _ _ _) _).
  - intros n. reflexivity.
  - apply run_eta. vm_compute. reflexivity.
  - vm_compute. reflexivity.
Defined.

(** X3.  With both handles set, no operation failing and the clock never
    read on a whole multiple of 30 seconds, [download_with_armor] of a
    remote file that holds [data] throughout returns true (it does not
    raise, and the loop ends), and the local file then holds what it held
    followed by the rest of [data]. *)
Theorem undisturbed_download_completes :
  forall env remote_path local_path data w,
    calm_from env (w_tick w) ->
    handles_set w ->
    static_remote env remote_path data ->
    exists w',
      download_with_armor env remote_path local_path w = (Ok true, w')
      /\ local_content local_path w'
         = (local_content local_path w
            ++ PyStr.drop (PyStr.len (local_content local_path w)) data)%string.
Proof.
  intros env rp lp data w Hc Hh Hst.
  destruct (download_calm env rp lp data w Hc Hh Hst) as [w' H].
  exists w'. split; [exact H|].
  destruct (download_static env rp lp data w _ w' Hst H) as [Heq Hlen].
  rewrite (SliceFacts.drop_all _ _ (Hlen eq_refl)), SliceFacts.app_empty_r in Heq.
  exact Heq.
Qed.

Lemma undisturbed_download_completes_witness :
  exists w',
    download_with_armor Examples.quiet "/remote/f" "/local/f"
      (Examples.connected ∅)
    = (Ok true, w')
    /\ local_content "/local/f" w' = "0123456789".
Proof.
  destruct (undisturbed_download_completes Examples.quiet "/remote/f"
              "/local/f" "0123456789" (Examples.connected ∅))
    as (w' & H & Hc).
  - split; intros; reflexivity.
  - split; discriminate.
  - intros n. reflexivity.
  - exists w'. split; [exact H | exact Hc].
Defined.

(** X4.  Interrupted, then resumed: while the remote file holds [data], let
    a first [download_with_armor] end in any way, starting from a local
    file that is a beginning of [data] (or from none).  A later call that
    finds the local file as the first left it, with both handles set and
    nothing to disturb it, returns true and leaves exactly [data] in the
    local file. *)
Theorem interrupted_download_resumes :
  forall env remote_path local_path data w r w1 w2,
    static_remote env remote_path data ->
    starts (local_content local_path w) data ->
    download_with_armor env remote_path local_path w = (r, w1) ->
    local_content local_path w2 = local_content local_path w1 ->
    handles_set w2 ->
    calm_from env (w_tick w2) ->
    exists w3,
      download_with_armor env remote_path local_path w2 = (Ok true, w3)
      /\ local_content local_path w3 = data.
Proof.
  intros env rp lp data w r w1 w2 Hst Hpre H1 Hsame Hh Hc.
  destruct (download_static env rp lp data w r w1 Hst H1) as [Heq1 _].
  destruct (download_calm env rp lp data w2 Hc Hh Hst) as [w3 H3].
  exists w3. split; [exact H3|].
  destruct (download_static env rp lp data w2 _ w3 Hst H3) as [Heq3 Hlen].
  rewrite (SliceFacts.drop_all _ _ (Hlen eq_refl)), SliceFacts.app_empty_r in Heq3.
  rewrite Heq3, Hsame, Heq1. apply SliceFacts.starts_rest, Hpre.
Qed.

Lemma interrupted_download_resumes_witness :
  exists w3,
    download_with_armor read_fails_once "/remote/f" "/local/f"
      (snd (download_with_armor read_fails_once "/remote/f" "/local/f"
              (Examples.connected ∅)))
    = (Ok true, w3)
    /\ local_content "/local/f" w3 = "0123456789".
Proof.
  refine (interrupted_download_resumes read_fails_once "/remote/f" "/local/f"
            "0123456789" (Examples.connected ∅) (Raise EOFError) _ _
            _ _ _ eq_refl _ _).
  - intros n. reflexivity.
  - vm_compute. reflexivity.
  - apply run_eta. vm_compute. reflexivity.
  - split; vm_compute; discriminate.
  - split.
    + intros op n Hn. change (w_tick _) with 5%nat in Hn.
      destruct op; try reflexivity. simpl.
      destruct (Nat.ltb_spec n 5); [lia | reflexivity].
    + intros n _. reflexivity.
Defined.

(** X5.  Whatever [download_with_armor] does and however it ends, what it
    leaves in the local file begins with what the file held before: it
    only adds to the end, bytes already on disk are never rewritten or
    dropped.  And it removes no file. *)
Theorem download_only_appends :
  forall env remote_path local_path w,
    let p := download_with_armor env remote_path local_path w in
    (exists suffix,
       local_content local_path (snd p)
       = (local_content local_path w ++ suffix)%string)
    /\ (forall q, is_Some (w_fs w !! q) -> is_Some (w_fs (snd p) !! q)).
Proof.
  intros env rp lp w p.
  destruct (download_appends env rp lp w (fst p) (snd p))
    as ([_ Hkeep] & Hsuf & _).
  { unfold p. destruct (download_with_armor env rp lp w). reflexivity. }
  split; [exact Hsuf | exact Hkeep].
Qed.

(** ** How a download fails *)

Section FailureLine.

Variable env : Env.
Variables remote_path local_path : string.



End FailureLine.



(** ** [connect] *)

(** X7.  What [connect] leaves behind.  When it returns, the transport has
    the 16 MB window, the 512 MB rekey threshold, compression and the 15 s
    keepalive, the SFTP channel is open, and four socket options were set on Linux and Darwin, one on any
    other platform: an unknown platform is logged, not an error.  When it
    raises, it raises what one of its requests raised, that request being
    the last thing it did; if that was the creation of the transport the
    engine is as it was, otherwise [self.transport] is set (window and
    compression already configured), so that [close()] has something to
    close. *)
Theorem connect_outcome :
  forall env w,
    let p := connect env w in
    exists evs,
      w_trace (snd p) = w_trace w ++ evs
      /\ match fst p with
          | Ok _ =>
              transport (w_eng (snd p)) = Some hardened
              /\ sftp (w_eng (snd p)) = Some ChanOpen
              /\ length (List.filter is_setsockopt evs)
                 = if String.eqb (env_platform env) "Linux"
                      || String.eqb (env_platform env) "Darwin"
                   then 4%nat else 1%nat
          | Raise e =>
              exists before op,
                evs = before ++ [EvCall op (Some e)]
                /\ match op with
                   | OpTransport => w_eng (snd p) = w_eng w
                   | _ =>
                       exists t,
                         transport (w_eng (snd p)) = Some t
                         /\ window_size t = 16 * 1024 * 1024
                         /\ compression t = true
                   end
          end.
Proof.
  intros env w p. unfold p, connect, on_transport.
  unfold bind, ask, update_eng, get_eng, log, emit, ret, raise.
  cbn [w_tick w_eng w_fs w_trace with_eng with_fs with_event with_tick
       with_transport with_sftp transport sftp fst snd].
  repeat
    match goal with
    | |- context [env_fault env ?op ?n] =>
        destruct (env_fault env op n) as [?e|] eqn:?;
          cbn [w_tick w_eng w_fs w_trace with_eng with_fs with_event with_tick
               with_transport with_sftp transport sftp fst snd keepalive active
               window_size rekey_bytes compression]
    | |- context [if ?b then _ else _] =>
        destruct b eqn:?;
          cbn [w_tick w_eng w_fs w_trace with_eng with_fs with_event with_tick
               with_transport with_sftp transport sftp fst snd keepalive active
               window_size rekey_bytes compression]
    end;
    eexists;
    (split; [rewrite <- ?app_assoc; simpl; reflexivity|]);
    try (split; [reflexivity|]; split; reflexivity);
    try (eexists _, _; split;
         [ first [ exact (eq_refl : _ = [] ++ [_])
                 | exact (eq_refl : _ = [_] ++ [_])
                 | exact (eq_refl : _ = [_; _] ++ [_])
                 | exact (eq_refl : _ = [_; _; _] ++ [_])
                 | exact (eq_refl : _ = [_; _; _; _] ++ [_])
                 | exact (eq_refl : _ = [_; _; _; _; _] ++ [_])
                 | exact (eq_refl : _ = [_; _; _; _; _; _] ++ [_])
                 | exact (eq_refl : _ = [_; _; _; _; _; _; _] ++ [_]) ]
         | first [ reflexivity | eexists; repeat split ] ]).
Qed.

(** ** The record file and the choice of the file *)

Section Record.

Variable cfg : Config.
Variable env : Env.

Lemma read_last_date_value w r w' :
  read_last_date cfg env w = (r, w') ->
  same_state w w'
  /\ ((r = Ok (last_date_of (w_fs w !! record_file cfg))
       /\ (w_tick w <= w_tick w' <= S (w_tick w))%nat)
      \/ (exists e, r = Raise e
            /\ env_fault env OpRecordRead (w_tick w) = Some e)).
Proof.
  unfold read_last_date. intros H. unfold_monad H.
  destruct (w_fs w !! record_file cfg) as [content|]; simpl in H.
  - destruct (env_fault env OpRecordRead (w_tick w)) as [e|] eqn:Ef;
      simpl in H; injection H as <- <-; (split; [split; reflexivity|]).
    + right. eauto.
    + left. simpl. split; [reflexivity | lia].
  - injection H as <- <-. split; [split; reflexivity|]. left.
    split; [reflexivity | lia].
Qed.

Lemma sftp_call_cases op w r w' :
  sftp_call env op w = (r, w') ->
  same_state w w'
  /\ ((r = Ok (w_tick w) /\ env_fault env op (w_tick w) = None)
      \/ (exists e, r = Raise e
            /\ ((e = AttributeError /\ sftp (w_eng w) = None)
                \/ env_fault env op (w_tick w) = Some e))).
Proof.
  unfold sftp_call. intros H. unfold_monad H.
  destruct (sftp (w_eng w)) as [ch|]; simpl in H.
  - destruct (env_fault env op (w_tick w)) as [e|] eqn:Ef;
      injection H as <- <-; (split; [split; reflexivity|]); eauto.
  - injection H as <- <-. split; [split; reflexivity|]. eauto 6.
Qed.

Lemma filter_empty {A} (f : A -> bool) l :
  List.filter f l = [] -> forall x, In x l -> f x = false.
Proof.
  induction l as [|a l IH]; intros H x Hx; [contradiction|].
  simpl in H. destruct (f a) eqn:Ea; [discriminate|].
  destruct Hx as [<-|Hx]; [exact Ea | exact (IH H x Hx)].
Qed.

(** The three ways [select_remote_file] returns, and the two ways it
    raises. *)
Lemma select_outcomes w r w' :
  select_remote_file cfg env w = (r, w') ->
  same_state w w'
  /\ let last := last_date_of (w_fs w !! record_file cfg) in
     match r with
     | Raise e =>
         env_fault env OpRecordRead (w_tick w) = Some e
         \/ (exists n, (w_tick w <= n)%nat /\ env_fault env OpListdir n = Some e)
         \/ (e = AttributeError /\ sftp (w_eng w) = None)
     | Ok x =>
         exists n,
           (w_tick w <= n)%nat
           /\ let files := ipi_files (env_listdir env n) in
              match x with
              | inl ExitNoMatching => files = []
              | inl ExitNothingNew =>
                  files <> [] /\ filtered_files last files = []
              | inl _ => False
              | inr f =>
                  In f (filtered_files last files)
                  /\ exists df,
                       extract_date f = Some df
                       /\ forall g dg,
                            In g (filtered_files last files) ->
                            extract_date g = Some dg ->
                            PyStr.lt dg df = false
              end
     end.
Proof.
  unfold select_remote_file. intros H.
  apply bind_inv in H as [(last & w1 & H1 & H) | (e & H1 & ->)].
  2:{ apply read_last_date_value in H1 as [Hs [[[=] _] | (e' & [= <-] & Hf)]].
      split; [exact Hs|]. left. exact Hf. }
  apply read_last_date_value in H1 as [Hs1 [[[= ->] Ht1] | (e' & [=] & _)]].
  destruct Hs1 as [E1 F1].
  apply bind_inv in H as [(n & w2 & H2 & H) | (e & H2 & ->)].
  2:{ apply sftp_call_cases in H2
        as [[E2 F2] [([=] & _) | (e' & [= <-] & [[-> Hn] | Hf])]];
        (split; [split; congruence|]); right.
      - right. rewrite <- E1. auto.
      - left. exists (w_tick w1). split; [lia | exact Hf]. }
  apply sftp_call_cases in H2
    as [[E2 F2] [([= Hn] & _) | (e' & [=] & _)]].
  cbv zeta in H.
  assert (Hst : forall w3, same_state w2 w3 -> same_state w w3).
  { intros w3 [E3 F3]. split; congruence. }
  destruct (ipi_files (env_listdir env n)) as [|s l] eqn:Efiles.
  { unfold_monad H. injection H as <- <-.
    split; [apply Hst; split; reflexivity|].
    exists n. split; [lia|]. cbv zeta. rewrite Efiles. reflexivity. }
  destruct (filtered_files (last_date_of (w_fs w !! record_file cfg))
              (s :: l)) as [|first rest] eqn:Ekept.
  { unfold_monad H. injection H as <- <-.
    split; [apply Hst; split; reflexivity|].
    exists n. split; [lia|]. cbv zeta. rewrite Efiles.
    split; [discriminate | exact Ekept]. }
  destruct (min_by_date_least rest first) as (f & df & Hmin & Hin & Hdf & Hleast).
  { intros g Hg. rewrite <- Ekept in Hg.
    apply List.filter_In in Hg as [_ Hg]. exact (eligible_keyed _ _ Hg). }
  rewrite Hmin in H. injection H as <- <-.
  split; [apply Hst; split; reflexivity|].
  exists n. split; [lia|]. cbv zeta. rewrite Efiles, Ekept.
  split; [exact Hin|]. exists df. split; [exact Hdf | exact Hleast].
Qed.

End Record.

(** X8.  The record round trip: once [write_record] has written the name
    [f], reading the record (left as written) yields the digits of [f],
    although the reader strips the content and keeps only its digits; with
    that reading [f] itself is no longer eligible, and whatever is eligible
    carries a date above that of [f]. *)
Theorem record_round_trip :
  forall cfg env f w w1 w2,
    write_record cfg env f w = (Ok tt, w1) ->
    w_fs w2 !! record_file cfg = w_fs w1 !! record_file cfg ->
    env_fault env OpRecordRead (w_tick w2) = None ->
    fst (read_last_date cfg env w2) = Ok (Some (digits_of f))
    /\ eligible (Some (digits_of f)) f = false
    /\ forall g,
         eligible (Some (digits_of f)) g = true ->
         g <> f
         /\ exists dg, extract_date g = Some dg
                       /\ PyStr.gt dg (digits_of f) = true.
Proof.
  intros cfg env f w w1 w2 Hw Hsame Hread.
  apply write_record_shape in Hw
    as [(e & [=] & _) | [(e & [=] & _) | (_ & _ & Hrec)]].
  assert (Hnot : eligible (Some (digits_of f)) f = false).
  { unfold eligible. destruct (extract_date f) as [d|] eqn:Ed; [|reflexivity].
    apply extract_date_Some in Ed as [-> _]. apply StrFacts.ltb_irrefl. }
  split; [|split; [exact Hnot|]].
  - unfold read_last_date, bind, get_fs, ask, ret. rewrite Hsame, Hrec, Hread.
    simpl. unfold last_date_of. rewrite StrFacts.digits_strip. reflexivity.
  - intros g Hg. split; [intros ->; congruence|].
    unfold eligible in Hg. destruct (extract_date g) as [dg|]; [|discriminate].
    eauto.
Qed.

Lemma record_round_trip_witness :
  fst (read_last_date Examples.cfg Examples.quiet
         (snd (write_record Examples.cfg Examples.quiet "20250102.IPI"
                 (initial_world ∅))))
  = Ok (Some [50; 48; 50; 53; 48; 49; 48; 50]%N).
Proof.
  refine (proj1 (record_round_trip Examples.cfg Examples.quiet "20250102.IPI"
                   (initial_world ∅) _ _ _ eq_refl _)).
  - apply run_eta. vm_compute. reflexivity.
  - reflexivity.
Defined.

(** X9.  The record is not written atomically: when the record file was
    opened for writing and the write then failed, the file is left empty,
    whatever it named before; read back, the empty record makes every name
    with an 8-digit date eligible again. *)
Theorem failed_record_write_forgets_progress :
  forall cfg env f w e w1,
    env_fault env OpRecordOpen (w_tick w) = None ->
    write_record cfg env f w = (Raise e, w1) ->
    w_fs w1 !! record_file cfg = Some EmptyString
    /\ forall g,
         eligible (last_date_of (w_fs w1 !! record_file cfg)) g = true
         <-> exists dg, extract_date g = Some dg.
Proof.
  intros cfg env f w e w1 Hopen H.
  assert (Hrec : w_fs w1 !! record_file cfg = Some EmptyString).
  { unfold write_record in H. unfold_monad H. rewrite Hopen in H. simpl in H.
    destruct (env_fault env OpRecordWrite (S (w_tick w))); simpl in H;
      [|discriminate].
    injection H as _ <-. simpl. apply lookup_insert_eq. }
  split; [exact Hrec|]. intros g. rewrite Hrec. split.
  - apply eligible_keyed.
  - intros [dg Hg]. unfold eligible. rewrite Hg.
    apply extract_date_Some in Hg as [_ Hlen].
    destruct dg as [|c dg]; [discriminate | reflexivity].
Qed.

Lemma failed_record_write_forgets_progress_witness :
  w_fs (snd (write_record Examples.cfg record_write_fails "20250102.IPI"
               (initial_world Examples.recorded)))
    !! "/state/last_file.txt"
  = Some EmptyString.
Proof.
  refine (proj1 (failed_record_write_forgets_progress Examples.cfg
                   record_write_fails "20250102.IPI"
                   (initial_world Examples.recorded)
                   (IOError "No space left on device") _ eq_refl _)).
  apply run_eta. vm_compute. reflexivity.
Defined.

(** X10.  What [select_remote_file] returns, in terms of the directory
    listing it obtained and the record file it found.  It leaves the
    engine as it was.  It ends the run with "no matching files" exactly
    when no listed name contains [IPI], with "nothing new" exactly when some do but
    none is eligible, and otherwise returns a listed name that contains
    [IPI], is eligible, and whose date no other such name is below. *)
Theorem selection_outcomes :
  forall cfg env w,
    let p := select_remote_file cfg env w in
    let last := last_date_of (w_fs w !! record_file cfg) in
    w_eng (snd p) = w_eng w
    /\ forall x,
         fst p = Ok x ->
         exists n,
           let names := env_listdir env n in
           match x with
           | inl ExitNoMatching =>
               forall g, In g names -> PyStr.contains "IPI" g = false
           | inl ExitNothingNew =>
               (exists g, In g names /\ PyStr.contains "IPI" g = true)
               /\ forall g, In g names -> PyStr.contains "IPI" g = true ->
                            eligible last g = false
           | inl _ => False
           | inr f =>
               In f names
               /\ PyStr.contains "IPI" f = true
               /\ eligible last f = true
               /\ exists df,
                    extract_date f = Some df
                    /\ forall g dg,
                         In g names -> PyStr.contains "IPI" g = true ->
                         eligible last g = true ->
                         extract_date g = Some dg ->
                         PyStr.lt dg df = false
           end.
Proof.
  intros cfg env w p last.
  destruct (select_outcomes cfg env w (fst p) (snd p)) as [Hs Hr].
  { unfold p. destruct (select_remote_file cfg env w). reflexivity. }
  split; [exact (proj1 Hs)|]. intros x Hx. rewrite Hx in Hr. cbv zeta in Hr.
  destruct Hr as (n & _ & Hr). exists n. cbv zeta.
  unfold ipi_files, filtered_files in Hr. fold last in Hr.
  destruct x as [[| | |]|f]; try contradiction.
  - intros g Hg. exact (filter_empty _ _ Hr g Hg).
  - destruct Hr as [Hne Hnone]. split.
    + destruct (List.filter (PyStr.contains "IPI") (env_listdir env n))
        as [|g l] eqn:E; [contradiction|].
      exists g. apply List.filter_In. rewrite E. left. reflexivity.
    + intros g Hg Hc. apply (filter_empty _ _ Hnone g).
      apply List.filter_In. auto.
  - destruct Hr as (Hin & df & Hdf & Hleast).
    apply List.filter_In in Hin as [Hin He].
    apply List.filter_In in Hin as [Hin Hc].
    split; [exact Hin|]. split; [exact Hc|]. split; [exact He|].
    exists df. split; [exact Hdf|].
    intros g dg Hg Hgc Hge Hdg. apply (Hleast g dg); [|exact Hdg].
    apply List.filter_In. split; [|exact Hge].
    apply List.filter_In. auto.
Qed.

(** X11.  [select_remote_file] raises only what reading the record or
    listing the directory raised, or the [AttributeError] of an engine
    whose [sftp] is not set: the comparison of dates inside [min] never
    raises, whatever names the directory holds. *)
Theorem selection_raises_only_io :
  forall cfg env w,
    let p := select_remote_file cfg env w in
    same_state w (snd p)
    /\ forall e,
         fst p = Raise e ->
         env_fault env OpRecordRead (w_tick w) = Some e
         \/ (exists n, env_fault env OpListdir n = Some e)
         \/ (e = AttributeError /\ sftp (w_eng w) = None).
Proof.
  intros cfg env w p.
  destruct (select_outcomes cfg env w (fst p) (snd p)) as [Hs Hr].
  { unfold p. destruct (select_remote_file cfg env w). reflexivity. }
  split; [exact Hs|]. intros e He. rewrite He in Hr. cbv zeta in Hr.
  destruct Hr as [Hr | [(n & _ & Hr) | Hr]]; eauto.
Qed.

(** ** Relations kept by a whole run *)

Section RunRespects.

Variable cfg : Config.
Variable env : Env.
Variable R : World -> World -> Prop.
Hypothesis HR : world_preorder R.
Hypothesis Heng : forall f w, R w (with_eng f w).
Hypothesis Hrec :
  forall v w, R w (with_fs (insert (record_file cfg) v) w).
Hypothesis Hsrv :
  forall f v w, listed env f ->
    R w (with_fs (insert (server_file cfg f) v) w).
Hypothesis Hdl :
  forall f, listed env f ->
    respects R
      (download_with_armor env (path_join (SFTP_DIR cfg) f)
         (local_file cfg f)).

Lemma respects_try_finally {A} (m : M A) (f : M unit) :
  respects R m -> respects R f -> respects R (try_finally m f).
Proof.
  intros Hm Hf w r w' H. unfold try_finally in H.
  destruct (m w) as [r1 w1] eqn:E1. destruct (f w1) as [[u|e] w2] eqn:E2;
    injection H as <- <-;
    (eapply (wp_trans R HR); [exact (Hm _ _ _ E1) | exact (Hf _ _ _ E2)]).
Qed.

Lemma connect_respects : respects R (connect env).
Proof. unfold connect, on_transport. respects_auto HR; apply Heng. Qed.

Lemma close_respects : respects R (close env).
Proof. unfold close. respects_auto HR; apply Heng. Qed.

Lemma select_respects : respects R (select_remote_file cfg env).
Proof.
  unfold select_remote_file, read_last_date, sftp_call.
  apply (respects_bind _ HR); [respects_auto HR|intros last].
  apply (respects_bind _ HR); [respects_auto HR|intros n]. cbv zeta.
  destruct (ipi_files (env_listdir env n)); [respects_auto HR|].
  destruct (filtered_files last (s :: l)) as [|first rest];
    [respects_auto HR|].
  destruct (min_by_date first rest); respects_auto HR.
Qed.

(** The name that is fetched is one the server listed. *)
Lemma selected_is_listed w f w' :
  select_remote_file cfg env w = (Ok (inr f), w') -> listed env f.
Proof.
  intros H. destruct (select_outcomes cfg env w _ _ H) as [_ Hr].
  cbv zeta in Hr. destruct Hr as (n & _ & Hin & _).
  apply List.filter_In in Hin as [Hin _].
  apply List.filter_In in Hin as [Hin Hc].
  exists n. auto.
Qed.

Lemma fetch_respects f : listed env f -> respects R (fetch cfg env f).
Proof.
  intros Hf. unfold fetch. cbv zeta.
  apply (respects_bind _ HR); [respects_auto HR|intros _].
  apply (respects_bind _ HR); [apply (Hdl f Hf)|intros ok].
  destruct ok; [|respects_auto HR].
  unfold record_and_sync, write_record, sync_to_server.
  respects_auto HR; first [apply Hrec | apply (Hsrv f _ _ Hf)].
Qed.

Lemma attempt_body_respects attempt :
  respects R (attempt_body cfg env attempt).
Proof.
  unfold attempt_body.
  apply (respects_bind _ HR); [respects_auto HR|intros _].
  apply (respects_bind _ HR); [apply connect_respects|intros _].
  intros w r w' H.
  apply bind_inv in H as [(sel & w1 & Hsel & H) | (e & Hsel & ->)];
    [|exact (select_respects _ _ _ Hsel)].
  apply (wp_trans R HR _ w1); [exact (select_respects _ _ _ Hsel)|].
  destruct sel as [x|f].
  - injection H as _ <-. apply (wp_refl R HR).
  - exact (fetch_respects f (selected_is_listed _ _ _ Hsel) _ _ _ H).
Qed.

Lemma run_attempt_respects attempt : respects R (run_attempt cfg env attempt).
Proof.
  unfold run_attempt. apply respects_try_finally; [|apply close_respects].
  apply (respects_try_except _ HR).
  - apply (respects_bind _ HR); [|intros [x|]; respects_auto HR].
    apply attempt_body_respects.
  - intros e. unfold on_failure. respects_auto HR.
Qed.

Lemma attempts_respects todo : forall last,
  respects R (attempts cfg env todo last).
Proof.
  induction todo as [|attempt todo IH]; intros last; simpl.
  - respects_auto HR.
  - apply (respects_bind _ HR); [apply run_attempt_respects|].
    intros [x| |e]; [respects_auto HR | apply IH | apply IH].
Qed.

Lemma main_respects : respects R (main cfg env).
Proof.
  unfold main.
  apply (respects_bind _ HR); [respects_auto HR|intros _].
  apply (respects_bind _ HR); [respects_auto HR; apply Heng|intros _].
  apply attempts_respects.
Qed.

End RunRespects.

Lemma touches_only_preorder ok : world_preorder (touches_only ok).
Proof.
  split; unfold touches_only; simpl; try (intros; split; auto; fail).
  intros a b c [H1 G1] [H2 G2]. split.
  - intros p Hp. rewrite (H2 p Hp). apply (H1 p Hp).
  - intros p Hp. apply G2, G1, Hp.
Qed.

Lemma touches_only_insert (ok : string -> Prop) p v w :
  ok p -> touches_only ok w (with_fs (insert p v) w).
Proof.
  intros Hp. split; simpl.
  - intros q Hq. apply lookup_insert_ne. intros ->. contradiction.
  - intros q Hq. destruct (decide (p = q)) as [->|Hne].
    + rewrite lookup_insert_eq. eauto.
    + rewrite lookup_insert_ne by exact Hne. exact Hq.
Qed.

(** X12.  Which files a run can change.  Leaving the log file aside, a
    file is after [main] what it was before unless it is the record file,
    or [LOCAL_DIR / f] or [SERVER_DIR / f] for a name [f] that the server
    listed and that contains [IPI]; and no file at all is removed, however
    the run ends.  (Such a path need not lie inside the directory: the
    listed name is joined as it comes, so an absolute name, or one with
    [..], leads elsewhere.) *)
Theorem run_touches_only_its_files :
  forall cfg env w,
    let w' := snd (main cfg env w) in
    (forall p,
       p <> log_file cfg -> ~ run_path cfg env p ->
       w_fs w' !! p = w_fs w !! p)
    /\ (forall p, is_Some (w_fs w !! p) -> is_Some (w_fs w' !! p)).
Proof.
  intros cfg env w w'.
  assert (H : touches_only (run_path cfg env) w w').
  { apply (main_respects cfg env (touches_only (run_path cfg env))
             (touches_only_preorder _)) with (r := fst (main cfg env w)).
    - intros f w0. split; auto.
    - intros v w0. apply touches_only_insert. left. reflexivity.
    - intros f v w0 Hf. apply touches_only_insert. right. eauto.
    - intros f Hf w0 r w1 H.
      destruct (download_appends _ _ _ _ _ _ H) as ([Hother Hkeep] & _).
      split; [|exact Hkeep].
      intros p Hp. apply Hother. intros ->. apply Hp. right. eauto.
    - unfold w'. destruct (main cfg env w). reflexivity. }
  destruct H as [Hother Hkeep]. split; [|exact Hkeep].
  intros p _ Hp. exact (Hother p Hp).
Qed.

(** Paths as pathlib renders them: a trailing slash, repeated slashes and
    [.] go, [..] stays, the empty path is [.], and an absolute name
    replaces the directory it is joined to. *)
Example pathlib_rendering :
  PyPath.str "/srv/" = "/srv"
  /\ PyPath.str "" = "."
  /\ PyPath.str "//a//b/./c" = "//a/b/c"
  /\ PyPath.str "///a" = "/a"
  /\ PyPath.str "a/../b" = "a/../b"
  /\ PyPath.div "/srv/" "20250102.IPI" = "/srv/20250102.IPI"
  /\ PyPath.div "/local" "/etc/x" = "/etc/x".
Proof. repeat split; vm_compute; reflexivity. Qed.

(** A listed name with [..], or an absolute one, takes the download out of
    the local directory. *)
Example listed_name_leaves_the_directory :
  local_file Examples.cfg "../20250101.IPI" = "/local/../20250101.IPI"
  /\ local_file Examples.cfg "/etc/20250101.IPI" = "/etc/20250101.IPI".
Proof. split; vm_compute; reflexivity. Qed.

(** ** A run that reports success *)

Section Done.

Variable cfg : Config.
Variable env : Env.





End Done.



(** ** How long a run waits *)

Lemma sleeps_app a b : sleeps (a ++ b) = sleeps a ++ sleeps b.
Proof.
  induction a as [|ev a IH]; [reflexivity|].
  destruct ev; simpl; rewrite IH; reflexivity.
Qed.

Lemma sleeps_schedule evs :
  sleeps (List.filter is_schedule_event evs) = sleeps evs.
Proof.
  induction evs as [|ev evs IH]; [reflexivity|].
  destruct ev as [op r|t|d|line|]; simpl; try exact IH.
  - rewrite IH. reflexivity.
  - destruct line; simpl; exact IH.
Qed.

Lemma sleeps_failed_attempts errs :
  (length errs <= MAX_RETRIES)%nat ->
  sleeps (failed_attempts 0 errs)
  = firstn (Nat.min (length errs) 6) RETRY_BACKOFF.
Proof.
  intros H. unfold MAX_RETRIES in H.
  do 8 (destruct errs as [|? errs]; [reflexivity|]).
  simpl in H. lia.
Qed.

(** X14.  The delays a run sleeps are the first [k] entries of the backoff
    table, one after each failed attempt but the seventh, so [k] is at
    most 6: the entry of 600 seconds is never used, and a run sleeps at
    most 525 seconds in all. *)
Theorem run_sleeps_a_prefix_of_the_table :
  forall cfg env w,
    exists x evs w' k,
      main cfg env w = (Ok x, w')
      /\ w_trace w' = w_trace w ++ evs
      /\ (k <= 6)%nat
      /\ sleeps evs = firstn k RETRY_BACKOFF
      /\ fold_right Z.add 0 (sleeps evs) <= 525
      /\ ~ In 600 (sleeps evs).
Proof.
  intros cfg env w.
  destruct (main_structure cfg env w)
    as (ats & x & ending & w' & Hm & T & Hwf & He).
  destruct (schedule_of_run _ 0%nat _ _ _ _ Hwf He) as (errs & Hl & Hf & _).
  exists x, (EvLog LogBanner :: run_events 0 ats ++ ending), w',
    (Nat.min (length errs) 6).
  split; [exact Hm|]. split; [exact T|]. split; [lia|].
  assert (Hs : sleeps (EvLog LogBanner :: run_events 0 ats ++ ending)
               = firstn (Nat.min (length errs) 6) RETRY_BACKOFF).
  { change (sleeps (EvLog LogBanner :: run_events 0 ats ++ ending))
      with (sleeps (run_events 0 ats ++ ending)).
    rewrite <- sleeps_schedule, Hf, sleeps_app, (sleeps_failed_attempts _ Hl).
    destruct (length errs =? MAX_RETRIES)%nat; simpl; apply app_nil_r. }
  split; [exact Hs|]. rewrite Hs.
  assert (Hk : (Nat.min (length errs) 6 <= 6)%nat) by lia.
  revert Hk. generalize (Nat.min (length errs) 6). intros k Hk.
  do 7 (destruct k as [|k];
        [split; [vm_compute; discriminate
                |simpl; intuition discriminate]|]).
  lia.
Qed.

(** ** An empty remote file *)



(** ** A run that nothing disturbs *)


Section CalmRun.

Variable cfg : Config.
Variable env : Env.


Lemma tick_le_fs f w : tick_le w (with_fs f w).
Proof. unfold tick_le. simpl. lia. Qed.




End CalmRun.


